(** * Acoustic impulse-response tool chain: TSP deconvolution, NLMS and
    decay analysis

    Shallow embedding of the numerical parts of
      - [ir_analyze.c]      (Schroeder integration, decay-time regression),
      - [tsp_to_ir.c]       (radix-2 FFT/IFFT, frequency-domain deconvolution),
      - [tsp_gen.c]         (TSP spectrum design),
      - [adaptive_filter.c] (NLMS estimator, normalise-and-quantise export),
      - [white_noise.c]     (the excitation of the NLMS measurement).

    The C code computes on [double].  Every function below is written once,
    over an interface [Arith] of the operations the C code uses, and is then
    read at two instances:
      - [binary64]: IEEE-754 double precision (the kernel's primitive floats),
        which is what the compiled program computes; it is executable, and
        concrete runs of the code are evaluated at this instance;
      - [exact]: the real numbers, i.e. the same code with rounding removed;
        algebraic properties (monotonicity, bounds, the transform round trip)
        are proved at this instance.
    Properties that only depend on the control flow are proved for every
    instance at once. *)

From Stdlib Require Import ZArith List Bool Lia Floats Reals Lra.
Import ListNotations.

Set Warnings "-inexact-float,-abstract-large-number".

(** ** The arithmetic interface *)

Class Arith (F : Type) : Type := {
  of_int : Z -> F;              (* (double)i for a C int i *)
  fadd : F -> F -> F;
  fsub : F -> F -> F;
  fmul : F -> F -> F;
  fdiv : F -> F -> F;
  fneg : F -> F;
  fabs : F -> F;                (* fabs *)
  flt : F -> F -> bool;         (* a < b *)
  fle : F -> F -> bool;         (* a <= b *)
  trunc : F -> option Z;        (* conversion to an integer type: truncation
                                   toward zero, undefined on NaN and
                                   infinities *)
  M_PI : F;
  lit_1em10 : F;                (* the literal 1e-10 *)
  lit_0p9 : F;                  (* the literal 0.9 *)
  fcos : F -> F;                (* libm cos *)
  fsin : F -> F;                (* libm sin *)
  flog10 : F -> F;              (* libm log10 *)
  fpow2 : F -> F;               (* libm pow(x, 2) *)
  fhypot : F -> F -> F          (* libm cabs(re + i im) *)
}.

Declare Scope arith_scope.
Delimit Scope arith_scope with A.
Infix "+" := fadd : arith_scope.
Infix "-" := fsub : arith_scope.
Infix "*" := fmul : arith_scope.
Infix "/" := fdiv : arith_scope.
Notation "- x" := (fneg x) : arith_scope.
Notation "x <? y" := (flt x y) : arith_scope.
Notation "x <=? y" := (fle x y) : arith_scope.
Notation "x >? y" := (flt y x) : arith_scope.
Notation "x >=? y" := (fle y x) : arith_scope.
Notation "# z" := (of_int z) (at level 1, format "# z") : arith_scope.

(** ** IEEE-754 double precision *)

Module Binary64.
Open Scope float_scope.

(** Exact for every C [int]. *)
Definition of_Z (z : Z) : float :=
  match z with
  | Z0 => 0
  | Zpos _ => of_uint63 (Uint63.of_Z z)
  | Zneg p => - of_uint63 (Uint63.of_Z (Zpos p))
  end.

Definition to_Z (x : float) : option Z :=
  match Prim2SF x with
  | S754_zero _ => Some 0%Z
  | S754_finite s m e =>
      let mag := Z.shiftl (Zpos m) e in
      Some (if s then (- mag)%Z else mag)
  | _ => None
  end.

(** The C library's [cos], [sin], [log10] and [cabs] are not part of the
    repository.  They are modelled by argument reduction and a truncated
    series, accurate to a few units in the last place on the arguments
    used here; [pow(x, 2)] is the rounded square.  A C library may round the
    last digit differently ([cabs] is [sqrt(a*a + b*b)] here, not the
    correctly rounded one), so a run at this instance that turns on that
    digit need not be the run of the compiled program; the properties proved
    for every instance of [Arith] hold whatever these functions return. *)

Definition ln2 : float := 0x1.62e42fefa39efp-1.
Definition ln10 : float := 0x1.26bb1bbb55516p+1.
Definition sqrt_half : float := 0x1.6a09e667f3bcdp-1.
Definition pio2_hi : float := 0x1.921fb54442d18p+0.
Definition pio2_lo : float := 0x1.1a62633145c07p-54.
Definition two_over_pi : float := 0x1.45f306dc9c883p-1.

(** [1/k + z2/(k-2) ... ], Horner form of  sum z2^j / (2j+1). *)
Fixpoint atanh_series (n : nat) (k : Z) (z2 acc : float) : float :=
  match n with
  | O => acc
  | S n' => atanh_series n' (k - 2) z2 (1 / of_Z k + z2 * acc)
  end.

Definition ln (x : float) : float :=
  if PrimFloat.ltb x 0 then nan
  else if PrimFloat.eqb x 0 then neg_infinity
  else if PrimFloat.eqb x infinity then infinity
  else if PrimFloat.eqb x x then
    let '(m, e) := Z.frexp x in
    let '(m, e) :=
      if PrimFloat.ltb m sqrt_half then (2 * m, (e - 1)%Z) else (m, e) in
    let z := (m - 1) / (m + 1) in
    of_Z e * ln2 + 2 * z * atanh_series 14 27 (z * z) 0
  else nan.

Definition log10 (x : float) : float := ln x / ln10.

Definition round_half (x : float) : Z :=
  match to_Z (if PrimFloat.ltb x 0 then x - 0.5 else x + 0.5) with
  | Some z => z
  | None => 0%Z
  end.

Fixpoint trig_series (n : nat) (k : Z) (r2 acc : float) : float :=
  match n with
  | O => acc
  | S n' =>
      trig_series n' (k - 2) r2 (1 - r2 / of_Z (k * (k + 1)) * acc)
  end.

Definition sin_kernel (r : float) : float := r * trig_series 10 20 (r * r) 1.
Definition cos_kernel (r : float) : float := trig_series 10 19 (r * r) 1.

Definition reduce (x : float) : Z * float :=
  let k := round_half (x * two_over_pi) in
  let kf := of_Z k in
  (k, (x - kf * pio2_hi) - kf * pio2_lo).

Definition sin (x : float) : float :=
  if PrimFloat.eqb (x - x) 0 then
    let '(k, r) := reduce x in
    match (k mod 4)%Z with
    | 0%Z => sin_kernel r
    | 1%Z => cos_kernel r
    | 2%Z => - sin_kernel r
    | _ => - cos_kernel r
    end
  else nan.

Definition cos (x : float) : float :=
  if PrimFloat.eqb (x - x) 0 then
    let '(k, r) := reduce x in
    match (k mod 4)%Z with
    | 0%Z => cos_kernel r
    | 1%Z => - sin_kernel r
    | 2%Z => - cos_kernel r
    | _ => sin_kernel r
    end
  else nan.

Definition hypot (a b : float) : float := PrimFloat.sqrt (a * a + b * b).

Definition pi : float := 0x1.921fb54442d18p+1.
End Binary64.

#[export] Instance binary64 : Arith float := {|
  of_int := Binary64.of_Z;
  fadd := PrimFloat.add;
  fsub := PrimFloat.sub;
  fmul := PrimFloat.mul;
  fdiv := PrimFloat.div;
  fneg := PrimFloat.opp;
  fabs := PrimFloat.abs;
  flt := PrimFloat.ltb;
  fle := PrimFloat.leb;
  trunc := Binary64.to_Z;
  M_PI := Binary64.pi;
  lit_1em10 := 1e-10%float;
  lit_0p9 := 0.9%float;
  fcos := Binary64.cos;
  fsin := Binary64.sin;
  flog10 := Binary64.log10;
  fpow2 := fun x => PrimFloat.mul x x;
  fhypot := Binary64.hypot
|}.

(** ** Exact real arithmetic

    Division is the total division of the reals: a quotient by zero is a
    real number here, where the program gets an infinity or a NaN.  A
    property stated at this instance therefore carries the hypotheses that
    keep every divisor away from zero (a sample rate that is not zero, a
    buffer with a non-zero sample), or states that the divisor is positive. *)

Module Exact.
Open Scope R_scope.

Definition ltb (a b : R) : bool := if Rlt_dec a b then true else false.
Definition leb (a b : R) : bool := if Rle_dec a b then true else false.

(** Truncation toward zero. *)
Definition to_Z (x : R) : option Z :=
  Some (if Rle_dec 0 x then Int_part x else (- Int_part (- x))%Z).

Definition log10 (x : R) : R := ln x / ln 10.
Definition hypot (a b : R) : R := sqrt (a * a + b * b).
End Exact.

#[export] Instance exact : Arith R := {|
  of_int := IZR;
  fadd := Rplus;
  fsub := Rminus;
  fmul := Rmult;
  fdiv := Rdiv;
  fneg := Ropp;
  fabs := Rabs;
  flt := Exact.ltb;
  fle := Exact.leb;
  trunc := Exact.to_Z;
  M_PI := PI;
  lit_1em10 := (/ 10000000000)%R;
  lit_0p9 := (9 / 10)%R;
  fcos := Rtrigo_def.cos;
  fsin := Rtrigo_def.sin;
  flog10 := Exact.log10;
  fpow2 := fun x => (x * x)%R;
  fhypot := Exact.hypot
|}.

(** ** C arrays

    A C array is a list; [a[i]] is [nth i a d] and [a[i] = v] is [upd i v a].
    Every access of the embedded code is in range for the lengths the callers
    pass; [upd] leaves the list unchanged out of range, where C has undefined
    behaviour. *)

Fixpoint upd {A : Type} (i : nat) (v : A) (l : list A) : list A :=
  match l, i with
  | [], _ => []
  | _ :: t, O => v :: t
  | h :: t, S i' => h :: upd i' v t
  end.

(** ** The WAV container reader shared by the programs

    A file is its byte sequence ([None]: the file cannot be opened).  The
    header is the packed 44-byte struct, read on a little-endian machine. *)

Module Wav.
Open Scope Z_scope.

Definition le16 (b0 b1 : Z) : Z := b0 + 256 * b1.
Definition le32 (b0 b1 b2 b3 : Z) : Z :=
  b0 + 256 * (b1 + 256 * (b2 + 256 * b3)).
(** Two's-complement reading of a [w]-bit pattern. *)
Definition signed (w : Z) (u : Z) : Z :=
  if u <? 2 ^ (w - 1) then u else u - 2 ^ w.

Definition byte_at (bs : list Z) (i : nat) : Z := nth i bs 0.
Definition i32_at (bs : list Z) (i : nat) : Z :=
  signed 32 (le32 (byte_at bs i) (byte_at bs (i + 1))
                  (byte_at bs (i + 2)) (byte_at bs (i + 3))).
Definition tag_at (bs : list Z) (i : nat) (t : list Z) : bool :=
  forallb (fun p => Z.eqb (byte_at bs (i + fst p)) (snd p))
          (combine (seq 0 4) t).

Definition RIFF : list Z := [82; 73; 70; 70].
Definition WAVE : list Z := [87; 65; 86; 69].
Definition fmt_ : list Z := [102; 109; 116; 32].
Definition data : list Z := [100; 97; 116; 97].

Fixpoint samples_of (bs : list Z) : list Z :=
  match bs with
  | b0 :: b1 :: rest => signed 16 (le16 b0 b1) :: samples_of rest
  | _ => []
  end.

(** [read_wav]: [Some (samples, fs)] on success, [None] for the return
    value -1.  The count of samples is [data_size / 2]; a negative count
    makes the allocation fail (an allocation of zero bytes is taken to
    succeed, as it does with glibc), a data section shorter than the count
    makes the second [fread] fail.  tsp_to_ir.c returns the count, the other
    two programs store it through a pointer; here it is the length of the
    list. *)
Definition read_wav (file : option (list Z)) : option (list Z * Z) :=
  match file with
  | None => None
  | Some bs =>
      if (length bs <? 44)%nat then None
      else if negb (tag_at bs 0 RIFF && tag_at bs 8 WAVE
                    && tag_at bs 12 fmt_ && tag_at bs 36 data) then None
      else
        let fs := i32_at bs 24 in
        let num_samples := Z.quot (i32_at bs 40) 2 in
        if num_samples <? 0 then None
        else
          let body := skipn 44 bs in
          if (length body <? 2 * Z.to_nat num_samples)%nat then None
          else Some (samples_of (firstn (2 * Z.to_nat num_samples) body), fs)
  end.

Definition put16 (v : Z) : list Z :=
  let u := v mod 65536 in [u mod 256; u / 256].
Definition put32 (v : Z) : list Z :=
  let u := v mod 4294967296 in
  [u mod 256; (u / 256) mod 256; (u / 65536) mod 256; u / 16777216].

(** The bytes [write_wav] puts in the file: the header, then the first
    [num_samples] samples of the buffer.  (A count beyond the buffer makes
    [fwrite] read outside it; the list then gives the samples it has.) *)
Definition write_wav (samples : list Z) (num_samples : Z) (fs : Z) : list Z :=
  RIFF ++ put32 (36 + num_samples * 2) ++ WAVE ++ fmt_ ++ put32 16
  ++ put16 1 ++ put16 1 ++ put32 fs ++ put32 (fs * 2) ++ put16 2 ++ put16 16
  ++ data ++ put32 (num_samples * 2)
  ++ flat_map put16 (firstn (Z.to_nat num_samples) samples).
End Wav.

Arguments of_int {F _} z%_Z.

(** ** Complex numbers ([double complex]) *)

Record complex (F : Type) : Type := Cplx { re : F; im : F }.
Arguments Cplx {F} re im.
Arguments re {F} c.
Arguments im {F} c.

Section ComplexOps.
Context {F : Type} `{Arith F}.
Local Open Scope arith_scope.

Definition c0 : complex F := Cplx #0 #0.
Definition c1 : complex F := Cplx #1 #0.
Definition cadd (a b : complex F) : complex F :=
  Cplx (re a + re b) (im a + im b).
Definition csub (a b : complex F) : complex F :=
  Cplx (re a - re b) (im a - im b).
Definition cmul (a b : complex F) : complex F :=
  Cplx (re a * re b - im a * im b) (re a * im b + im a * re b).
Definition conj (a : complex F) : complex F := Cplx (re a) (- im a).
Definition cabs (a : complex F) : F := fhypot (re a) (im a).
(** [z /= n] for an [int] n. *)
Definition cdiv_int (a : complex F) (n : Z) : complex F :=
  Cplx (re a / #n) (im a / #n).
(** [cos(t) + I * sin(t)].  (With the compiler's real-times-complex product
    the real part is [cos t + 0 * sin t]; that is [cos t] up to the sign of a
    zero whenever [sin t] is finite.) *)
Definition cis (t : F) : complex F := Cplx (fcos t) (fsin t).

End ComplexOps.

(** ** Spectrum design by phase (step 1 of tsp_gen.c's [main], step 6 of
    tsp_to_ir.c's)

    Both programs fill a spectrum [X] of length [N] with the same loop,
<<
    for (k = 0; k <= N / 2; k++) {
        double theta = ...;
        X[k] = cos(theta) + I * sin(theta);
        if (k > 0 && k < N / 2) X[N - k] = conj(X[k]);
    }
    X[N / 2] = creal(X[N / 2]) + 0 * I;
>>
    and differ in the phase only, which is the parameter [theta] here. *)

Section HalfSpectrum.
Context {F : Type} `{Arith F}.
Local Open Scope arith_scope.

(** [count] iterations from [k]. *)
Fixpoint half_spectrum_loop (theta : nat -> F) (N : nat) (k count : nat)
  (X : list (complex F)) : list (complex F) :=
  match count with
  | O => X
  | S c =>
      let X := upd k (cis (theta k)) X in
      let X :=
        if (0 <? k)%nat && (k <? N / 2)%nat
        then upd (N - k) (conj (nth k X c0)) X
        else X in
      half_spectrum_loop theta N (S k) c X
  end.

(** The programs [malloc] the array, so the loop starts on indeterminate
    contents; [half_spectrum_on] takes them as [X0].  For an even [N] (and
    for [N = 1]) every entry is overwritten and [X0] does not matter; for the
    other [N] the entry [N/2 + 1] is never written.  [half_spectrum] starts
    from zeros; the programs only run it on powers of two. *)
Definition half_spectrum_on (theta : nat -> F) (N : nat)
  (X0 : list (complex F)) : list (complex F) :=
  let X := half_spectrum_loop theta N 0 (S (N / 2)) X0 in
  upd (N / 2) (Cplx (re (nth (N / 2) X c0)) #0) X.

Definition half_spectrum (theta : nat -> F) (N : nat) : list (complex F) :=
  let X := half_spectrum_loop theta N 0 (S (N / 2)) (repeat c0 N) in
  upd (N / 2) (Cplx (re (nth (N / 2) X c0)) #0) X.

End HalfSpectrum.

(** ** Normalise to 0.9 of full scale and quantise (step 9 of tsp_to_ir.c's
    [main], step 5 of adaptive_filter.c's, steps 3 and 4 of tsp_gen.c's) *)

Section Quantise.
Context {F : Type} `{Arith F}.
Local Open Scope arith_scope.

(** [for (i = 0; i < n; i++) { amp = fabs(v[i]);
                                if (amp > max_amp) max_amp = amp; }] *)
Fixpoint max_amp_loop (v : list F) (i n : nat) (max_amp : F) : F :=
  match n with
  | O => max_amp
  | S n' =>
      let amp := fabs (nth i v #0) in
      max_amp_loop v (S i) n' (if amp >? max_amp then amp else max_amp)
  end.

(** The conversion [(int16_t)d]: defined only when the truncated value is
    representable. *)
Definition to_int16 (d : F) : option Z :=
  match trunc d with
  | Some z => if ((-32768 <=? z) && (z <=? 32767))%Z then Some z else None
  | None => None
  end.

Definition quantize_sample (max_amp v : F) : option Z :=
  let sample := v / max_amp * lit_0p9 in
  to_int16 (sample * #32767).

Fixpoint quantize_loop (v : list F) (max_amp : F) (i n : nat)
  : list (option Z) :=
  match n with
  | O => []
  | S n' =>
      quantize_sample max_amp (nth i v #0) :: quantize_loop v max_amp (S i) n'
  end.

(** [None] in the result marks a sample whose conversion is undefined in C. *)
Definition normalize_quantize (v : list F) (n : nat) : list (option Z) :=
  let max_amp := max_amp_loop v 0 n #0 in
  quantize_loop v max_amp 0 n.

End Quantise.

(** ** ir_analyze.c *)

Module IrAnalyze.
Section Code.
Context {F : Type} `{Arith F}.
Local Open Scope arith_scope.

(** First loop of [schroeder_integral]: [i] runs from [k - 1] down to 0. *)
Fixpoint energy_loop (ir : list Z) (k : nat) (sum : F) (decay_curve : list F)
  : list F :=
  match k with
  | O => decay_curve
  | S i =>
      let sample := #(nth i ir 0%Z) / #32768 in
      let sum := sum + sample * sample in
      energy_loop ir i sum (upd i sum decay_curve)
  end.

(** Second loop of [schroeder_integral]: [n] iterations from index [i] up. *)
Fixpoint db_loop (max_energy : F) (i n : nat) (decay_curve : list F)
  : list F :=
  match n with
  | O => decay_curve
  | S n' =>
      let e := nth i decay_curve #0 in
      let v := if e >? #0 then #10 * flog10 (e / max_energy) else #(-100) in
      db_loop max_energy (S i) n' (upd i v decay_curve)
  end.

Definition schroeder_integral (ir : list Z) (len : nat) (decay_curve : list F)
  : list F :=
  let decay_curve := energy_loop ir len #0 decay_curve in
  let max_energy := nth 0 decay_curve #0 in
  if max_energy >? #0 then db_loop max_energy 0 len decay_curve
  else decay_curve.

(** What the specification says [schroeder_integral] computes: the backward
    cumulative sum of the squared normalised samples ... *)
Fixpoint backward_energy (ir : list Z) : list F :=
  match ir with
  | [] => []
  | s :: rest =>
      let tail := backward_energy rest in
      let sample := #s / #32768 in
      (hd #0 tail + sample * sample) :: tail
  end.

(** ... and its conversion to dB relative to the entry at index 0, with the
    floor -100 for an entry that is not positive. *)
Definition to_db (energy_max e : F) : F :=
  if e >? #0 then #10 * flog10 (e / energy_max) else #(-100).

(** The scan of [calculate_decay_time], with its [break]: [n] iterations left
    from index [i]; returns [(start_idx, end_idx)]. *)
Fixpoint scan (decay_curve : list F) (start_db end_db : F) (i n : nat)
  (start_idx : Z) : Z * Z :=
  match n with
  | O => (start_idx, (-1)%Z)
  | S n' =>
      let c := nth i decay_curve #0 in
      let start_idx :=
        if (start_idx <? 0)%Z && (c <=? start_db) && (c >=? end_db)
        then Z.of_nat i else start_idx in
      if c <=? end_db then (start_idx, Z.of_nat i)
      else scan decay_curve start_db end_db (S i) n' start_idx
  end.

Record sums : Type := mk_sums { sum_x : F; sum_y : F; sum_xy : F; sum_x2 : F }.

Fixpoint regress_loop (decay_curve : list F) (fs : Z) (i n : nat) (s : sums)
  : sums :=
  match n with
  | O => s
  | S n' =>
      let x := #(Z.of_nat i) / #fs in
      let y := nth i decay_curve #0 in
      regress_loop decay_curve fs (S i) n'
        (mk_sums (sum_x s + x) (sum_y s + y)
                 (sum_xy s + x * y) (sum_x2 s + x * x))
  end.

(** The least-squares slope over [start_idx .. end_idx], with the
    denominator it divides by. *)
Definition regression (decay_curve : list F) (fs : Z) (start_idx end_idx : Z)
  : F * F :=
  let n := (end_idx - start_idx + 1)%Z in
  let s := regress_loop decay_curve fs (Z.to_nat start_idx) (Z.to_nat n)
             (mk_sums #0 #0 #0 #0) in
  let denominator := #n * sum_x2 s - sum_x s * sum_x s in
  (denominator, (#n * sum_xy s - sum_x s * sum_y s) / denominator).

(** Returns the value together with [*start_idx] and [*end_idx]. *)
Definition calculate_decay_time (decay_curve : list F) (len : nat) (fs : Z)
  (start_db end_db : F) : F * Z * Z :=
  let '(start_idx, end_idx) := scan decay_curve start_db end_db 0 len (-1) in
  if (start_idx <? 0)%Z || (end_idx <? 0)%Z || (end_idx <=? start_idx)%Z
  then (#(-1), start_idx, end_idx)
  else
    let '(denominator, slope) :=
      regression decay_curve fs start_idx end_idx in
    if fabs denominator <? lit_1em10 then (#(-1), start_idx, end_idx)
    else if slope >=? #0 then (#(-1), start_idx, end_idx)
    else
      let rt60 := #(-60) / slope in
      (rt60, start_idx, end_idx).

Record report : Type := mk_report {
  t10 : F; t10_start : Z; t10_end : Z; rt60_t10 : F;
  t20 : F; t20_start : Z; t20_end : Z; rt60_t20 : F
}.

(** Steps 2 to 4 of [main]. *)
Definition analyze (ir_samples : list Z) (fs : Z) (num_samples : nat)
  : report :=
  let decay_curve :=
    schroeder_integral ir_samples num_samples (repeat #0 num_samples) in
  let '(t10, t10_start, t10_end) :=
    calculate_decay_time decay_curve num_samples fs #(-5) #(-15) in
  let rt60_t10 := if t10 >? #0 then t10 * #6 else #(-1) in
  let '(t20, t20_start, t20_end) :=
    calculate_decay_time decay_curve num_samples fs #(-5) #(-25) in
  let rt60_t20 := if t20 >? #0 then t20 * #3 else #(-1) in
  mk_report t10 t10_start t10_end rt60_t10 t20 t20_start t20_end rt60_t20.

(** [main]: [None] is exit status 1, [Some r] exit status 0 after printing
    the report [r]. *)
Definition main (ir_file : option (list Z)) : option report :=
  match Wav.read_wav ir_file with
  | None => None
  | Some (ir_samples, fs) =>
      Some (analyze ir_samples fs (length ir_samples))
  end.

End Code.
End IrAnalyze.

(** ** tsp_to_ir.c *)

Module TspToIr.
Section Code.
Context {F : Type} `{Arith F}.
Local Open Scope arith_scope.

(** [for (; j & bit; bit >>= 1) j ^= bit;] *)
Fixpoint carry_loop (fuel : nat) (j bit : nat) : nat * nat :=
  match fuel with
  | O => (j, bit)
  | S f =>
      if Nat.eqb (Nat.land j bit) 0 then (j, bit)
      else carry_loop f (Nat.lxor j bit) (Nat.shiftr bit 1)
  end.

(** The bit-reversal permutation: [count] iterations from [i], with the
    running reversed counter [j]. *)
Fixpoint bitrev_loop (n : nat) (x : list (complex F)) (i j count : nat)
  : list (complex F) :=
  match count with
  | O => x
  | S c =>
      let bit := Nat.shiftr n 1 in
      let '(j, bit) := carry_loop (S (Nat.log2 bit)) j bit in
      let j := Nat.lxor j bit in
      let x :=
        if (i <? j)%nat
        then let t := nth i x c0 in upd j t (upd i (nth j x c0) x)
        else x in
      bitrev_loop n x (S i) j c
  end.

(** [for (j = 0; j < len / 2; j++)]: [count] iterations from [j].  On a
    list, a read outside the buffer gives zero and a store outside it is
    dropped, where the program's behaviour is undefined; the loops of
    [Checked] below tell these runs apart, and agree with the ones here on
    every buffer whose size is a power of two up to [2^29]. *)
Fixpoint butterfly_loop (x : list (complex F)) (i half : nat)
  (wlen w : complex F) (j count : nat) : list (complex F) :=
  match count with
  | O => x
  | S c =>
      let u := nth (i + j) x c0 in
      let v := cmul (nth (i + j + half) x c0) w in
      let x := upd (i + j) (cadd u v) x in
      let x := upd (i + j + half) (csub u v) x in
      butterfly_loop x i half wlen (cmul w wlen) (S j) c
  end.

(** [for (i = 0; i < n; i += len)] *)
Fixpoint block_loop (fuel : nat) (x : list (complex F)) (n len : nat)
  (wlen : complex F) (i : nat) : list (complex F) :=
  match fuel with
  | O => x
  | S f =>
      if (i <? n)%nat
      then block_loop f (butterfly_loop x i (len / 2) wlen c1 0 (len / 2))
             n len wlen (i + len)
      else x
  end.

(** [for (len = 2; len <= n; len <<= 1)], with [ang = two * M_PI / len]
    where [two] is 2.0 in [simple_fft] and -2.0 in [simple_ifft].  [len] is
    an [int] in the program and a natural number here: the last [len <<= 1]
    stays in range for [n] up to [2^29]. *)
Fixpoint stage_loop (fuel : nat) (two : F) (x : list (complex F))
  (n len : nat) : list (complex F) :=
  match fuel with
  | O => x
  | S f =>
      if (len <=? n)%nat
      then
        let ang := two * M_PI / #(Z.of_nat len) in
        let wlen := cis ang in
        stage_loop f two (block_loop n x n len wlen 0) n (2 * len)
      else x
  end.

Definition simple_fft (x : list (complex F)) (n : nat) : list (complex F) :=
  let x := bitrev_loop n x 1 0 (n - 1) in
  stage_loop (S (Nat.log2 n)) #2 x n 2.

Definition simple_ifft (x : list (complex F)) (n : nat) : list (complex F) :=
  let x := bitrev_loop n x 1 0 (n - 1) in
  let x := stage_loop (S (Nat.log2 n)) #(-2) x n 2 in
  map (fun z => cdiv_int z (Z.of_nat n)) (firstn n x) ++ skipn n x.

(** [N = 1; while (N < max_len) N <<= 1;] *)
Fixpoint fft_size_loop (fuel N max_len : nat) : nat :=
  match fuel with
  | O => N
  | S f => if (N <? max_len)%nat then fft_size_loop f (2 * N) max_len else N
  end.
Definition fft_size (tsp_len response_len : nat) : nat :=
  let max_len := if (response_len <? tsp_len)%nat then tsp_len
                 else response_len in
  fft_size_loop max_len 1 max_len.

(** [for (i = 0; i < count; i++)
       buf[i] = (double)samples[start + i] / 32768.0;] *)
Fixpoint load_loop (samples : list Z) (start i count : nat)
  (buf : list (complex F)) : list (complex F) :=
  match count with
  | O => buf
  | S c =>
      load_loop samples start (S i) c
        (upd i (Cplx (#(nth (start + i) samples 0%Z) / #32768) #0) buf)
  end.

(** Step 4 before the transform: the zero-padded excitation. *)
Definition tsp_buffer (tsp_samples : list Z) (N : nat) : list (complex F) :=
  load_loop tsp_samples 0 0 (length tsp_samples) (repeat c0 N).

Definition start_idx (tsp_len response_len : nat) : nat :=
  if (tsp_len * 2 <=? response_len)%nat then tsp_len else 0%nat.
Definition copy_len (tsp_len response_len N : nat) : nat :=
  let d := (response_len - start_idx tsp_len response_len)%nat in
  if (d <? N)%nat then d else N.

(** Step 5 before the transform: the zero-padded response. *)
Definition response_buffer (tsp_len : nat) (response_samples : list Z)
  (N : nat) : list (complex F) :=
  let response_len := length response_samples in
  load_loop response_samples (start_idx tsp_len response_len) 0
    (copy_len tsp_len response_len N) (repeat c0 N).

(** Step 6: the down-chirp [exp(+j 2 pi J (k/N)^2)]. *)
Definition inv_theta (N J : nat) (k : nat) : F :=
  #2 * M_PI * #(Z.of_nat J) * fpow2 (#(Z.of_nat k) / #(Z.of_nat N)).

Definition inv_filter (N J : nat) : list (complex F) :=
  half_spectrum (inv_theta N J) N.

(** Step 7: [for (k = 0; k < N; k++)], [count] iterations from [k]. *)
Fixpoint ir_freq_loop (TSP RESPONSE INV_FILTER : list (complex F))
  (k count : nat) : list (complex F) :=
  match count with
  | O => []
  | S c =>
      let tsp_mag := cabs (nth k TSP c0) in
      (if tsp_mag >? lit_1em10
       then cmul (nth k RESPONSE c0) (nth k INV_FILTER c0)
       else c0)
      :: ir_freq_loop TSP RESPONSE INV_FILTER (S k) c
  end.

Definition ir_freq (TSP RESPONSE INV_FILTER : list (complex F)) (N : nat)
  : list (complex F) :=
  ir_freq_loop TSP RESPONSE INV_FILTER 0 N.

(** Steps 3 to 7: the spectrum [IR_FREQ] handed to the inverse transform. *)
Definition ir_spectrum (tsp_samples response_samples : list Z)
  : list (complex F) :=
  let tsp_len := length tsp_samples in
  let response_len := length response_samples in
  let N := fft_size tsp_len response_len in
  let TSP := simple_fft (tsp_buffer tsp_samples N) N in
  let RESPONSE :=
    simple_fft (response_buffer tsp_len response_samples N) N in
  let J := (tsp_len / 2)%nat in
  let INV_FILTER := inv_filter N J in
  ir_freq TSP RESPONSE INV_FILTER N.

(** Steps 3 to 9: from the two sample buffers to the quantised impulse
    response of length [N]. *)
Definition deconvolve (tsp_samples response_samples : list Z)
  : nat * list (option Z) :=
  let N := fft_size (length tsp_samples) (length response_samples) in
  let IR_FREQ := simple_ifft (ir_spectrum tsp_samples response_samples) N in
  (N, normalize_quantize (map re IR_FREQ) N).

Inductive outcome : Type :=
| TspReadError          (* "TSP信号の読み込みに失敗", exit 1 *)
| ResponseReadError     (* "TSP応答の読み込みに失敗", exit 1 *)
| RateMismatch          (* "サンプリング周波数が一致しません", exit 1 *)
| WriteError            (* "WAVファイルの書き込みに失敗", exit 1 *)
| Saved (N : nat) (fs : Z) (ir_samples : list (option Z)).  (* exit 0 *)

(** [writable]: whether the output file can be opened by [write_wav]. *)
Definition main (tsp_file response_file : option (list Z)) (writable : bool)
  : outcome :=
  match Wav.read_wav tsp_file with
  | None => TspReadError
  | Some (tsp_samples, fs_tsp) =>
      match Wav.read_wav response_file with
      | None => ResponseReadError
      | Some (response_samples, fs_response) =>
          if negb (fs_tsp =? fs_response)%Z then RateMismatch
          else
            let '(N, ir_samples) := deconvolve tsp_samples response_samples in
            if writable then Saved N fs_tsp ir_samples else WriteError
      end
  end.

End Code.
End TspToIr.

(** ** tsp_gen.c

    Its [simple_ifft] is the same text as tsp_to_ir.c's, and is shared. *)

Module TspGen.
Section Code.
Context {F : Type} `{Arith F}.
Local Open Scope arith_scope.

(** Step 1: the up-chirp phase with the cyclic shift [n0]. *)
Definition theta (N J n0 : nat) (k : nat) : F :=
  #(-2) * M_PI * #(Z.of_nat J) * fpow2 (#(Z.of_nat k) / #(Z.of_nat N))
  - #2 * M_PI * #(Z.of_nat k) * #(Z.of_nat n0) / #(Z.of_nat N).

(** The TSP spectrum [H] handed to the inverse transform. *)
Definition design (N J n0 : nat) : list (complex F) :=
  half_spectrum (theta N J n0) N.

Definition N : nat := 262144.
Definition J : nat := N / 2.
Definition fs : Z := 48000.
Definition n0 : nat := N / 4.

Inductive outcome : Type :=
| MemoryError           (* "Memory error", exit 1 *)
| FileError             (* "File error", exit 1 *)
| Written (pcm : list (option Z)).  (* exit 0 *)

(** [allocated]: whether [malloc] returned the array [H]; [writable]:
    whether the output file can be opened; [pcm]: the samples written after
    the header, [None] for a conversion that is undefined in C. *)
Definition main (allocated writable : bool) : outcome :=
  if negb allocated then MemoryError
  else
    let H := TspToIr.simple_ifft (design N J n0) N in
    if negb writable then FileError
    else Written (normalize_quantize (map re H) N).

End Code.
End TspGen.

(** ** adaptive_filter.c *)

Module AdaptiveFilter.
Section Code.
Context {F : Type} `{Arith F}.
Local Open Scope arith_scope.

(** [for (i = filter_len - 1; i > 0; i--) x_buf[i] = x_buf[i - 1];]
    entered with [i = filter_len - 1]. *)
Fixpoint shift_loop (x_buf : list F) (i : nat) : list F :=
  match i with
  | O => x_buf
  | S i' => shift_loop (upd i (nth i' x_buf #0) x_buf) i'
  end.

(** [for (i = 0; i < filter_len; i++) y_hat += h[i] * x_buf[i];] *)
Fixpoint y_hat_loop (h x_buf : list F) (i count : nat) (y_hat : F) : F :=
  match count with
  | O => y_hat
  | S c =>
      y_hat_loop h x_buf (S i) c (y_hat + nth i h #0 * nth i x_buf #0)
  end.

(** [for (i = 0; i < filter_len; i++) x_power += x_buf[i] * x_buf[i];] *)
Fixpoint x_power_loop (x_buf : list F) (i count : nat) (x_power : F) : F :=
  match count with
  | O => x_power
  | S c =>
      x_power_loop x_buf (S i) c (x_power + nth i x_buf #0 * nth i x_buf #0)
  end.

(** [for (i = 0; i < filter_len; i++) h[i] += step * e * x_buf[i];] *)
Fixpoint update_loop (h x_buf : list F) (step e : F) (i count : nat)
  : list F :=
  match count with
  | O => h
  | S c =>
      update_loop (upd i (nth i h #0 + step * e * nth i x_buf #0) h)
        x_buf step e (S i) c
  end.

(** The body of the sample loop at sample [n]; the state is [(h, x_buf)]. *)
Definition nlms_sample (x y : list F) (filter_len : nat) (mu beta : F)
  (n : nat) (st : list F * list F) : list F * list F :=
  let '(h, x_buf) := st in
  let x_buf := shift_loop x_buf (filter_len - 1) in
  let x_buf := upd 0 (nth n x #0) x_buf in
  let y_hat := y_hat_loop h x_buf 0 filter_len #0 in
  let e := nth n y #0 - y_hat in
  let x_power := x_power_loop x_buf 0 filter_len beta in
  if x_power >? lit_1em10
  then
    let step := mu / x_power in
    (update_loop h x_buf step e 0 filter_len, x_buf)
  else (h, x_buf).

(** [for (n = 0; n < x_len; n++)], [count] iterations from [n]. *)
Fixpoint sample_loop (x y : list F) (filter_len : nat) (mu beta : F)
  (n count : nat) (st : list F * list F) : list F * list F :=
  match count with
  | O => st
  | S c =>
      sample_loop x y filter_len mu beta (S n) c
        (nlms_sample x y filter_len mu beta n st)
  end.

(** [for (i = 0; i < filter_len; i++) h[i] = 0.0;] *)
Fixpoint clear_loop (h : list F) (i count : nat) : list F :=
  match count with
  | O => h
  | S c => clear_loop (upd i #0 h) (S i) c
  end.

(** The state after the first [k] samples. *)
Definition nlms_state (x y : list F) (filter_len : nat) (h : list F)
  (mu beta : F) (k : nat) : list F * list F :=
  sample_loop x y filter_len mu beta 0 k
    (clear_loop h 0 filter_len, repeat #0 filter_len).

(** The coefficient array [h] at return. *)
Definition nlms_adaptive_filter (x y : list F) (x_len filter_len : nat)
  (h : list F) (mu beta : F) : list F :=
  fst (nlms_state x y filter_len h mu beta x_len).

(** What the specification says the filter computes: with the delay line
    [x_buf] holding the most recent inputs, newest first, ... *)
Definition delay_line (x_buf : list F) (x_n : F) : list F :=
  x_n :: removelast x_buf.

(** ... the prediction is the sum of [h[i] * x_buf[i]], ... *)
Definition predict (h x_buf : list F) : F :=
  fold_left (fun acc p => acc + fst p * snd p) (combine h x_buf) #0.

(** ... the input power is [beta] plus the sum of [x_buf[i]^2], ... *)
Definition input_power (beta : F) (x_buf : list F) : F :=
  fold_left (fun acc x_i => acc + x_i * x_i) x_buf beta.

(** ... and every coefficient moves by [(mu / P) * e * x_buf[i]] when the
    power exceeds 1e-10, and none moves otherwise. *)
Definition spec_update (mu beta : F) (h x_buf : list F) (y_n : F) : list F :=
  let y_hat := predict h x_buf in
  let e := y_n - y_hat in
  let P := input_power beta x_buf in
  if P >? lit_1em10
  then map (fun p => fst p + mu / P * e * snd p) (combine h x_buf)
  else h.

Fixpoint spec_state (x y : list F) (filter_len : nat) (mu beta : F) (k : nat)
  : list F * list F :=
  match k with
  | O => (repeat #0 filter_len, repeat #0 filter_len)
  | S n =>
      let '(h, x_buf) := spec_state x y filter_len mu beta n in
      let x_buf := delay_line x_buf (nth n x #0) in
      (spec_update mu beta h x_buf (nth n y #0), x_buf)
  end.

Inductive outcome : Type :=
| InputReadError
| OutputReadError
| RateMismatch
| WriteError
| Saved (filter_len : nat) (fs : Z) (ir_samples : list (option Z))
| Undefined.

Definition mu_default : F := #1 / #10.
Definition beta_default : F := #1 / #1000000.

(** [filter_len] is the [int] that [atoi] makes of the fourth argument
    (48000 without one).  When it is not positive and there is a sample to
    process, the sample loop stores [x_buf[0]] outside an array of no
    entries, or through the null pointer that [calloc] returns for a negative
    count; with nothing to process, a negative count still reaches [fwrite]
    once the output file is open: these runs are [Undefined]. *)
Definition main (input_file output_file : option (list Z)) (filter_len : Z)
  (writable : bool) : outcome :=
  match Wav.read_wav input_file with
  | None => InputReadError
  | Some (input_samples, fs_input) =>
      match Wav.read_wav output_file with
      | None => OutputReadError
      | Some (output_samples, fs_output) =>
          if negb (fs_input =? fs_output)%Z then RateMismatch
          else
            let input_len := length input_samples in
            let output_len := length output_samples in
            let min_len := if (input_len <? output_len)%nat then input_len
                           else output_len in
            if (filter_len <=? 0)%Z && (0 <? min_len)%nat then Undefined
            else if negb writable then WriteError
            else if (filter_len <? 0)%Z then Undefined
            else
              let filter_len := Z.to_nat filter_len in
              let x :=
                map (fun s => #s / #32768) (firstn min_len input_samples) in
              let y :=
                map (fun s => #s / #32768)
                    (firstn min_len output_samples) in
              let h := repeat #0 filter_len in
              let h := nlms_adaptive_filter x y min_len filter_len h
                         mu_default beta_default in
              Saved filter_len fs_input (normalize_quantize h filter_len)
      end
  end.

End Code.
End AdaptiveFilter.

(** ** The transform as a function on lists

    The description the loops of [simple_fft] and [simple_ifft] are compared
    with: the bit-reversal permutation as a function of the index, and the
    butterfly stages as functions on whole blocks. *)

(** The [m] low bits of [i], reversed. *)
Fixpoint bitrev (m i : nat) : nat :=
  match m with
  | O => 0
  | S m' => (i mod 2) * 2 ^ m' + bitrev m' (i / 2)
  end.

(** The successor in bit-reversed order: what the carry loop and the final
    [j ^= bit] compute on [m] bits. *)
Fixpoint inc_rev (m j : nat) : nat :=
  match m with
  | O => j
  | S m' => if j <? 2 ^ m' then j + 2 ^ m' else inc_rev m' (j - 2 ^ m')
  end.

(** The value of [bit] when [m] bits are left to inspect. *)
Definition topbit (m : nat) : nat :=
  match m with
  | O => 0
  | S m' => 2 ^ m'
  end.

Fixpoint evens {A : Type} (l : list A) : list A :=
  match l with
  | a :: _ :: l' => a :: evens l'
  | l' => l'
  end.

Fixpoint odds {A : Type} (l : list A) : list A :=
  match l with
  | _ :: b :: l' => b :: odds l'
  | _ => []
  end.

(** The permutation as decimation in time: the even-indexed samples first. *)
Fixpoint bit_reverse {A : Type} (m : nat) (x : list A) : list A :=
  match m with
  | O => x
  | S m' => bit_reverse m' (evens x) ++ bit_reverse m' (odds x)
  end.

(** The index read at position [p] once the swap loop has handled the
    positions up to [t]. *)
Definition swapped_upto (m t p : nat) : nat :=
  if (p <=? t) || (bitrev m p <=? t) then bitrev m p else p.

Section TransformSpec.
Context {F : Type} `{Arith F}.
Local Open Scope arith_scope.

(** [B[j] * w * wlen^j], with the running twiddle of the inner loop. *)
Fixpoint twist (wlen w : complex F) (B : list (complex F))
  : list (complex F) :=
  match B with
  | [] => []
  | b :: B' => cmul b w :: twist wlen (cmul w wlen) B'
  end.

Fixpoint zip_with (f : complex F -> complex F -> complex F)
  (A B : list (complex F)) : list (complex F) :=
  match A, B with
  | a :: A', b :: B' => f a b :: zip_with f A' B'
  | _, _ => []
  end.

(** One butterfly block on the halves [A] and [B]. *)
Definition butterfly (wlen : complex F) (A B : list (complex F))
  : list (complex F) :=
  let V := twist wlen c1 B in
  zip_with cadd A V ++ zip_with csub A V.

(** One stage: [blocks] consecutive blocks of two halves of length [half]. *)
Fixpoint stage (half : nat) (wlen : complex F) (blocks : nat)
  (x : list (complex F)) : list (complex F) :=
  match blocks with
  | O => x
  | S q =>
      butterfly wlen (firstn half x) (firstn half (skipn half x))
      ++ stage half wlen q (skipn (2 * half) x)
  end.

Definition twiddle (two : F) (len : nat) : complex F :=
  cis (two * M_PI / #(Z.of_nat len)).

(** The stages of block lengths 2, 4, ..., 2^s. *)
Fixpoint stages (two : F) (s : nat) (x : list (complex F))
  : list (complex F) :=
  match s with
  | O => x
  | S s' =>
      stage (2 ^ s') (twiddle two (2 ^ s)) (length x / 2 ^ s)
        (stages two s' x)
  end.

(** The transform of length [2^m] by decimation in time. *)
Fixpoint dit (two : F) (m : nat) (x : list (complex F)) : list (complex F) :=
  match m with
  | O => x
  | S m' =>
      butterfly (twiddle two (2 ^ m)) (dit two m' (evens x))
        (dit two m' (odds x))
  end.

End TransformSpec.

(** ** The transforms with checked accesses

    The same loops as [TspToIr.simple_fft] and [TspToIr.simple_ifft], where
    an access [x[i]] outside the buffer and an [int] result above [INT_MAX]
    end the run: [None] is a run whose behaviour C leaves undefined.  Only
    [i += len] and [len <<= 1] are checked for overflow; the other counters
    stay below [n]. *)

Module Checked.
Section Code.
Context {F : Type} `{Arith F}.
Local Open Scope arith_scope.

Definition INT_MAX : Z := 2147483647.

Definition bind {A B : Type} (a : option A) (f : A -> option B) : option B :=
  match a with
  | Some v => f v
  | None => None
  end.

Notation "v <- a ;; b" := (bind a (fun v => b))
  (at level 61, a at next level, right associativity).

Definition get (x : list (complex F)) (i : nat) : option (complex F) :=
  nth_error x i.

Definition set (x : list (complex F)) (i : nat) (v : complex F)
  : option (list (complex F)) :=
  if (i <? length x)%nat then Some (upd i v x) else None.

(** The value of an [int] expression, when it is representable. *)
Definition int (v : nat) : option nat :=
  if (Z.of_nat v <=? INT_MAX)%Z then Some v else None.

Fixpoint bitrev_loop (n : nat) (x : list (complex F)) (i j count : nat)
  : option (list (complex F)) :=
  match count with
  | O => Some x
  | S c =>
      let bit := Nat.shiftr n 1 in
      let '(j, bit) := TspToIr.carry_loop (S (Nat.log2 bit)) j bit in
      let j := Nat.lxor j bit in
      x <- (if (i <? j)%nat
            then
              t <- get x i ;;
              x_j <- get x j ;;
              x <- set x i x_j ;;
              set x j t
            else Some x) ;;
      bitrev_loop n x (S i) j c
  end.

Fixpoint butterfly_loop (x : list (complex F)) (i half : nat)
  (wlen w : complex F) (j count : nat) : option (list (complex F)) :=
  match count with
  | O => Some x
  | S c =>
      u <- get x (i + j) ;;
      b <- get x (i + j + half) ;;
      let v := cmul b w in
      x <- set x (i + j) (cadd u v) ;;
      x <- set x (i + j + half) (csub u v) ;;
      butterfly_loop x i half wlen (cmul w wlen) (S j) c
  end.

Fixpoint block_loop (fuel : nat) (x : list (complex F)) (n len : nat)
  (wlen : complex F) (i : nat) : option (list (complex F)) :=
  match fuel with
  | O => Some x
  | S f =>
      if (i <? n)%nat
      then
        x <- butterfly_loop x i (len / 2) wlen c1 0 (len / 2) ;;
        i <- int (i + len) ;;
        block_loop f x n len wlen i
      else Some x
  end.

Fixpoint stage_loop (fuel : nat) (two : F) (x : list (complex F))
  (n len : nat) : option (list (complex F)) :=
  match fuel with
  | O => Some x
  | S f =>
      if (len <=? n)%nat
      then
        let ang := two * M_PI / #(Z.of_nat len) in
        let wlen := cis ang in
        x <- block_loop n x n len wlen 0 ;;
        len <- int (2 * len) ;;
        stage_loop f two x n len
      else Some x
  end.

Definition simple_fft (x : list (complex F)) (n : nat)
  : option (list (complex F)) :=
  x <- bitrev_loop n x 1 0 (n - 1) ;;
  stage_loop (S (Nat.log2 n)) #2 x n 2.

Definition simple_ifft (x : list (complex F)) (n : nat)
  : option (list (complex F)) :=
  x <- bitrev_loop n x 1 0 (n - 1) ;;
  x <- stage_loop (S (Nat.log2 n)) #(-2) x n 2 ;;
  if (n <=? length x)%nat
  then Some (map (fun z => cdiv_int z (Z.of_nat n)) (firstn n x) ++ skipn n x)
  else None.

End Code.
End Checked.

(** ** white_noise.c *)

Module WhiteNoise.
Section Code.
Context {F : Type} `{Arith F}.
Local Open Scope arith_scope.

(** [randValue = ((double)rand() / RAND_MAX) * 2.0 - 1.0;
     buffer[i] = (int16_t)(randValue * 0.5 * 32767);]
    for the value [r] that [rand()] returned ([0.5] is [1 / 2] exactly). *)
Definition sample (RAND_MAX r : Z) : option Z :=
  let randValue := #r / #RAND_MAX * #2 - #1 in
  to_int16 (randValue * (#1 / #2) * #32767).

(** [for (i = 0; i < numSamples; i++)], [count] iterations from [i];
    [rand i] is the value of the call of [rand()] in iteration [i]. *)
Fixpoint noise_loop (RAND_MAX : Z) (rand : nat -> Z) (i count : nat)
  : list (option Z) :=
  match count with
  | O => []
  | S c => sample RAND_MAX (rand i) :: noise_loop RAND_MAX rand (S i) c
  end.

Definition sampleRate : Z := 48000.
Definition duration : Z := 180.
Definition numSamples : Z := sampleRate * duration.

(** The 44 bytes of [header]; the [uint32_t] fields are reduced modulo
    [2^32] by [put32]. *)
Definition header : list Z :=
  Wav.RIFF ++ Wav.put32 (36 + numSamples * 2) ++ Wav.WAVE ++ Wav.fmt_
  ++ Wav.put32 16 ++ Wav.put16 1 ++ Wav.put16 1 ++ Wav.put32 sampleRate
  ++ Wav.put32 (sampleRate * 2) ++ Wav.put16 2 ++ Wav.put16 16
  ++ Wav.data ++ Wav.put32 (numSamples * 2).

Inductive outcome : Type :=
| AllocError            (* "メモリ確保に失敗しました", exit 1 *)
| OpenError             (* "ファイルを開けませんでした", exit 1 *)
| Written (header : list Z) (buffer : list (option Z)).  (* exit 0 *)

(** [allocated]: whether [malloc] succeeded; [writable]: whether the output
    file can be opened.  [None] in the buffer marks a sample whose
    conversion is undefined in C. *)
Definition main (allocated writable : bool) (RAND_MAX : Z) (rand : nat -> Z)
  : outcome :=
  if negb allocated then AllocError
  else
    let buffer := noise_loop RAND_MAX rand 0 (Z.to_nat numSamples) in
    if negb writable then OpenError
    else Written header buffer.

End Code.
End WhiteNoise.

(** ** Vocabulary of the further properties *)

(** The values a sample, a header field and a byte of a file can take. *)
Definition int16_range (s : Z) : Prop := (-32768 <= s <= 32767)%Z.
Definition int32_range (v : Z) : Prop :=
  (-2147483648 <= v <= 2147483647)%Z.
Definition byte_range (b : Z) : Prop := (0 <= b <= 255)%Z.

(** The offsets of the file [read_wav] looks at: the four tags, the sample
    rate, the size of the data section and the data. *)
Definition header_byte_used (i : nat) : bool :=
  (i <? 4)%nat || ((8 <=? i)%nat && (i <? 16)%nat)
  || ((24 <=? i)%nat && (i <? 28)%nat) || (36 <=? i)%nat.

(** [f 0 + f 1 + ... + f (n - 1)], for complex and for real terms. *)
Fixpoint csum (f : nat -> complex R) (n : nat) : complex R :=
  match n with
  | O => c0
  | S n' => cadd (csum f n') (f n')
  end.

Fixpoint rsum (f : nat -> R) (n : nat) : R :=
  match n with
  | O => 0%R
  | S n' => (rsum f n' + f n')%R
  end.

(** Bin [k] of the discrete Fourier transform of [x] with the kernel
    [exp(i * two * pi * j * k / N)], [N] the length of [x]. *)
Definition dft (two : R) (x : list (complex R)) (k : nat) : complex R :=
  csum (fun j =>
          cmul (nth j x c0)
               (cis (two * PI * INR (j * k) / INR (length x))%R))
       (length x).

(** The two signs the programs use. *)
Definition direction (two : R) : Prop := (two = 2 \/ two = -2)%R.

(** [X[N - k] = conj X[k]], indices modulo the length [N]. *)
Definition hermitian (X : list (complex R)) : Prop :=
  forall k : nat, (k < length X)%nat ->
    nth ((length X - k) mod length X)%nat X c0 = conj (nth k X c0).

Definition real_signal (x : list (complex R)) : Prop :=
  forall j : nat, im (nth j x c0) = 0%R.

Section DecayWindow.
Context {F : Type} `{Arith F}.
Local Open Scope arith_scope.

(** The two tests of the scan of [calculate_decay_time] at index [j]. *)
Definition at_or_below (decay_curve : list F) (end_db : F) (j : nat) : bool :=
  nth j decay_curve #0 <=? end_db.
Definition in_window (decay_curve : list F) (start_db end_db : F) (j : nat)
  : bool :=
  (nth j decay_curve #0 <=? start_db) && (nth j decay_curve #0 >=? end_db).

End DecayWindow.

(** The squared distance between two coefficient vectors. *)
Definition distance2 (h w : list R) : R :=
  rsum (fun i => (nth i h 0 - nth i w 0) * (nth i h 0 - nth i w 0))%R
       (length h).

(** Sample [n] of the response of the filter [w] to the signal [x]. *)
Definition fir (w x : list R) (n : nat) : R :=
  rsum (fun i => nth i w 0 * (if (i <=? n)%nat then nth (n - i) x 0 else 0))%R
       (length w).

(** * Properties *)

(** ** Arrays *)

Lemma upd_length {A : Type} (i : nat) (v : A) (l : list A) :
  length (upd i v l) = length l.
Proof.
  revert i; induction l as [|h t IH]; intros [|i]; simpl; auto.
Qed.

Lemma nth_upd_same {A : Type} (i : nat) (v d : A) (l : list A) :
  (i < length l)%nat -> nth i (upd i v l) d = v.
Proof.
  revert i; induction l as [|h t IH]; intros [|i]; simpl; intros Hi;
    try lia; auto.
  apply IH; lia.
Qed.

Lemma nth_upd_other {A : Type} (i j : nat) (v d : A) (l : list A) :
  i <> j -> nth j (upd i v l) d = nth j l d.
Proof.
  revert i j; induction l as [|h t IH]; intros [|i] [|j]; simpl; intros Hij;
    try congruence; auto.
Qed.

Lemma upd_app_here {A : Type} (pre : list A) (old v : A) (post : list A) :
  upd (length pre) v (pre ++ old :: post) = pre ++ v :: post.
Proof.
  induction pre as [|h t IH]; simpl; congruence.
Qed.

Lemma nth_app_here {A : Type} (pre : list A) (x d : A) (post : list A) :
  nth (length pre) (pre ++ x :: post) d = x.
Proof.
  induction pre as [|h t IH]; simpl; auto.
Qed.

Lemma upd_app_at {A : Type} (i : nat) (pre : list A) (old v : A)
  (post : list A) :
  length pre = i -> upd i v (pre ++ old :: post) = pre ++ v :: post.
Proof. intros <-. apply upd_app_here. Qed.

Lemma nth_app_at {A : Type} (i : nat) (pre : list A) (x d : A)
  (post : list A) :
  length pre = i -> nth i (pre ++ x :: post) d = x.
Proof. intros <-. apply nth_app_here. Qed.

Lemma list_snoc_inv {A : Type} (k : nat) (l : list A) :
  length l = S k -> exists l' x, l = l' ++ [x] /\ length l' = k.
Proof.
  intros Hl. destruct (exists_last (l := l)) as (l' & x & ->).
  - intros ->; discriminate.
  - exists l', x. split; auto. rewrite length_app in Hl; simpl in Hl; lia.
Qed.

Lemma skipn_cons_nth {A : Type} (i : nat) (l : list A) (d : A) :
  (i < length l)%nat -> skipn i l = nth i l d :: skipn (S i) l.
Proof.
  revert i; induction l as [|h t IH]; intros [|i] Hi; simpl in *;
    try lia; auto.
  apply IH; lia.
Qed.

(** ** Schroeder integration *)

Section SchroederGeneric.
Context {F : Type} `{Arith F}.
Import IrAnalyze.
Local Open Scope arith_scope.

Lemma backward_energy_length (ir : list Z) :
  length (backward_energy ir) = length ir.
Proof. induction ir; simpl; auto. Qed.

Lemma backward_energy_skipn (ir : list Z) (i : nat) :
  (i < length ir)%nat ->
  backward_energy (skipn i ir) =
  (hd #0 (backward_energy (skipn (S i) ir))
   + #(nth i ir 0%Z) / #32768 * (#(nth i ir 0%Z) / #32768))
  :: backward_energy (skipn (S i) ir).
Proof.
  intros Hi. rewrite (skipn_cons_nth i ir 0%Z Hi). reflexivity.
Qed.

(** The first loop, run downward from [k], completes the suffix sums. *)
Lemma energy_loop_spec (ir : list Z) (k : nat) (pre : list F) :
  (k <= length ir)%nat -> length pre = k ->
  energy_loop ir k (hd #0 (backward_energy (skipn k ir)))
    (pre ++ backward_energy (skipn k ir))
  = backward_energy ir.
Proof.
  revert pre; induction k as [|i IH]; intros pre Hk Hpre.
  - destruct pre; try discriminate. reflexivity.
  - destruct (list_snoc_inv i pre Hpre) as (pre' & old & -> & Hpre').
    cbn [energy_loop]. rewrite <- app_assoc. cbn [app].
    rewrite (upd_app_at i pre') by exact Hpre'.
    rewrite <- (backward_energy_skipn ir i) by lia.
    specialize (IH pre' ltac:(lia) Hpre').
    rewrite (backward_energy_skipn ir i) in IH at 1 by lia.
    simpl hd in IH. exact IH.
Qed.

Lemma energy_loop_all (ir : list Z) (buf : list F) :
  length buf = length ir ->
  energy_loop ir (length ir) #0 buf = backward_energy ir.
Proof.
  intros Hb.
  pose proof (energy_loop_spec ir (length ir) buf (le_n _) Hb) as E.
  rewrite skipn_all in E. simpl in E. rewrite app_nil_r in E. exact E.
Qed.

(** The second loop rewrites the entries in place, one by one. *)
Lemma db_loop_spec (m : F) (done rest : list F) :
  db_loop m (length done) (length rest) (done ++ rest)
  = done ++ map (to_db m) rest.
Proof.
  revert done; induction rest as [|e rest IH]; intros done; simpl.
  - reflexivity.
  - rewrite nth_app_here, upd_app_here.
    replace (S (length done)) with (length (done ++ [to_db m e]))
      by (rewrite length_app; simpl; lia).
    fold (to_db m e).
    replace (done ++ to_db m e :: rest) with ((done ++ [to_db m e]) ++ rest)
      by (rewrite <- app_assoc; reflexivity).
    rewrite IH, <- app_assoc. reflexivity.
Qed.

Lemma schroeder_integral_spec (ir : list Z) (buf : list F) :
  length buf = length ir ->
  schroeder_integral ir (length ir) buf =
  let energy := backward_energy ir in
  let energy_max := nth 0 energy #0 in
  if energy_max >? #0 then map (to_db energy_max) energy else energy.
Proof.
  intros Hb. unfold schroeder_integral. rewrite energy_loop_all by exact Hb.
  cbv zeta. destruct (flt _ _); [|reflexivity].
  rewrite <- (backward_energy_length ir) at 1.
  exact (db_loop_spec _ [] (backward_energy ir)).
Qed.

End SchroederGeneric.

Section SchroederExact.
Import IrAnalyze.
Local Open Scope R_scope.

Lemma backward_energy_head_nonneg (ir : list Z) :
  0 <= hd 0 (backward_energy (F := R) ir).
Proof.
  induction ir as [|s rest IH]; simpl.
  - lra.
  - pose proof (Rle_0_sqr (IZR s / 32768)) as Hs. unfold Rsqr in Hs. lra.
Qed.

(** In exact arithmetic each entry dominates every later one. *)
Lemma backward_energy_nonincreasing (ir : list Z) (i j : nat) :
  (i <= j < length ir)%nat ->
  nth j (backward_energy (F := R) ir) 0 <= nth i (backward_energy ir) 0.
Proof.
  revert i j; induction ir as [|s rest IH]; intros i j [Hij Hj];
    simpl in Hj; try lia.
  destruct j as [|j].
  - replace i with 0%nat by lia. lra.
  - destruct i as [|i].
    + simpl nth at 2. simpl backward_energy.
      change (nth (S j) (?a :: ?t) 0) with (nth j t 0).
      apply Rle_trans with (nth 0 (backward_energy (F := R) rest) 0).
      * apply IH; lia.
      * pose proof (Rle_0_sqr (IZR s / 32768)) as Hs. unfold Rsqr in Hs.
        destruct (backward_energy (F := R) rest) eqn:E; simpl; lra.
    + simpl. apply IH; lia.
Qed.

End SchroederExact.

(** C8 (as amended).  [schroeder_integral] first fills the buffer with the
    backward cumulative sum of the squared normalised samples, whatever the
    buffer held before; index 0 of that sequence is the total energy.  When
    the total energy is positive every entry is then replaced by
    [10 * log10 (energy[i] / energy_max)], or by -100 when the entry is not
    positive; when the total energy is not positive the buffer is left as the
    energy sequence, without any conversion.  In exact arithmetic the energy
    sequence is non-increasing in the index. *)
Theorem C8_schroeder_curve :
  (forall (F : Type) (A : Arith F) (ir : list Z) (buf : list F),
      length buf = length ir ->
      let energy := IrAnalyze.backward_energy ir in
      let energy_max := nth 0 energy (of_int 0) in
      IrAnalyze.energy_loop ir (length ir) (of_int 0) buf = energy /\
      IrAnalyze.schroeder_integral ir (length ir) buf =
        (if flt (of_int 0) energy_max
         then map (IrAnalyze.to_db energy_max) energy
         else energy))
  /\
  (forall (ir : list Z) (i j : nat),
      (i <= j < length ir)%nat ->
      (nth j (IrAnalyze.backward_energy (F := R) ir) 0
       <= nth i (IrAnalyze.backward_energy (F := R) ir) 0)%R).
Proof.
  split.
  - intros F A ir buf Hb. split.
    + apply energy_loop_all; exact Hb.
    + apply schroeder_integral_spec; exact Hb.
  - intros ir i j Hij. apply backward_energy_nonincreasing; exact Hij.
Qed.

Lemma C8_schroeder_curve_witness :
  IrAnalyze.schroeder_integral (F := float) [16384; 0; -16384]%Z 3
    [1; 2; 3]%float
  = map (IrAnalyze.to_db 0.5%float) [0.5; 0.25; 0.25]%float
  /\
  (nth 2 (IrAnalyze.backward_energy (F := R) [16384; 0; -16384]%Z) 0
   <= nth 0 (IrAnalyze.backward_energy (F := R) [16384; 0; -16384]%Z) 0)%R.
Proof.
  split.
  - exact (proj2 (proj1 C8_schroeder_curve float binary64
                    [16384; 0; -16384]%Z [1; 2; 3]%float eq_refl)).
  - apply (proj2 C8_schroeder_curve [16384; 0; -16384]%Z 0%nat 2%nat).
    simpl; lia.
Defined.

(** C8, as stated, fails on a silent impulse response: every energy is
    exactly zero, and the entries are left at 0 instead of the floor -100. *)
Lemma C8_silent_ir_counterexample :
  IrAnalyze.backward_energy (F := float) [0; 0]%Z = [0; 0]%float /\
  IrAnalyze.schroeder_integral (F := float) [0; 0]%Z 2 [0; 0]%float
  = [0; 0]%float /\
  IrAnalyze.schroeder_integral (F := float) [0; 0]%Z 2 [0; 0]%float
  <> [-100; -100]%float.
Proof.
  repeat split; try (vm_compute; reflexivity).
  vm_compute. discriminate.
Qed.

(** ** Decay time *)

Section DecayTime.
Context {F : Type} `{Arith F}.
Import IrAnalyze.
Local Open Scope arith_scope.

(** Whenever none of the three rejections fires, the value returned is
    [-60 / slope]: the window [start_db], [end_db] only selects the points of
    the regression. *)
Lemma calculate_decay_time_success (decay_curve : list F) (len : nat) (fs : Z)
  (start_db end_db : F) (start_idx end_idx : Z) (denominator slope : F) :
  scan decay_curve start_db end_db 0 len (-1) = (start_idx, end_idx) ->
  (0 <= start_idx < end_idx)%Z ->
  regression decay_curve fs start_idx end_idx = (denominator, slope) ->
  (fabs denominator <? lit_1em10) = false ->
  (slope >=? #0) = false ->
  calculate_decay_time decay_curve len fs start_db end_db
  = (#(-60) / slope, start_idx, end_idx).
Proof.
  intros Hs Hi Hr Hd Hsl. unfold calculate_decay_time. rewrite Hs.
  replace ((start_idx <? 0)%Z || (end_idx <? 0)%Z || (end_idx <=? start_idx)%Z)
    with false.
  - rewrite Hr, Hd, Hsl. reflexivity.
  - symmetry. rewrite !orb_false_iff. repeat split.
    + apply Z.ltb_ge; lia.
    + apply Z.ltb_ge; lia.
    + apply Z.leb_gt; lia.
Qed.

Lemma calculate_decay_time_failure (decay_curve : list F) (len : nat) (fs : Z)
  (start_db end_db : F) (start_idx end_idx : Z) (denominator slope : F) :
  scan decay_curve start_db end_db 0 len (-1) = (start_idx, end_idx) ->
  regression decay_curve fs start_idx end_idx = (denominator, slope) ->
  (start_idx < 0)%Z \/ (end_idx < 0)%Z \/ (end_idx <= start_idx)%Z \/
  (fabs denominator <? lit_1em10) = true \/ (slope >=? #0) = true ->
  calculate_decay_time decay_curve len fs start_db end_db
  = (#(-1), start_idx, end_idx).
Proof.
  intros Hs Hr Hc. unfold calculate_decay_time. rewrite Hs.
  destruct ((start_idx <? 0)%Z || (end_idx <? 0)%Z || (end_idx <=? start_idx)%Z)
    eqn:Hg; [reflexivity|].
  rewrite Hr.
  rewrite !orb_false_iff in Hg. destruct Hg as [[G1 G2] G3].
  apply Z.ltb_ge in G1, G2. apply Z.leb_gt in G3.
  destruct Hc as [Hc | [Hc | [Hc | [Hc | Hc]]]]; try lia.
  - rewrite Hc. reflexivity.
  - rewrite Hc. destruct (fabs denominator <? lit_1em10); reflexivity.
Qed.

End DecayTime.

(** C1.  On the dB curve 0, -5, -10, -15 sampled at 1 Hz the fitted slope is
    -5 dB/s, so the curve takes (-5 - -15) / 5 = 2 s to cross the window
    -5 -> -15 dB; [calculate_decay_time] returns 12 = 60 / 5 instead, and
    [main] multiplies that by 6 once more.  On the impulse response that
    halves at every sample (a curve of slope -6.02 dB per sample) the T10
    and T20 reported by [analyze] are both 60 / 6.02 samples. *)
Theorem C1_decay_time_is_sixty_over_slope :
  let curve := [0; -5; -10; -15]%float in
  IrAnalyze.regression (F := float) curve 1 1 3 = (6, -5)%float /\
  IrAnalyze.calculate_decay_time (F := float) curve 4 1 (-5)%float (-15)%float
  = (12%float, 1%Z, 3%Z) /\
  ((-5 - -15) / abs (-5) = 2)%float /\
  let r := IrAnalyze.analyze (F := float)
             [16384; 8192; 4096; 2048; 1024; 512; 256; 128; 64; 32; 16; 8;
              4; 2; 1]%Z 1 15 in
  (IrAnalyze.t10_start r, IrAnalyze.t10_end r) = (1%Z, 3%Z) /\
  (IrAnalyze.t20_start r, IrAnalyze.t20_end r) = (1%Z, 5%Z) /\
  (9.9 <? IrAnalyze.t10 r)%float = true /\
  (9.9 <? IrAnalyze.t20 r)%float = true /\
  (59 <? IrAnalyze.rt60_t10 r)%float = true /\
  (IrAnalyze.rt60_t20 r <? 30)%float = true.
Proof.
  vm_compute. repeat split; reflexivity.
Qed.

(** C3 (as amended).  [calculate_decay_time] returns -1.0 whenever the scan
    leaves the interval missing (start not found, end not found, end not
    after start), the regression denominator is below 1e-10 in magnitude, or
    the fitted slope is not negative. *)
Theorem C3_decay_time_sentinel :
  forall (F : Type) (A : Arith F) (decay_curve : list F) (len : nat)
    (fs : Z) (start_db end_db : F) (start_idx end_idx : Z)
    (denominator slope : F),
    IrAnalyze.scan decay_curve start_db end_db 0 len (-1)
    = (start_idx, end_idx) ->
    IrAnalyze.regression decay_curve fs start_idx end_idx
    = (denominator, slope) ->
    (start_idx < 0)%Z \/ (end_idx < 0)%Z \/ (end_idx <= start_idx)%Z \/
    flt (fabs denominator) lit_1em10 = true \/
    fle (of_int 0) slope = true ->
    IrAnalyze.calculate_decay_time decay_curve len fs start_db end_db
    = (of_int (-1), start_idx, end_idx).
Proof.
  intros F A. exact calculate_decay_time_failure.
Qed.

(** A curve that rises inside the window: the interval is found, the fitted
    slope is positive. *)
Lemma C3_decay_time_sentinel_witness :
  IrAnalyze.calculate_decay_time (F := float)
    [-14; -14; -14; -5; -5; -15]%float 6 1
    (-5)%float (-15)%float
  = ((-1)%float, 0%Z, 5%Z).
Proof.
  apply (C3_decay_time_sentinel float binary64
           [-14; -14; -14; -5; -5; -15]%float 6 1
           (-5)%float (-15)%float 0 5
           (fst (IrAnalyze.regression (F := float)
                   [-14; -14; -14; -5; -5; -15]%float 1 0 5))
           (snd (IrAnalyze.regression (F := float)
                   [-14; -14; -14; -5; -5; -15]%float 1 0 5))).
  - vm_compute; reflexivity.
  - vm_compute; reflexivity.
  - right; right; right; right. vm_compute; reflexivity.
Defined.

(** C3, as stated, fails on a constant-magnitude impulse response: 32
    samples of half scale have the Schroeder curve [10 log10 ((32 - i)/32)],
    which is below -5 dB from index 22 and below -15 dB at index 31; the
    regression over 22..31 has a negative slope and the function returns a
    positive time. *)
Lemma C3_constant_ir_counterexample :
  let ir := repeat 16384%Z 32 in
  let curve :=
    IrAnalyze.schroeder_integral (F := float) ir 32 (repeat 0%float 32) in
  let '(t, start_idx, end_idx) :=
    IrAnalyze.calculate_decay_time curve 32 48000 (-5)%float (-15)%float in
  (start_idx, end_idx) = (22%Z, 31%Z) /\
  (0 <? t)%float = true /\
  t <> (-1)%float.
Proof.
  vm_compute. repeat split; try reflexivity. discriminate.
Qed.

(** ** The deconvolution program *)

Section Deconvolution.
Context {F : Type} `{Arith F}.
Import TspToIr.
Local Open Scope arith_scope.

(** The normalised sample the copy loops store. *)
Definition normalized (samples : list Z) (j : nat) : complex F :=
  Cplx (#(nth j samples 0%Z) / #32768) #0.

Lemma load_loop_length (samples : list Z) (start i count : nat)
  (buf : list (complex F)) :
  length (load_loop samples start i count buf) = length buf.
Proof.
  revert i buf; induction count as [|c IH]; intros i buf; simpl.
  - reflexivity.
  - rewrite IH. apply upd_length.
Qed.

Lemma load_loop_nth (samples : list Z) (start count i : nat)
  (buf : list (complex F)) (k : nat) :
  (i + count <= length buf)%nat ->
  nth k (load_loop samples start i count buf) c0 =
  if (i <=? k)%nat && (k <? i + count)%nat
  then normalized samples (start + k)
  else nth k buf c0.
Proof.
  revert i buf; induction count as [|c IH]; intros i buf Hlen; simpl.
  - destruct (Nat.leb_spec i k), (Nat.ltb_spec k (i + 0)); simpl;
      try reflexivity; lia.
  - rewrite IH by (rewrite upd_length; lia).
    destruct (Nat.leb_spec (S i) k), (Nat.ltb_spec k (S i + c)),
             (Nat.leb_spec i k), (Nat.ltb_spec k (i + S c)); simpl;
      try lia; try reflexivity.
    + apply nth_upd_other; lia.
    + replace k with i by lia. rewrite nth_upd_same by lia. reflexivity.
    + apply nth_upd_other; lia.
Qed.

Lemma nth_repeat_c0 (N k : nat) : nth k (repeat (c0 (F := F)) N) c0 = c0.
Proof.
  revert k; induction N as [|N IH]; intros [|k]; simpl; auto.
Qed.

Lemma copy_len_bound (tsp_len response_len N : nat) :
  (copy_len tsp_len response_len N <= N)%nat.
Proof.
  unfold copy_len.
  destruct (Nat.ltb_spec (response_len - start_idx tsp_len response_len) N);
    lia.
Qed.

Lemma response_buffer_nth (tsp_len : nat) (response_samples : list Z)
  (N k : nat) :
  nth k (response_buffer tsp_len response_samples N) c0 =
  if (k <? copy_len tsp_len (length response_samples) N)%nat
  then normalized response_samples
         (start_idx tsp_len (length response_samples) + k)
  else c0.
Proof.
  unfold response_buffer. rewrite load_loop_nth.
  - simpl. rewrite nth_repeat_c0. reflexivity.
  - rewrite repeat_length. simpl. apply copy_len_bound.
Qed.

Lemma ir_freq_loop_nth (TSP RESPONSE INV_FILTER : list (complex F))
  (count k0 k : nat) :
  (k < count)%nat ->
  nth k (ir_freq_loop TSP RESPONSE INV_FILTER k0 count) c0 =
  if cabs (nth (k0 + k) TSP c0) >? lit_1em10
  then cmul (nth (k0 + k) RESPONSE c0) (nth (k0 + k) INV_FILTER c0)
  else c0.
Proof.
  revert k0 k; induction count as [|c IH]; intros k0 k Hk; [lia|].
  destruct k as [|k]; simpl.
  - rewrite Nat.add_0_r. reflexivity.
  - rewrite IH by lia. replace (S k0 + k)%nat with (k0 + S k)%nat by lia.
    reflexivity.
Qed.

(** The size loop stops on a power of two that covers both inputs. *)
Lemma fft_size_loop_spec (max_len fuel k : nat) :
  (max_len < fuel + 2 ^ k)%nat ->
  exists m : nat,
    fft_size_loop fuel (2 ^ k) max_len = (2 ^ m)%nat /\
    (max_len <= 2 ^ m)%nat.
Proof.
  revert k; induction fuel as [|fuel IH]; intros k Hf; cbn [fft_size_loop].
  - exists k. split; [reflexivity|lia].
  - destruct (Nat.ltb_spec (2 ^ k) max_len) as [Hlt|Hge].
    + change (2 * 2 ^ k)%nat with (2 ^ S k)%nat. apply IH.
      change (2 ^ S k)%nat with (2 * 2 ^ k)%nat.
      assert (0 < 2 ^ k)%nat
        by (apply Nat.neq_0_lt_0, Nat.pow_nonzero; discriminate).
      lia.
    + exists k. split; [reflexivity|exact Hge].
Qed.

Lemma fft_size_spec (tsp_len response_len : nat) :
  exists m : nat,
    fft_size tsp_len response_len = (2 ^ m)%nat /\
    (tsp_len <= 2 ^ m)%nat /\ (response_len <= 2 ^ m)%nat.
Proof.
  unfold fft_size.
  set (max_len := if (response_len <? tsp_len)%nat then tsp_len
                  else response_len).
  destruct (fft_size_loop_spec max_len max_len 0) as (m & E & Hm).
  - simpl. lia.
  - exists m. split; [exact E|].
    unfold max_len in Hm.
    destruct (Nat.ltb_spec response_len tsp_len); lia.
Qed.


End Deconvolution.

(** C5 (as amended).  When the response is at least twice as long as the
    excitation the copy starts at offset [tsp_len], so the first period is
    discarded, and it runs to the end of the response or for [N] samples,
    whichever comes first: everything after the first period is used, not
    the second period alone.  Otherwise the copy starts at offset 0.  The
    rest of the buffer stays zero. *)
Theorem C5_second_period_offset :
  forall (F : Type) (A : Arith F) (tsp_len : nat) (response_samples : list Z)
    (N k : nat),
    let response_len := length response_samples in
    let buf := TspToIr.response_buffer tsp_len response_samples N in
    (tsp_len * 2 <= response_len ->
     nth k buf c0 =
     if (k <? Nat.min (response_len - tsp_len) N)%nat
     then normalized response_samples (tsp_len + k)
     else c0)
    /\
    (response_len < tsp_len * 2 ->
     nth k buf c0 =
     if (k <? Nat.min response_len N)%nat
     then normalized response_samples k
     else c0).
Proof.
  intros F A tsp_len response_samples N k response_len buf.
  subst buf. rewrite response_buffer_nth. fold response_len.
  unfold TspToIr.copy_len, TspToIr.start_idx.
  split; intros Hlen.
  - destruct (Nat.leb_spec (tsp_len * 2) response_len); try lia.
    destruct (Nat.ltb_spec (response_len - tsp_len) N).
    + rewrite Nat.min_l by lia. reflexivity.
    + rewrite Nat.min_r by lia. reflexivity.
  - destruct (Nat.leb_spec (tsp_len * 2) response_len); try lia.
    rewrite Nat.sub_0_r.
    destruct (Nat.ltb_spec response_len N).
    + rewrite Nat.min_l by lia. reflexivity.
    + rewrite Nat.min_r by lia. reflexivity.
Qed.

Lemma C5_second_period_offset_witness :
  (nth 1 (TspToIr.response_buffer (F := float) 2 [10; 20; 30; 40; 50]%Z 8) c0
   = normalized [10; 20; 30; 40; 50]%Z 3)
  /\
  (nth 1 (TspToIr.response_buffer (F := float) 3 [10; 20; 30; 40; 50]%Z 8) c0
   = normalized [10; 20; 30; 40; 50]%Z 1).
Proof.
  split.
  - exact (proj1 (C5_second_period_offset float binary64 2
                    [10; 20; 30; 40; 50]%Z 8 1) ltac:(simpl; lia)).
  - exact (proj2 (C5_second_period_offset float binary64 3
                    [10; 20; 30; 40; 50]%Z 8 1) ltac:(simpl; lia)).
Defined.

(** C5, as stated, fails on a response longer than two periods.  With an
    excitation of 2 samples and a response of 7 the transform has 8 points;
    the second period is the samples 30 and 40, yet the buffer also receives
    50, 60 and 70 at the positions 2, 3 and 4, which "the second period only"
    would leave at zero. *)
Lemma C5_second_period_only_counterexample :
  let response_samples := [10; 20; 30; 40; 50; 60; 70]%Z in
  let N := TspToIr.fft_size 2 (length response_samples) in
  let buf := TspToIr.response_buffer (F := float) 2 response_samples N in
  N = 8%nat /\
  TspToIr.copy_len 2 (length response_samples) N = 5%nat /\
  map re buf
  = [30 / 32768; 40 / 32768; 50 / 32768; 60 / 32768; 70 / 32768; 0; 0;
     0]%float /\
  nth 2 buf c0 <> c0.
Proof.
  cbv zeta. repeat split; try (vm_compute; reflexivity).
  vm_compute. discriminate.
Qed.

(** C6.  Bin [k] of the spectrum handed to the inverse transform is the
    response spectrum times the synthesised inverse-filter spectrum when the
    magnitude of the transformed excitation at [k] exceeds 1e-10, and zero
    otherwise: the test reads the excitation spectrum, the product uses the
    inverse filter. *)
Theorem C6_per_bin_inverse_filter :
  forall (F : Type) (A : Arith F) (tsp_samples response_samples : list Z)
    (k : nat),
    let tsp_len := length tsp_samples in
    let N := TspToIr.fft_size tsp_len (length response_samples) in
    let TSP := TspToIr.simple_fft (TspToIr.tsp_buffer tsp_samples N) N in
    let RESPONSE :=
      TspToIr.simple_fft
        (TspToIr.response_buffer tsp_len response_samples N) N in
    let INV_FILTER := TspToIr.inv_filter N (tsp_len / 2) in
    (k < N)%nat ->
    nth k (TspToIr.ir_spectrum tsp_samples response_samples) c0 =
    if flt lit_1em10 (cabs (nth k TSP c0))
    then cmul (nth k RESPONSE c0) (nth k INV_FILTER c0)
    else c0.
Proof.
  intros F A tsp_samples response_samples k tsp_len N TSP RESPONSE INV_FILTER
    Hk.
  unfold TspToIr.ir_spectrum, TspToIr.ir_freq.
  fold tsp_len. fold N. fold TSP. fold RESPONSE. fold INV_FILTER.
  rewrite ir_freq_loop_nth by exact Hk. reflexivity.
Qed.

Lemma C6_per_bin_inverse_filter_witness :
  nth 0 (TspToIr.ir_spectrum (F := float) [0; 0]%Z [100; 200]%Z) c0 = c0
  /\
  nth 1 (TspToIr.ir_spectrum (F := float) [100; 200]%Z [100; 200]%Z) c0
  = cmul (nth 1 (TspToIr.simple_fft
                   (TspToIr.response_buffer 2 [100; 200]%Z 2) 2) c0)
         (nth 1 (TspToIr.inv_filter 2 1) c0).
Proof.
  split.
  - rewrite (C6_per_bin_inverse_filter float binary64 [0; 0]%Z [100; 200]%Z 0)
      by (vm_compute; lia).
    vm_compute. reflexivity.
  - rewrite (C6_per_bin_inverse_filter float binary64 [100; 200]%Z
               [100; 200]%Z 1) by (vm_compute; lia).
    vm_compute. reflexivity.
Defined.




(** ** The NLMS estimator *)

Section Nlms.
Context {F : Type} `{Arith F}.
Import AdaptiveFilter.
Local Open Scope arith_scope.

Lemma shift_loop_length (x_buf : list F) (i : nat) :
  length (shift_loop x_buf i) = length x_buf.
Proof.
  revert x_buf; induction i as [|i IH]; intros x_buf; cbn [shift_loop].
  - reflexivity.
  - rewrite IH. apply upd_length.
Qed.

(** After the shift every cell from 1 to [i] holds what its left neighbour
    held before. *)
Lemma shift_loop_nth (x_buf : list F) (i k : nat) :
  (i < length x_buf)%nat ->
  nth k (shift_loop x_buf i) #0 =
  if (k =? 0)%nat then nth 0 x_buf #0
  else if (k <=? i)%nat then nth (k - 1) x_buf #0
  else nth k x_buf #0.
Proof.
  revert x_buf; induction i as [|i IH]; intros x_buf Hi; cbn [shift_loop].
  - destruct k; simpl; reflexivity.
  - rewrite IH by (rewrite upd_length; lia).
    destruct k as [|k'].
    + cbn [Nat.eqb]. apply nth_upd_other; lia.
    + cbn [Nat.eqb].
      destruct (Nat.leb_spec (S k') i), (Nat.leb_spec (S k') (S i)); try lia.
      * apply nth_upd_other; lia.
      * replace k' with i by lia. rewrite nth_upd_same by lia.
        replace (S i - 1)%nat with i by lia. reflexivity.
      * apply nth_upd_other; lia.
Qed.

Lemma nth_removelast (l : list F) (k : nat) :
  (k < length l - 1)%nat -> nth k (removelast l) #0 = nth k l #0.
Proof.
  revert k; induction l as [|a l IH]; intros k Hk; simpl in Hk; [lia|].
  destruct l as [|b l]; [simpl in Hk; lia|].
  change (removelast (a :: b :: l)) with (a :: removelast (b :: l)).
  destruct k as [|k]; [reflexivity|].
  simpl nth. apply IH. simpl; simpl in Hk; lia.
Qed.

Lemma removelast_length (l : list F) :
  length (removelast l) = (length l - 1)%nat.
Proof.
  rewrite removelast_firstn_len, length_firstn. lia.
Qed.

Lemma shift_in (x_buf : list F) (x_n : F) :
  (0 < length x_buf)%nat ->
  upd 0 x_n (shift_loop x_buf (length x_buf - 1)) = delay_line x_buf x_n.
Proof.
  intros HL. unfold delay_line.
  apply (nth_ext _ _ #0 #0).
  - rewrite upd_length, shift_loop_length. simpl.
    rewrite removelast_length. lia.
  - intros k Hk. rewrite upd_length, shift_loop_length in Hk.
    destruct k as [|k].
    + rewrite nth_upd_same by (rewrite shift_loop_length; lia). reflexivity.
    + rewrite nth_upd_other by lia. rewrite shift_loop_nth by lia.
      simpl Nat.eqb. cbv iota.
      destruct (Nat.leb_spec (S k) (length x_buf - 1)); try lia.
      simpl nth at 2. rewrite nth_removelast by lia.
      replace (S k - 1)%nat with k by lia. reflexivity.
Qed.

Lemma y_hat_loop_spec (h x_buf : list F) (count i : nat) (acc : F) :
  (i + count <= length h)%nat -> (i + count <= length x_buf)%nat ->
  y_hat_loop h x_buf i count acc =
  fold_left (fun a p => a + fst p * snd p)
    (combine (firstn count (skipn i h)) (firstn count (skipn i x_buf))) acc.
Proof.
  revert i acc; induction count as [|c IH]; intros i acc Hh Hx.
  - reflexivity.
  - cbn [y_hat_loop]. rewrite IH by lia.
    rewrite (skipn_cons_nth i h #0) by lia.
    rewrite (skipn_cons_nth i x_buf #0) by lia.
    reflexivity.
Qed.

Lemma x_power_loop_spec (x_buf : list F) (count i : nat) (acc : F) :
  (i + count <= length x_buf)%nat ->
  x_power_loop x_buf i count acc =
  fold_left (fun a x_i => a + x_i * x_i) (firstn count (skipn i x_buf)) acc.
Proof.
  revert i acc; induction count as [|c IH]; intros i acc Hx.
  - reflexivity.
  - cbn [x_power_loop]. rewrite IH by lia.
    rewrite (skipn_cons_nth i x_buf #0) by lia.
    reflexivity.
Qed.

Lemma update_loop_length (h x_buf : list F) (step e : F) (i count : nat) :
  length (update_loop h x_buf step e i count) = length h.
Proof.
  revert i h; induction count as [|c IH]; intros i h; simpl.
  - reflexivity.
  - rewrite IH. apply upd_length.
Qed.

Lemma update_loop_nth (h x_buf : list F) (step e : F) (count i k : nat) :
  (i + count <= length h)%nat ->
  nth k (update_loop h x_buf step e i count) #0 =
  if (i <=? k)%nat && (k <? i + count)%nat
  then nth k h #0 + step * e * nth k x_buf #0
  else nth k h #0.
Proof.
  revert i h; induction count as [|c IH]; intros i h Hlen; simpl.
  - destruct (Nat.leb_spec i k), (Nat.ltb_spec k (i + 0)); simpl;
      try reflexivity; lia.
  - rewrite IH by (rewrite upd_length; lia).
    destruct (Nat.leb_spec (S i) k), (Nat.ltb_spec k (S i + c)),
             (Nat.leb_spec i k), (Nat.ltb_spec k (i + S c)); simpl;
      try lia.
    + rewrite nth_upd_other by lia. reflexivity.
    + apply nth_upd_other; lia.
    + replace k with i by lia. rewrite nth_upd_same by lia. reflexivity.
    + apply nth_upd_other; lia.
Qed.

Lemma update_loop_spec (h x_buf : list F) (step e : F) :
  length x_buf = length h ->
  update_loop h x_buf step e 0 (length h) =
  map (fun p => fst p + step * e * snd p) (combine h x_buf).
Proof.
  intros HL. apply (nth_ext _ _ #0 (#0 + step * e * #0)).
  - rewrite update_loop_length, length_map, length_combine. lia.
  - intros k Hk. rewrite update_loop_length in Hk.
    rewrite update_loop_nth by lia.
    destruct (Nat.leb_spec 0 k), (Nat.ltb_spec k (0 + length h)); try lia.
    simpl andb. cbv iota.
    change (#0 + step * e * #0)
      with ((fun p => fst p + step * e * snd p) (#0, #0)).
    rewrite map_nth, combine_nth by lia. reflexivity.
Qed.

Lemma clear_loop_length (h : list F) (i count : nat) :
  length (clear_loop h i count) = length h.
Proof.
  revert i h; induction count as [|c IH]; intros i h; simpl.
  - reflexivity.
  - rewrite IH. apply upd_length.
Qed.

Lemma clear_loop_nth (h : list F) (count i k : nat) :
  (i + count <= length h)%nat ->
  nth k (clear_loop h i count) #0 =
  if (i <=? k)%nat && (k <? i + count)%nat then #0 else nth k h #0.
Proof.
  revert i h; induction count as [|c IH]; intros i h Hlen; simpl.
  - destruct (Nat.leb_spec i k), (Nat.ltb_spec k (i + 0)); simpl;
      try reflexivity; lia.
  - rewrite IH by (rewrite upd_length; lia).
    destruct (Nat.leb_spec (S i) k), (Nat.ltb_spec k (S i + c)),
             (Nat.leb_spec i k), (Nat.ltb_spec k (i + S c)); simpl;
      try lia; try reflexivity.
    + apply nth_upd_other; lia.
    + replace k with i by lia. rewrite nth_upd_same by lia. reflexivity.
    + apply nth_upd_other; lia.
Qed.

Lemma clear_loop_spec (h : list F) :
  clear_loop h 0 (length h) = repeat #0 (length h).
Proof.
  apply (nth_ext _ _ #0 #0).
  - rewrite clear_loop_length, repeat_length. reflexivity.
  - intros k Hk. rewrite clear_loop_length in Hk.
    rewrite clear_loop_nth by lia.
    destruct (Nat.leb_spec 0 k), (Nat.ltb_spec k (0 + length h)); try lia.
    simpl. symmetry. apply nth_repeat.
Qed.

(** One pass of the sample loop is one step of the specification. *)
Lemma nlms_sample_spec (x y : list F) (mu beta : F) (n : nat)
  (h x_buf : list F) :
  (0 < length h)%nat -> length x_buf = length h ->
  nlms_sample x y (length h) mu beta n (h, x_buf) =
  (spec_update mu beta h (delay_line x_buf (nth n x #0)) (nth n y #0),
   delay_line x_buf (nth n x #0)).
Proof.
  intros HL Hx. unfold nlms_sample.
  replace (shift_loop x_buf (length h - 1))
    with (shift_loop x_buf (length x_buf - 1)) by (rewrite Hx; reflexivity).
  rewrite shift_in by lia.
  set (xb := delay_line x_buf (nth n x #0)).
  assert (Hxb : length xb = length h).
  { unfold xb, delay_line. simpl. rewrite removelast_length. lia. }
  rewrite y_hat_loop_spec by lia.
  rewrite x_power_loop_spec by lia.
  cbn [skipn]. rewrite firstn_all.
  replace (firstn (length h) xb) with xb
    by (rewrite <- Hxb; symmetry; apply firstn_all).
  unfold spec_update, predict, input_power.
  destruct (flt lit_1em10 _); [|reflexivity].
  rewrite update_loop_spec by exact Hxb. reflexivity.
Qed.

Lemma spec_update_length (mu beta : F) (h x_buf : list F) (y_n : F) :
  length x_buf = length h ->
  length (spec_update mu beta h x_buf y_n) = length h.
Proof.
  intros Hx. unfold spec_update. destruct (flt _ _); [|reflexivity].
  rewrite length_map, length_combine. lia.
Qed.

Lemma spec_state_length (x y : list F) (filter_len : nat) (mu beta : F)
  (k : nat) :
  (0 < filter_len)%nat ->
  length (fst (spec_state x y filter_len mu beta k)) = filter_len /\
  length (snd (spec_state x y filter_len mu beta k)) = filter_len.
Proof.
  intros HL. induction k as [|k [IH1 IH2]]; simpl.
  - rewrite repeat_length. auto.
  - destruct (spec_state x y filter_len mu beta k) as [h x_buf].
    simpl in *.
    assert (Hd : length (delay_line x_buf (nth k x #0)) = filter_len).
    { unfold delay_line. simpl. rewrite removelast_length. lia. }
    split; [|exact Hd].
    rewrite spec_update_length; lia.
Qed.

Lemma sample_loop_snoc (x y : list F) (filter_len : nat) (mu beta : F)
  (count n : nat) (st : list F * list F) :
  sample_loop x y filter_len mu beta n (S count) st =
  nlms_sample x y filter_len mu beta (n + count)
    (sample_loop x y filter_len mu beta n count st).
Proof.
  revert n st; induction count as [|c IH]; intros n st.
  - simpl. rewrite Nat.add_0_r. reflexivity.
  - change (sample_loop x y filter_len mu beta n (S (S c)) st)
      with (sample_loop x y filter_len mu beta (S n) (S c)
              (nlms_sample x y filter_len mu beta n st)).
    rewrite IH. replace (S n + c)%nat with (n + S c)%nat by lia.
    reflexivity.
Qed.

Lemma nlms_state_spec (x y : list F) (filter_len : nat) (h : list F)
  (mu beta : F) (k : nat) :
  (0 < filter_len)%nat -> length h = filter_len ->
  nlms_state x y filter_len h mu beta k = spec_state x y filter_len mu beta k.
Proof.
  intros HL Hh. induction k as [|k IH].
  - unfold nlms_state. simpl. rewrite <- Hh. rewrite clear_loop_spec.
    reflexivity.
  - unfold nlms_state in *. rewrite sample_loop_snoc, IH. simpl Nat.add.
    destruct (spec_state_length x y filter_len mu beta k HL) as [L1 L2].
    simpl spec_state.
    destruct (spec_state x y filter_len mu beta k) as [hk x_buf].
    simpl in L1, L2. rewrite <- L1.
    apply nlms_sample_spec; lia.
Qed.

End Nlms.

(** C9.  For a positive filter length, the filter starts from an all-zero
    coefficient vector and delay line whatever [h] held, and after each
    sample [n] its state is the one the specification describes: the input
    is shifted into the delay line, then with [y_hat = sum h[i] x_buf[i]],
    [e = y[n] - y_hat] and [P = beta + sum x_buf[i]^2] every coefficient
    becomes [h[i] + (mu / P) * e * x_buf[i]] if [P > 1e-10], and [h] is
    unchanged otherwise. *)
Theorem C9_nlms_update_rule :
  forall (F : Type) (A : Arith F) (x y : list F) (filter_len : nat)
    (h : list F) (mu beta : F),
    (0 < filter_len)%nat -> length h = filter_len ->
    AdaptiveFilter.nlms_state x y filter_len h mu beta 0
    = (repeat (of_int 0) filter_len, repeat (of_int 0) filter_len)
    /\
    (forall n : nat,
        let '(h_n, x_buf_n) :=
          AdaptiveFilter.nlms_state x y filter_len h mu beta n in
        let x_buf := AdaptiveFilter.delay_line x_buf_n (nth n x (of_int 0)) in
        let y_hat := AdaptiveFilter.predict h_n x_buf in
        let e := fsub (nth n y (of_int 0)) y_hat in
        let P := AdaptiveFilter.input_power beta x_buf in
        AdaptiveFilter.nlms_state x y filter_len h mu beta (S n) =
        (if flt lit_1em10 P
         then map (fun p => fadd (fst p) (fmul (fmul (fdiv mu P) e) (snd p)))
                (combine h_n x_buf)
         else h_n,
         x_buf))
    /\
    (forall x_len : nat,
        AdaptiveFilter.nlms_adaptive_filter x y x_len filter_len h mu beta
        = fst (AdaptiveFilter.nlms_state x y filter_len h mu beta x_len)).
Proof.
  intros F A x y filter_len h mu beta HL Hh. repeat split.
  - rewrite nlms_state_spec by assumption. reflexivity.
  - intros n. rewrite !nlms_state_spec by assumption.
    simpl AdaptiveFilter.spec_state.
    destruct (AdaptiveFilter.spec_state x y filter_len mu beta n)
      as [h_n x_buf_n].
    unfold AdaptiveFilter.spec_update.
    destruct (flt lit_1em10 _); reflexivity.
Qed.

Lemma C9_nlms_update_rule_witness :
  AdaptiveFilter.nlms_state (F := float) [0.5; -0.25]%float [0.25; 0.5]%float
    2 [7; 7]%float 0.5%float 1e-6%float 0
  = ([0; 0]%float, [0; 0]%float).
Proof.
  exact (proj1 (C9_nlms_update_rule float binary64 [0.5; -0.25]%float
                  [0.25; 0.5]%float 2 [7; 7]%float 0.5%float 1e-6%float
                  ltac:(lia) eq_refl)).
Defined.

(** ** Normalise and quantise *)

Section QuantiseGeneric.
Context {F : Type} `{Arith F}.
Local Open Scope arith_scope.

Lemma quantize_loop_nth (v : list F) (max_amp : F) (n i k : nat) :
  (k < n)%nat ->
  nth k (quantize_loop v max_amp i n) None
  = quantize_sample max_amp (nth (i + k) v #0).
Proof.
  revert i k; induction n as [|n IH]; intros i k Hk; [lia|].
  destruct k as [|k]; simpl.
  - rewrite Nat.add_0_r. reflexivity.
  - rewrite IH by lia. replace (S i + k)%nat with (i + S k)%nat by lia.
    reflexivity.
Qed.

End QuantiseGeneric.

Section QuantiseExact.
Local Open Scope R_scope.

Lemma max_amp_loop_ge_start (v : list R) (n i : nat) (acc : R) :
  acc <= max_amp_loop v i n acc.
Proof.
  revert i acc; induction n as [|n IH]; intros i acc; simpl.
  - lra.
  - unfold Exact.ltb. destruct (Rlt_dec acc (Rabs (nth i v 0))) as [Hlt|Hge].
    + eapply Rle_trans; [|apply IH]. lra.
    + apply IH.
Qed.

(** The peak dominates the magnitude of every sample scanned. *)
Lemma max_amp_loop_bound (v : list R) (n i k : nat) (acc : R) :
  (i <= k < i + n)%nat ->
  Rabs (nth k v 0) <= max_amp_loop v i n acc.
Proof.
  revert i acc; induction n as [|n IH]; intros i acc Hk; simpl; [lia|].
  unfold Exact.ltb.
  destruct (Nat.eq_dec k i) as [->|Hne].
  - destruct (Rlt_dec acc (Rabs (nth i v 0))) as [Hlt|Hge].
    + apply max_amp_loop_ge_start.
    + eapply Rle_trans; [|apply max_amp_loop_ge_start]. lra.
  - apply IH. lia.
Qed.

Lemma Int_part_range (t : R) (b : Z) :
  0 <= t -> t < IZR (b + 1) -> (0 <= Int_part t <= b)%Z.
Proof.
  intros H0 Hb. destruct (base_Int_part t) as [Hlo Hhi]. split.
  - assert (IZR (-1) < IZR (Int_part t)) by (simpl; lra).
    apply lt_IZR in H. lia.
  - assert (IZR (Int_part t) < IZR (b + 1)) by lra.
    apply lt_IZR in H. lia.
Qed.



(** The peak is the start value or the magnitude of a sample scanned. *)
Lemma max_amp_loop_attained (v : list R) (n i : nat) (acc : R) :
  max_amp_loop v i n acc = acc \/
  exists k, (i <= k < i + n)%nat /\
            max_amp_loop v i n acc = Rabs (nth k v 0).
Proof.
  revert i acc; induction n as [|n IH]; intros i acc; cbn [max_amp_loop].
  - left. reflexivity.
  - simpl flt. simpl fabs. simpl of_int. unfold Exact.ltb.
    destruct (Rlt_dec acc (Rabs (nth i v 0))) as [Hlt|Hge].
    + destruct (IH (S i) (Rabs (nth i v 0))) as [E|(k & Hk & E)].
      * right. exists i. split; [lia|exact E].
      * right. exists k. split; [lia|exact E].
    + destruct (IH (S i) acc) as [E|(k & Hk & E)].
      * left. exact E.
      * right. exists k. split; [lia|exact E].
Qed.



End QuantiseExact.

Section QuantiseBinary64.
Local Open Scope float_scope.



End QuantiseBinary64.



(** ** Hermitian symmetry of the designed spectra *)

Section HalfSpectrumFacts.
Context {F : Type} `{Arith F}.
Local Open Scope nat_scope.

Lemma half_spectrum_loop_length (theta : nat -> F) (N count k : nat)
  (X : list (complex F)) :
  length (half_spectrum_loop theta N k count X) = length X.
Proof.
  revert k X; induction count as [|c IH]; intros k X; cbn [half_spectrum_loop].
  - reflexivity.
  - rewrite IH. destruct ((0 <? k)%nat && (k <? N / 2)%nat);
      rewrite ?upd_length; reflexivity.
Qed.

(** The loop started at [k] with [k + count = N/2 + 1]: the bins [k .. N/2]
    receive their value, the bins [N - j] for [max k 1 <= j < N/2] receive
    the conjugate, every other bin is left alone. *)
Lemma half_spectrum_loop_nth (theta : nat -> F) (N count k : nat)
  (X : list (complex F)) (j : nat) :
  length X = N -> (k + count = S (N / 2))%nat -> (0 < N)%nat ->
  nth j (half_spectrum_loop theta N k count X) c0 =
  if (k <=? j)%nat && (j <=? N / 2)%nat then cis (theta j)
  else if (N / 2 <? j)%nat && (j <? N)%nat
          && (N - j <? N / 2)%nat && (k <=? N - j)%nat
       then conj (cis (theta (N - j)))
       else nth j X c0.
Proof.
  intros HX Hc HN.
  assert (Hhalf : N / 2 < N) by (apply Nat.div_lt; lia).
  assert (Hlow : 2 * (N / 2) <= N) by (apply Nat.Div0.mul_div_le).
  revert k X HX Hc; induction count as [|c IH]; intros k X HX Hc;
    cbn [half_spectrum_loop].
  - destruct (Nat.leb_spec k j), (Nat.leb_spec j (N / 2)),
             (Nat.ltb_spec (N / 2) j), (Nat.ltb_spec j N),
             (Nat.ltb_spec (N - j) (N / 2)), (Nat.leb_spec k (N - j));
      simpl; try reflexivity; lia.
  - rewrite (nth_upd_same k) by lia.
    destruct (Nat.ltb_spec 0 k) as [Hk0|Hk0];
      destruct (Nat.ltb_spec k (N / 2)) as [Hk1|Hk1]; cbn [andb];
      rewrite IH by (rewrite ?upd_length; lia);
      destruct (Nat.leb_spec (S k) j), (Nat.leb_spec k j),
               (Nat.leb_spec j (N / 2)),
               (Nat.ltb_spec (N / 2) j), (Nat.ltb_spec j N),
               (Nat.ltb_spec (N - j) (N / 2)),
               (Nat.leb_spec (S k) (N - j)), (Nat.leb_spec k (N - j));
      cbn [andb]; try reflexivity; try lia;
      try (replace j with k by lia);
      try (replace j with (N - k)%nat by lia);
      try (replace (N - (N - k))%nat with k by lia);
      rewrite ?nth_upd_same by (rewrite ?upd_length; lia);
      rewrite ?(nth_upd_other (N - k)) by lia;
      rewrite ?nth_upd_same by (rewrite ?upd_length; lia);
      rewrite ?(nth_upd_other k) by lia;
      try reflexivity.
Qed.

Lemma half_spectrum_length (theta : nat -> F) (N : nat) :
  length (half_spectrum theta N) = N.
Proof.
  unfold half_spectrum.
  rewrite upd_length, half_spectrum_loop_length, repeat_length. reflexivity.
Qed.

Lemma half_spectrum_low (theta : nat -> F) (N k : nat) :
  (k < N / 2)%nat -> nth k (half_spectrum theta N) c0 = cis (theta k).
Proof.
  intros Hk. assert (HN : (0 < N)%nat) by (destruct N; [simpl in Hk|]; lia).
  unfold half_spectrum. rewrite nth_upd_other by lia.
  rewrite half_spectrum_loop_nth by (rewrite ?repeat_length; lia).
  destruct (Nat.leb_spec 0 k), (Nat.leb_spec k (N / 2)); simpl;
    try reflexivity; lia.
Qed.

Lemma half_spectrum_high (theta : nat -> F) (N k : nat) :
  (1 <= k < N / 2)%nat ->
  nth (N - k) (half_spectrum theta N) c0 = conj (cis (theta k)).
Proof.
  intros Hk. assert (HN : (0 < N)%nat) by (destruct N; [simpl in Hk|]; lia).
  assert (Hhalf : (N / 2 < N)%nat) by (apply Nat.div_lt; lia).
  assert (H2 : (2 * (N / 2) <= N)%nat) by (apply Nat.Div0.mul_div_le).
  unfold half_spectrum. rewrite nth_upd_other by lia.
  rewrite half_spectrum_loop_nth by (rewrite ?repeat_length; lia).
  replace (N - (N - k))%nat with k by lia.
  destruct (Nat.leb_spec 0 (N - k)), (Nat.leb_spec (N - k) (N / 2)),
           (Nat.ltb_spec (N / 2) (N - k)), (Nat.ltb_spec (N - k) N),
           (Nat.ltb_spec k (N / 2)), (Nat.leb_spec 0 k);
    simpl; try reflexivity; lia.
Qed.

Lemma half_spectrum_nyquist (theta : nat -> F) (N : nat) :
  (0 < N)%nat -> im (nth (N / 2) (half_spectrum theta N) c0) = of_int 0.
Proof.
  intros HN. assert (Hhalf : (N / 2 < N)%nat) by (apply Nat.div_lt; lia).
  unfold half_spectrum. rewrite nth_upd_same; [reflexivity|].
  rewrite half_spectrum_loop_length, repeat_length. exact Hhalf.
Qed.

Lemma half_spectrum_dc (theta : nat -> F) (N : nat) :
  (2 <= N)%nat -> im (nth 0 (half_spectrum theta N) c0) = fsin (theta 0%nat).
Proof.
  intros HN. rewrite half_spectrum_low; [reflexivity|].
  apply Nat.div_str_pos. lia.
Qed.

End HalfSpectrumFacts.

Section Binary64Facts.
Local Open Scope float_scope.

Lemma float_opp_involutive (x : float) : - - x = x.
Proof.
  apply Prim2SF_inj. rewrite !opp_spec.
  destruct (Prim2SF x) as [s|s| |s m e]; simpl; rewrite ?negb_involutive;
    reflexivity.
Qed.

Lemma conj_involutive_binary64 (z : complex float) : conj (conj z) = z.
Proof.
  destruct z as [a b]. unfold conj. simpl. rewrite float_opp_involutive.
  reflexivity.
Qed.

(** The phase of bin 0 is -0.0 for every power-of-two length an [int] can
    hold, and the model's [sin] returns -0.0 there. *)
Lemma tsp_dc_phase (m : nat) :
  (m <= 30)%nat ->
  TspGen.theta (F := float) (2 ^ m) (2 ^ m / 2) (2 ^ m / 4) 0 = (-0)%float.
Proof.
  intros Hm. unfold TspGen.theta.
  rewrite !Nat2Z.inj_div, !Nat2Z.inj_pow.
  change (Z.of_nat 0) with 0%Z. change (Z.of_nat 2) with 2%Z.
  change (Z.of_nat 4) with 4%Z.
  do 31 (destruct m as [|m]; [vm_compute; reflexivity|]). lia.
Qed.

End Binary64Facts.

(** C7.  In double precision the spectrum built by the synthesiser is
    Hermitian: for every length, half-length and shift, bin [k] is
    [exp(i theta(k))] and is the conjugate of bin [N - k] for 1 <= k < N/2
    (the mirror bins of the deconvolution program's inverse filter are
    conjugates in the same way); and for every power-of-two length
    an [int] can hold, with [J = N/2] and [n0 = N/4], the imaginary parts of
    bin 0 and of bin N/2 are zero. *)
Theorem C7_hermitian_symmetry :
  (forall (N J n0 k : nat),
      (1 <= k < N / 2)%nat ->
      nth k (TspGen.design (F := float) N J n0) c0
      = cis (TspGen.theta N J n0 k)
      /\
      nth k (TspGen.design (F := float) N J n0) c0
      = conj (nth (N - k) (TspGen.design N J n0) c0)
      /\
      nth k (TspToIr.inv_filter (F := float) N J) c0
      = conj (nth (N - k) (TspToIr.inv_filter N J) c0))
  /\
  (forall m : nat,
      (m <= 30)%nat ->
      let N := (2 ^ m)%nat in
      let H := TspGen.design (F := float) N (N / 2) (N / 4) in
      PrimFloat.eqb (im (nth 0 H c0)) 0%float = true /\
      PrimFloat.eqb (im (nth (N / 2) H c0)) 0%float = true).
Proof.
  split.
  - intros N J n0 k Hk. unfold TspGen.design, TspToIr.inv_filter.
    rewrite !half_spectrum_high by exact Hk.
    rewrite !half_spectrum_low by lia.
    rewrite !conj_involutive_binary64. repeat split; reflexivity.
  - intros m Hm N H.
    assert (HN : (0 < N)%nat).
    { unfold N. apply Nat.neq_0_lt_0, Nat.pow_nonzero. discriminate. }
    split.
    + destruct m as [|m'].
      * reflexivity.
      * unfold H, TspGen.design. rewrite half_spectrum_dc.
        -- unfold N. rewrite (tsp_dc_phase (S m')) by exact Hm. reflexivity.
        -- unfold N. change (2 ^ S m')%nat with (2 * 2 ^ m')%nat.
           assert (0 < 2 ^ m')%nat
             by (apply Nat.neq_0_lt_0, Nat.pow_nonzero; discriminate).
           lia.
    + unfold H, TspGen.design. rewrite half_spectrum_nyquist by exact HN.
      reflexivity.
Qed.

Lemma C7_hermitian_symmetry_witness :
  nth 3 (TspGen.design (F := float) 8 4 2) c0
  = conj (nth 5 (TspGen.design (F := float) 8 4 2) c0)
  /\
  PrimFloat.eqb (im (nth 0 (TspGen.design (F := float) 8 4 2) c0)) 0%float
  = true.
Proof.
  split.
  - exact (proj1 (proj2 (proj1 C7_hermitian_symmetry 8%nat 4%nat 2%nat
                           3%nat ltac:(simpl; lia)))).
  - exact (proj1 (proj2 C7_hermitian_symmetry 3%nat ltac:(lia))).
Defined.

(** ** The transform round trip *)

Section BitReversalArith.
Local Open Scope nat_scope.

Lemma pow2_pos (m : nat) : 0 < 2 ^ m.
Proof. apply Nat.neq_0_lt_0, Nat.pow_nonzero. discriminate. Qed.

Lemma bitrev_bound (m i : nat) : bitrev m i < 2 ^ m.
Proof.
  revert i; induction m as [|m IH]; intros i; cbn [bitrev].
  - simpl. lia.
  - specialize (IH (i / 2)). pose proof (Nat.mod_upper_bound i 2 ltac:(lia)).
    change (2 ^ S m) with (2 * 2 ^ m).
    destruct (i mod 2) as [|[|?]]; lia.
Qed.

Lemma half_bound (m i : nat) : i < 2 ^ S m -> i / 2 < 2 ^ m.
Proof.
  intros Hi. apply Nat.Div0.div_lt_upper_bound. simpl in Hi. lia.
Qed.

(** Peeling the top bit of the argument instead of the low one. *)
Lemma bitrev_top (m p : nat) :
  p < 2 ^ m ->
  bitrev (S m) p = 2 * bitrev m p /\
  bitrev (S m) (2 ^ m + p) = 2 * bitrev m p + 1.
Proof.
  revert p; induction m as [|m IH]; intros p Hp.
  - simpl in Hp. replace p with 0 by lia. simpl. lia.
  - destruct (IH (p / 2) (half_bound m p Hp)) as [IH1 IH2].
    change (bitrev (S (S m)) p)
      with ((p mod 2) * 2 ^ S m + bitrev (S m) (p / 2)).
    change (bitrev (S (S m)) (2 ^ S m + p))
      with (((2 ^ S m + p) mod 2) * 2 ^ S m
            + bitrev (S m) ((2 ^ S m + p) / 2)).
    change (bitrev (S m) p) with ((p mod 2) * 2 ^ m + bitrev m (p / 2)).
    replace ((2 ^ S m + p) mod 2) with (p mod 2).
    2:{ change (2 ^ S m) with (2 * 2 ^ m).
        rewrite (Nat.add_comm (2 * 2 ^ m) p), (Nat.mul_comm 2 (2 ^ m)).
        symmetry. apply Nat.Div0.mod_add. }
    replace ((2 ^ S m + p) / 2) with (2 ^ m + p / 2).
    2:{ change (2 ^ S m) with (2 * 2 ^ m).
        rewrite (Nat.add_comm (2 * 2 ^ m) p), (Nat.mul_comm 2 (2 ^ m)).
        rewrite Nat.div_add by lia. lia. }
    rewrite IH1, IH2. change (2 ^ S m) with (2 * 2 ^ m). lia.
Qed.

Lemma bitrev_involutive (m p : nat) :
  p < 2 ^ m -> bitrev m (bitrev m p) = p.
Proof.
  revert p; induction m as [|m IH]; intros p Hp.
  - simpl in *. lia.
  - change (bitrev (S m) p) with ((p mod 2) * 2 ^ m + bitrev m (p / 2)).
    pose proof (bitrev_bound m (p / 2)) as Hb.
    destruct (bitrev_top m (bitrev m (p / 2)) Hb) as [T1 T2].
    rewrite IH in T1, T2 by (apply half_bound; exact Hp).
    pose proof (Nat.div_mod_eq p 2) as Hdm.
    pose proof (Nat.mod_upper_bound p 2 ltac:(lia)) as Hm.
    destruct (p mod 2) as [|[|?]]; try lia.
    + rewrite Nat.mul_0_l, Nat.add_0_l, T1. lia.
    + rewrite Nat.mul_1_l, T2. lia.
Qed.

Lemma bitrev_succ (m i : nat) :
  S i < 2 ^ m -> bitrev m (S i) = inc_rev m (bitrev m i).
Proof.
  revert i; induction m as [|m IH]; intros i Hi.
  - simpl in Hi. lia.
  - cbn [bitrev inc_rev].
    pose proof (bitrev_bound m (i / 2)) as Hb.
    pose proof (Nat.div_mod_eq i 2) as Hdm.
    pose proof (Nat.mod_upper_bound i 2 ltac:(lia)) as Hm.
    pose proof (Nat.div_mod_eq (S i) 2) as Hdm'.
    pose proof (Nat.mod_upper_bound (S i) 2 ltac:(lia)) as Hm'.
    destruct (i mod 2) as [|[|?]] eqn:Ei; try lia.
    + (* i even: the top bit of the reversed counter is clear *)
      assert (E1 : S i mod 2 = 1) by lia.
      assert (E2 : S i / 2 = i / 2) by lia.
      rewrite E1, E2, Nat.mul_0_l, Nat.mul_1_l, Nat.add_0_l.
      destruct (Nat.ltb_spec (bitrev m (i / 2)) (2 ^ m)); lia.
    + (* i odd: the carry goes on *)
      assert (E1 : S i mod 2 = 0) by lia.
      assert (E2 : S i / 2 = S (i / 2)) by lia.
      rewrite E1, E2, Nat.mul_1_l, Nat.mul_0_l, Nat.add_0_l.
      destruct (Nat.ltb_spec (2 ^ m + bitrev m (i / 2)) (2 ^ m)); [lia|].
      replace (2 ^ m + bitrev m (i / 2) - 2 ^ m) with (bitrev m (i / 2))
        by lia.
      apply IH. simpl in Hi. lia.
Qed.

(** Bit operations against a single bit. *)
Lemma land_pow2_small (j k : nat) : j < 2 ^ k -> Nat.land j (2 ^ k) = 0.
Proof.
  intros Hj. apply Nat.bits_inj. intros n.
  rewrite Nat.land_spec, Nat.pow2_bits_eqb, Nat.bits_0.
  destruct (Nat.eqb_spec k n) as [<-|]; [|apply andb_false_r].
  rewrite andb_true_r.
  destruct (Nat.eq_dec j 0) as [->|Hj0]; [apply Nat.bits_0|].
  apply Nat.bits_above_log2. apply Nat.log2_lt_pow2; lia.
Qed.

Lemma lxor_pow2_small (j k : nat) : j < 2 ^ k -> Nat.lxor j (2 ^ k) = j + 2 ^ k.
Proof.
  intros Hj. symmetry. apply Nat.add_nocarry_lxor.
  apply land_pow2_small. exact Hj.
Qed.

Lemma lxor_pow2_big (j k : nat) :
  2 ^ k <= j < 2 ^ S k -> Nat.lxor j (2 ^ k) = j - 2 ^ k.
Proof.
  intros Hj. simpl in Hj.
  replace j with ((j - 2 ^ k) + 2 ^ k) at 1 by lia.
  rewrite <- (lxor_pow2_small (j - 2 ^ k) k) by lia.
  rewrite Nat.lxor_assoc, Nat.lxor_nilpotent, Nat.lxor_0_r. reflexivity.
Qed.

Lemma land_pow2_big (j k : nat) :
  2 ^ k <= j < 2 ^ S k -> Nat.land j (2 ^ k) <> 0.
Proof.
  intros Hj E. simpl in Hj.
  assert (T : Nat.testbit (Nat.land j (2 ^ k)) k = false)
    by (rewrite E; apply Nat.bits_0).
  rewrite Nat.land_spec, Nat.pow2_bits_eqb, Nat.eqb_refl, andb_true_r in T.
  replace j with ((j - 2 ^ k) + 2 ^ k) in T by lia.
  rewrite <- (lxor_pow2_small (j - 2 ^ k) k) in T by lia.
  rewrite Nat.lxor_spec, Nat.pow2_bits_eqb, Nat.eqb_refl in T.
  destruct (Nat.eq_dec (j - 2 ^ k) 0) as [E0|Hj0].
  - rewrite E0, Nat.bits_0 in T. discriminate.
  - rewrite Nat.bits_above_log2 in T; [discriminate|].
    apply Nat.log2_lt_pow2; lia.
Qed.

Lemma shiftr_topbit (m : nat) : Nat.shiftr (topbit (S m)) 1 = topbit m.
Proof.
  rewrite Nat.shiftr_div_pow2. simpl topbit at 1. destruct m as [|m].
  - reflexivity.
  - change (2 ^ S m) with (2 * 2 ^ m). simpl topbit.
    rewrite Nat.pow_1_r, Nat.mul_comm. apply Nat.div_mul. lia.
Qed.

End BitReversalArith.

Section BitReversalLoop.
Context {F : Type} `{Arith F}.
Import TspToIr.
Local Open Scope nat_scope.

Lemma carry_loop_step (m j : nat) :
  j < 2 ^ S m ->
  carry_loop (S m) j (topbit (S m)) =
  if j <? 2 ^ m then (j, 2 ^ m) else carry_loop m (j - 2 ^ m) (topbit m).
Proof.
  intros Hj. cbn [carry_loop]. rewrite shiftr_topbit.
  change (topbit (S m)) with (2 ^ m).
  destruct (Nat.ltb_spec j (2 ^ m)) as [Hlt|Hge].
  - rewrite land_pow2_small by exact Hlt. reflexivity.
  - destruct (Nat.eqb_spec (Nat.land j (2 ^ m)) 0) as [E|_].
    + exfalso. apply (land_pow2_big j m); [lia|exact E].
    + rewrite lxor_pow2_big by lia. reflexivity.
Qed.

Lemma carry_loop_spec (m j : nat) :
  j < 2 ^ m ->
  Nat.lxor (fst (carry_loop m j (topbit m))) (snd (carry_loop m j (topbit m)))
  = inc_rev m j.
Proof.
  revert j; induction m as [|m IH]; intros j Hj.
  - simpl in *. replace j with 0 by lia. reflexivity.
  - rewrite carry_loop_step by exact Hj. cbn [inc_rev].
    destruct (Nat.ltb_spec j (2 ^ m)) as [Hlt|Hge].
    + simpl fst. simpl snd. apply lxor_pow2_small. exact Hlt.
    + apply IH. simpl in Hj. lia.
Qed.

Lemma bitrev_loop_spec (m : nat) (x0 : list (complex F)) :
  forall (count i : nat) (x : list (complex F)),
    1 <= i -> i + count = 2 ^ S m -> length x = 2 ^ S m ->
    (forall p, p < 2 ^ S m ->
               nth p x c0 = nth (swapped_upto (S m) (i - 1) p) x0 c0) ->
    forall p, p < 2 ^ S m ->
      nth p (bitrev_loop (2 ^ S m) x i (bitrev (S m) (i - 1)) count) c0
      = nth (bitrev (S m) p) x0 c0.
Proof.
  induction count as [|count IH]; intros i x Hi Hc Hx Hinv p Hp.
  - cbn [bitrev_loop]. rewrite Hinv by exact Hp. unfold swapped_upto.
    destruct (Nat.leb_spec p (i - 1)); [reflexivity|lia].
  - cbn [bitrev_loop].
    replace (Nat.shiftr (2 ^ S m) 1) with (topbit (S m))
      by (symmetry; rewrite Nat.shiftr_div_pow2, Nat.pow_1_r;
          change (2 ^ S m) with (2 * 2 ^ m);
          rewrite Nat.mul_comm; apply Nat.div_mul; lia).
    replace (S (Nat.log2 (topbit (S m)))) with (S m)
      by (simpl topbit; rewrite Nat.log2_pow2 by lia; reflexivity).
    pose proof (carry_loop_spec (S m) (bitrev (S m) (i - 1))
                  (bitrev_bound _ _)) as Ec.
    destruct (carry_loop (S m) (bitrev (S m) (i - 1)) (topbit (S m)))
      as [j' bit'].
    cbn [fst snd] in Ec. rewrite Ec.
    rewrite <- bitrev_succ by lia.
    replace (S (i - 1)) with i by lia.
    remember (bitrev (S m) i) as j eqn:Ej.
    assert (Hj : j < 2 ^ S m) by (rewrite Ej; apply bitrev_bound).
    assert (Hji : bitrev (S m) j = i)
      by (rewrite Ej; apply bitrev_involutive; lia).
    assert (Esi : S i - 1 = i) by lia.
    match goal with
    | |- nth p (bitrev_loop _ ?x' _ _ _) _ = _ =>
        pose proof (IH (S i) x') as IH'
    end.
    rewrite Esi, <- Ej in IH'. apply IH'; try lia; clear IH'.
    + destruct (Nat.ltb_spec i j); rewrite ?upd_length; exact Hx.
    + clear p Hp. intros p Hp.
      assert (Hpp : bitrev (S m) (bitrev (S m) p) = p)
        by (apply bitrev_involutive; exact Hp).
      destruct (Nat.ltb_spec i j) as [Hlt|Hge].
      * destruct (Nat.eq_dec p j) as [->|Hpj].
        { rewrite nth_upd_same by (rewrite upd_length; lia).
          rewrite Hinv by lia. unfold swapped_upto. rewrite Hji.
          rewrite <- ?Ej.
          destruct (Nat.leb_spec i (i - 1)), (Nat.leb_spec j (i - 1)),
                   (Nat.leb_spec j i), (Nat.leb_spec i i);
            cbn [orb]; try lia; reflexivity. }
        rewrite nth_upd_other by lia.
        destruct (Nat.eq_dec p i) as [->|Hpi].
        { rewrite nth_upd_same by lia.
          rewrite Hinv by lia. unfold swapped_upto. rewrite Hji.
          rewrite <- ?Ej.
          destruct (Nat.leb_spec i (i - 1)), (Nat.leb_spec j (i - 1)),
                   (Nat.leb_spec i i);
            cbn [orb]; try lia; reflexivity. }
        rewrite nth_upd_other by lia.
        rewrite Hinv by exact Hp. unfold swapped_upto.
        assert (bitrev (S m) p <> i) by (intros E; rewrite E in Hpp; lia).
        destruct (Nat.leb_spec p (i - 1)), (Nat.leb_spec p i),
                 (Nat.leb_spec (bitrev (S m) p) (i - 1)),
                 (Nat.leb_spec (bitrev (S m) p) i);
          cbn [orb]; try lia; reflexivity.
      * rewrite Hinv by exact Hp. unfold swapped_upto.
        destruct (Nat.leb_spec p (i - 1)), (Nat.leb_spec p i),
                 (Nat.leb_spec (bitrev (S m) p) (i - 1)),
                 (Nat.leb_spec (bitrev (S m) p) i);
          cbn [orb]; try lia; try reflexivity.
        all: try (assert (Epi : p = i) by lia; rewrite Epi in *;
                  rewrite <- Ej in *;
                  assert (Eji : j = i) by lia; rewrite ?Eji; reflexivity).
        all: assert (E : bitrev (S m) p = i) by lia;
          assert (Epj : p = j)
            by (rewrite Ej, <- E; symmetry; exact Hpp);
          assert (Eji : j = i) by lia; rewrite E; congruence.
Qed.

Lemma evens_odds_nth {A : Type} (l : list A) (q : nat) (d : A) :
  nth q (evens l) d = nth (2 * q) l d /\ nth q (odds l) d = nth (2 * q + 1) l d.
Proof.
  assert (G : forall n (l : list A), length l <= n -> forall q,
             nth q (evens l) d = nth (2 * q) l d /\
             nth q (odds l) d = nth (2 * q + 1) l d).
  { clear l q. induction n as [|n IH]; intros l Hl q.
    - destruct l; simpl in Hl; [|lia]. destruct q; simpl; auto.
    - destruct l as [|a [|b l]].
      + destruct q; simpl; auto.
      + destruct q as [|q]; [simpl; auto|].
        replace (2 * S q) with (S (S (2 * q))) by lia.
        replace (2 * S q + 1) with (S (S (2 * q + 1))) by lia.
        cbn [evens odds nth]. split; [destruct q; reflexivity|reflexivity].
      + cbn [evens odds]. destruct q as [|q]; [simpl; auto|].
        replace (2 * S q) with (S (S (2 * q))) by lia.
        replace (2 * S q + 1) with (S (S (2 * q + 1))) by lia.
        cbn [nth]. apply IH. simpl in Hl. lia. }
  apply (G (length l) l (le_n _)).
Qed.

Lemma evens_odds_length {A : Type} (l : list A) (h : nat) :
  length l = 2 * h -> length (evens l) = h /\ length (odds l) = h.
Proof.
  revert l; induction h as [|h IH]; intros l Hl.
  - destruct l; try discriminate. auto.
  - destruct l as [|a [|b l]]; simpl in Hl; try lia.
    cbn [evens odds length]. destruct (IH l ltac:(lia)). lia.
Qed.

Lemma bit_reverse_length {A : Type} (m : nat) (x : list A) :
  length x = 2 ^ m -> length (bit_reverse m x) = 2 ^ m.
Proof.
  revert x; induction m as [|m IH]; intros x Hx; cbn [bit_reverse].
  - exact Hx.
  - destruct (evens_odds_length x (2 ^ m) Hx) as [He Ho].
    rewrite length_app, !IH by assumption. simpl. lia.
Qed.

Lemma bit_reverse_nth {A : Type} (m : nat) (x : list A) (p : nat) (d : A) :
  length x = 2 ^ m -> p < 2 ^ m ->
  nth p (bit_reverse m x) d = nth (bitrev m p) x d.
Proof.
  revert x p; induction m as [|m IH]; intros x p Hx Hp.
  - simpl in *. replace p with 0 by lia. reflexivity.
  - cbn [bit_reverse].
    destruct (evens_odds_length x (2 ^ m) Hx) as [He Ho].
    destruct (Nat.lt_ge_cases p (2 ^ m)) as [Hlt|Hge].
    + rewrite app_nth1 by (rewrite bit_reverse_length; assumption).
      rewrite IH by assumption.
      rewrite (proj1 (evens_odds_nth x _ d)).
      rewrite (proj1 (bitrev_top m p Hlt)). reflexivity.
    + rewrite app_nth2 by (rewrite bit_reverse_length; assumption).
      rewrite bit_reverse_length by assumption.
      simpl in Hp.
      rewrite IH by (try assumption; lia).
      rewrite (proj2 (evens_odds_nth x _ d)).
      replace p with (2 ^ m + (p - 2 ^ m)) at 2 by lia.
      rewrite (proj2 (bitrev_top m (p - 2 ^ m) ltac:(lia))). reflexivity.
Qed.

Lemma bitrev_loop_length (n : nat) (count i j : nat) (x : list (complex F)) :
  length (bitrev_loop n x i j count) = length x.
Proof.
  revert i j x; induction count as [|count IH]; intros i j x;
    cbn [bitrev_loop].
  - reflexivity.
  - destruct (carry_loop _ _ _) as [j' bit']. rewrite IH.
    destruct (Nat.ltb_spec i (Nat.lxor j' bit')); rewrite ?upd_length;
      reflexivity.
Qed.

Lemma bitrev_0 (m : nat) : bitrev m 0 = 0.
Proof. induction m as [|m IH]; simpl; auto. Qed.

(** The swap loop is the decimation-in-time permutation. *)
Lemma bitrev_loop_all (m : nat) (x : list (complex F)) :
  length x = 2 ^ m ->
  bitrev_loop (2 ^ m) x 1 0 (2 ^ m - 1) = bit_reverse m x.
Proof.
  intros Hx. destruct m as [|m].
  - reflexivity.
  - apply (nth_ext _ _ c0 c0).
    + rewrite bitrev_loop_length, bit_reverse_length by exact Hx. exact Hx.
    + intros p Hp. rewrite bitrev_loop_length, Hx in Hp.
      rewrite bit_reverse_nth by assumption.
      pose proof (pow2_pos (S m)) as Hpos.
      pose proof (bitrev_loop_spec m x (2 ^ S m - 1) 1 x) as E.
      change (1 - 1) with 0 in E. rewrite bitrev_0 in E.
      apply E; try lia; try assumption. clear E.
      intros q Hq. unfold swapped_upto.
      destruct (Nat.leb_spec q 0), (Nat.leb_spec (bitrev (S m) q) 0);
        cbn [orb]; try reflexivity.
      * replace q with 0 by lia. rewrite bitrev_0. reflexivity.
      * replace q with 0 by lia. rewrite bitrev_0. reflexivity.
      * assert (E : bitrev (S m) q = 0) by lia.
        rewrite E. f_equal. rewrite <- (bitrev_involutive (S m) q Hq), E.
        rewrite bitrev_0. reflexivity.
Qed.

End BitReversalLoop.

Section StageLoops.
Context {F : Type} `{Arith F}.
Import TspToIr.
Local Open Scope nat_scope.

Lemma twist_length (wlen w : complex F) (B : list (complex F)) :
  length (twist wlen w B) = length B.
Proof. revert w; induction B; intros w; simpl; auto. Qed.

Lemma zip_with_length (f : complex F -> complex F -> complex F)
  (A B : list (complex F)) :
  length B = length A -> length (zip_with f A B) = length A.
Proof.
  revert B; induction A as [|a A IH]; intros [|b B] HL; simpl in *;
    try discriminate; auto.
Qed.

Lemma butterfly_length (wlen : complex F) (A B : list (complex F)) :
  length B = length A -> length (butterfly wlen A B) = 2 * length A.
Proof.
  intros HL. unfold butterfly.
  rewrite length_app, !zip_with_length by (rewrite twist_length; exact HL).
  lia.
Qed.

(** The inner loop, entered at [j] with the halves already rewritten up to
    [j]: [A1], [B1] are the rewritten parts. *)
Lemma butterfly_loop_spec (wlen : complex F) (A2 : list (complex F)) :
  forall (B2 : list (complex F)) (w : complex F)
    (pre A1 B1 post : list (complex F)) (i half j : nat),
    length B2 = length A2 -> length pre = i ->
    length A1 = j -> length B1 = j -> half = j + length A2 ->
    butterfly_loop (pre ++ A1 ++ A2 ++ B1 ++ B2 ++ post) i half wlen w j
      (length A2)
    = pre ++ (A1 ++ zip_with cadd A2 (twist wlen w B2))
          ++ (B1 ++ zip_with csub A2 (twist wlen w B2)) ++ post.
Proof.
  induction A2 as [|a A2 IH];
    intros B2 w pre A1 B1 post i half j HB Hpre HA1 HB1 Hh.
  - destruct B2; try discriminate. simpl. rewrite !app_nil_r. reflexivity.
  - destruct B2 as [|b B2]; try discriminate. simpl in HB.
    cbn [length butterfly_loop twist zip_with].
    assert (E1 : pre ++ A1 ++ (a :: A2) ++ B1 ++ (b :: B2) ++ post
                 = (pre ++ A1) ++ a :: (A2 ++ B1 ++ (b :: B2) ++ post)).
    { rewrite <- !app_assoc. reflexivity. }
    rewrite E1.
    rewrite (nth_app_at (i + j) (pre ++ A1))
      by (rewrite length_app; lia).
    rewrite (upd_app_at (i + j) (pre ++ A1))
      by (rewrite length_app; lia).
    rewrite <- E1. clear E1.
    assert (E2 : forall a',
               (pre ++ A1) ++ a' :: (A2 ++ B1 ++ (b :: B2) ++ post)
               = (pre ++ A1 ++ a' :: A2 ++ B1) ++ b :: (B2 ++ post)).
    { intros a'. rewrite <- !app_assoc. simpl. rewrite <- !app_assoc.
      reflexivity. }
    assert (E2' : pre ++ A1 ++ (a :: A2) ++ B1 ++ (b :: B2) ++ post
               = (pre ++ A1 ++ a :: A2 ++ B1) ++ b :: (B2 ++ post)).
    { rewrite <- !app_assoc. simpl. rewrite <- !app_assoc. reflexivity. }
    rewrite E2'.
    rewrite (nth_app_at (i + j + half) (pre ++ A1 ++ a :: A2 ++ B1))
      by (rewrite !length_app; simpl; rewrite length_app; simpl in Hh; lia).
    rewrite E2.
    rewrite (upd_app_at (i + j + half) (pre ++ A1 ++ _ :: A2 ++ B1))
      by (rewrite !length_app; simpl; rewrite length_app; simpl in Hh; lia).
    set (u := cadd a (cmul b w)). set (v := csub a (cmul b w)).
    replace ((pre ++ A1 ++ u :: A2 ++ B1) ++ v :: B2 ++ post)
      with (pre ++ (A1 ++ [u]) ++ A2 ++ (B1 ++ [v]) ++ B2 ++ post)
      by (rewrite <- !app_assoc; simpl; rewrite <- !app_assoc; reflexivity).
    rewrite (IH B2 (cmul w wlen) pre (A1 ++ [u]) (B1 ++ [v]) post i half (S j));
      try (rewrite ?length_app; simpl; simpl in Hh; lia).
    rewrite <- !app_assoc. simpl. reflexivity.
Qed.

Lemma butterfly_loop_block (wlen : complex F)
  (pre A B post : list (complex F)) (i half : nat) :
  length pre = i -> length A = half -> length B = half ->
  butterfly_loop (pre ++ A ++ B ++ post) i half wlen c1 0 half
  = pre ++ butterfly wlen A B ++ post.
Proof.
  intros Hp HA HB.
  pose proof (butterfly_loop_spec wlen A B c1 pre [] [] post i half 0) as E.
  simpl in E. rewrite HA in E. rewrite E by lia.
  unfold butterfly. rewrite <- !app_assoc. reflexivity.
Qed.

Lemma stage_length (half : nat) (wlen : complex F) (q : nat)
  (x : list (complex F)) :
  q * (2 * half) <= length x -> length (stage half wlen q x) = length x.
Proof.
  revert x; induction q as [|q IH]; intros x Hx; cbn [stage].
  - reflexivity.
  - rewrite length_app, butterfly_length, IH;
      rewrite ?length_firstn, ?length_skipn; lia.
Qed.

Lemma block_loop_spec (half : nat) (wlen : complex F) (q : nat) :
  forall (fuel : nat) (done rest : list (complex F)) (n : nat),
    0 < half -> length rest = q * (2 * half) ->
    n = length done + length rest -> q <= fuel ->
    block_loop fuel (done ++ rest) n (2 * half) wlen (length done)
    = done ++ stage half wlen q rest.
Proof.
  induction q as [|q IH]; intros fuel done rest n Hh Hr Hn Hf.
  - destruct rest; try discriminate. simpl in Hn.
    destruct fuel; cbn [block_loop stage]; [reflexivity|].
    destruct (Nat.ltb_spec (length done) n); [lia|reflexivity].
  - destruct fuel as [|fuel]; [lia|]. cbn [block_loop stage].
    destruct (Nat.ltb_spec (length done) n); [|lia].
    replace (2 * half / 2) with half
      by (symmetry; rewrite Nat.mul_comm; apply Nat.div_mul; lia).
    set (A := firstn half rest).
    set (B := firstn half (skipn half rest)).
    set (rest' := skipn (2 * half) rest).
    assert (Er : rest = A ++ B ++ rest').
    { unfold A, B, rest'.
      replace (2 * half) with (half + half) by lia.
      rewrite <- skipn_skipn, !firstn_skipn. reflexivity. }
    assert (HA : length A = half)
      by (unfold A; rewrite length_firstn; lia).
    assert (HB : length B = half)
      by (unfold B; rewrite length_firstn, length_skipn; lia).
    assert (Hr' : length rest' = q * (2 * half))
      by (unfold rest'; rewrite length_skipn; lia).
    rewrite Er at 1.
    rewrite butterfly_loop_block by auto.
    replace (done ++ butterfly wlen A B ++ rest')
      with ((done ++ butterfly wlen A B) ++ rest')
      by (rewrite <- app_assoc; reflexivity).
    replace (length done + 2 * half)
      with (length (done ++ butterfly wlen A B))
      by (rewrite length_app, butterfly_length by lia; lia).
    rewrite (IH fuel (done ++ butterfly wlen A B) rest' n); try lia.
    + rewrite <- app_assoc. reflexivity.
    + rewrite length_app, butterfly_length by lia. lia.
Qed.

Lemma pow2_div (m s : nat) : s <= m -> 2 ^ m / 2 ^ s = 2 ^ (m - s).
Proof.
  intros Hs. replace m with ((m - s) + s) at 1 by lia.
  rewrite Nat.pow_add_r. apply Nat.div_mul. apply Nat.pow_nonzero.
  discriminate.
Qed.

Lemma stages_length (two : F) (m s : nat) (x : list (complex F)) :
  length x = 2 ^ m -> s <= m -> length (stages two s x) = length x.
Proof.
  intros Hx. induction s as [|s IH]; intros Hs; cbn [stages].
  - reflexivity.
  - rewrite stage_length; rewrite IH by lia; [reflexivity|].
    rewrite Hx, pow2_div by lia.
    replace (2 * 2 ^ s) with (2 ^ S s) by (simpl; lia).
    rewrite <- Nat.pow_add_r. replace (m - S s + S s) with m by lia. lia.
Qed.

(** The stage loop entered with [len = 2^(s+1)] after [s] stages. *)
Lemma stage_loop_spec (two : F) (m : nat) (x0 : list (complex F)) :
  length x0 = 2 ^ m ->
  forall (k s fuel : nat),
    s + k = m -> k <= fuel ->
    stage_loop fuel two (stages two s x0) (2 ^ m) (2 ^ S s)
    = stages two m x0.
Proof.
  intros Hx. induction k as [|k IH]; intros s fuel Hs Hf.
  - replace s with m by lia.
    destruct fuel; cbn [stage_loop]; [reflexivity|].
    destruct (Nat.leb_spec (2 ^ S m) (2 ^ m)) as [Hle|]; [|reflexivity].
    apply Nat.pow_le_mono_r_iff in Hle; lia.
  - destruct fuel as [|fuel]; [lia|]. cbn [stage_loop].
    destruct (Nat.leb_spec (2 ^ S s) (2 ^ m)) as [Hle|Hgt].
    2:{ exfalso. apply Nat.lt_nge in Hgt. apply Hgt.
        apply Nat.pow_le_mono_r; lia. }
    fold (twiddle two (2 ^ S s)).
    pose proof (block_loop_spec (2 ^ s) (twiddle two (2 ^ S s))
                  (2 ^ m / 2 ^ S s) (2 ^ m) [] (stages two s x0) (2 ^ m))
      as E.
    cbn [app length] in E. change (2 * 2 ^ s) with (2 ^ S s) in E.
    rewrite E; clear E.
    + change (2 * 2 ^ S s) with (2 ^ S (S s)).
      rewrite <- (IH (S s) fuel) by lia. cbn [stages].
      rewrite Hx. reflexivity.
    + apply pow2_pos.
    + rewrite stages_length with (m := m) by (auto; lia).
      rewrite Hx, pow2_div by lia.
      rewrite <- Nat.pow_add_r. f_equal. lia.
    + rewrite stages_length with (m := m) by (auto; lia). lia.
    + rewrite pow2_div by lia. apply Nat.pow_le_mono_r; lia.
Qed.

Lemma stage_loop_all (two : F) (m : nat) (x : list (complex F)) :
  length x = 2 ^ m ->
  stage_loop (S (Nat.log2 (2 ^ m))) two x (2 ^ m) 2 = stages two m x.
Proof.
  intros Hx. rewrite Nat.log2_pow2 by lia.
  exact (stage_loop_spec two m x Hx m 0 (S m) eq_refl (Nat.le_succ_diag_r m)).
Qed.

End StageLoops.

Section Dit.
Context {F : Type} `{Arith F}.
Local Open Scope nat_scope.

Lemma stage_app (half : nat) (wlen : complex F) (qa qb : nat)
  (A B : list (complex F)) :
  length A = qa * (2 * half) ->
  stage half wlen (qa + qb) (A ++ B)
  = stage half wlen qa A ++ stage half wlen qb B.
Proof.
  revert A; induction qa as [|qa IH]; intros A HA.
  - destruct A; try discriminate. reflexivity.
  - cbn [Nat.add stage].
    rewrite !firstn_app, !skipn_app, !firstn_app.
    replace (half - length A) with 0 by lia.
    replace (half - length (skipn half A)) with 0
      by (rewrite length_skipn; lia).
    replace (half - length A - length (skipn half A)) with 0 by lia.
    replace (2 * half - length A) with 0 by lia.
    cbn [firstn skipn]. rewrite !app_nil_r.
    rewrite IH by (rewrite length_skipn; lia).
    rewrite app_assoc. reflexivity.
Qed.

Lemma stages_app (two : F) (m s : nat) (A B : list (complex F)) :
  length A = 2 ^ m -> length B = 2 ^ m -> s <= m ->
  stages two s (A ++ B) = stages two s A ++ stages two s B.
Proof.
  intros HA HB. induction s as [|s IH]; intros Hs; cbn [stages].
  - reflexivity.
  - rewrite IH by lia. rewrite length_app, HA, HB.
    replace ((2 ^ m + 2 ^ m) / 2 ^ S s)
      with (2 ^ m / 2 ^ S s + 2 ^ m / 2 ^ S s).
    2:{ rewrite !pow2_div by lia.
        replace (2 ^ m + 2 ^ m) with (2 ^ S m) by (simpl; lia).
        rewrite pow2_div by lia.
        replace (S m - S s) with (S (m - S s)) by lia. simpl. lia. }
    apply stage_app.
    rewrite stages_length with (m := m) by (auto; lia).
    rewrite HA, pow2_div by lia.
    change (2 * 2 ^ s) with (2 ^ S s).
    rewrite <- Nat.pow_add_r. f_equal. lia.
Qed.

Lemma firstn_app_exact {A : Type} (n : nat) (X Y : list A) :
  length X = n -> firstn n (X ++ Y) = X.
Proof.
  intros <-. rewrite firstn_app, Nat.sub_diag, firstn_all. simpl.
  apply app_nil_r.
Qed.

Lemma skipn_app_exact {A : Type} (n : nat) (X Y : list A) :
  length X = n -> skipn n (X ++ Y) = Y.
Proof.
  intros <-. rewrite skipn_app, Nat.sub_diag, skipn_all. reflexivity.
Qed.

Lemma stage_one (half : nat) (wlen : complex F) (X Y : list (complex F)) :
  length X = half -> length Y = half ->
  stage half wlen 1 (X ++ Y) = butterfly wlen X Y.
Proof.
  intros HX HY. cbn [stage].
  rewrite (firstn_app_exact half X Y HX), (skipn_app_exact half X Y HX).
  rewrite <- HY at 1. rewrite firstn_all.
  rewrite skipn_all2 by (rewrite length_app; lia).
  apply app_nil_r.
Qed.

(** The last stage joins the transforms of the two halves. *)
Lemma stages_halves (two : F) (m : nat) (A B : list (complex F)) :
  length A = 2 ^ m -> length B = 2 ^ m ->
  stages two (S m) (A ++ B)
  = butterfly (twiddle two (2 ^ S m)) (stages two m A) (stages two m B).
Proof.
  intros HA HB. cbn [stages]. rewrite (stages_app two m m) by auto.
  rewrite length_app, HA, HB.
  replace ((2 ^ m + 2 ^ m) / 2 ^ S m) with 1
    by (symmetry; replace (2 ^ m + 2 ^ m) with (2 ^ S m) by (simpl; lia);
        apply Nat.div_same; apply Nat.pow_nonzero; discriminate).
  apply stage_one; rewrite stages_length with (m := m); auto.
Qed.

Lemma stages_bit_reverse (two : F) (m : nat) (x : list (complex F)) :
  length x = 2 ^ m -> stages two m (bit_reverse m x) = dit two m x.
Proof.
  revert x; induction m as [|m IH]; intros x Hx.
  - reflexivity.
  - destruct (evens_odds_length x (2 ^ m) Hx) as [He Ho].
    cbn [bit_reverse dit].
    rewrite stages_halves by (apply bit_reverse_length; assumption).
    rewrite !IH by assumption. reflexivity.
Qed.

Lemma dit_length (two : F) (m : nat) (x : list (complex F)) :
  length x = 2 ^ m -> length (dit two m x) = 2 ^ m.
Proof.
  revert x; induction m as [|m IH]; intros x Hx; cbn [dit].
  - exact Hx.
  - destruct (evens_odds_length x (2 ^ m) Hx) as [He Ho].
    rewrite butterfly_length; rewrite !IH by assumption; simpl; lia.
Qed.

(** The two programs' transforms on a buffer of length [2^m]. *)
Lemma simple_fft_dit (m : nat) (x : list (complex F)) :
  length x = 2 ^ m ->
  TspToIr.simple_fft x (2 ^ m) = dit (of_int 2) m x.
Proof.
  intros Hx. unfold TspToIr.simple_fft.
  rewrite bitrev_loop_all by exact Hx.
  rewrite stage_loop_all by (apply bit_reverse_length; exact Hx).
  apply stages_bit_reverse. exact Hx.
Qed.

Lemma simple_ifft_dit (m : nat) (x : list (complex F)) :
  length x = 2 ^ m ->
  TspToIr.simple_ifft x (2 ^ m)
  = map (fun z => cdiv_int z (Z.of_nat (2 ^ m))) (dit (of_int (-2)) m x).
Proof.
  intros Hx. unfold TspToIr.simple_ifft.
  rewrite bitrev_loop_all by exact Hx.
  rewrite stage_loop_all by (apply bit_reverse_length; exact Hx).
  rewrite stages_bit_reverse by exact Hx.
  rewrite firstn_all2, skipn_all2, app_nil_r
    by (rewrite dit_length by exact Hx; lia).
  reflexivity.
Qed.

End Dit.

Section ListParity.
Context {A : Type}.

Lemma list_ind2 (P : list A -> Prop) :
  P [] -> (forall a, P [a]) -> (forall a b l, P l -> P (a :: b :: l)) ->
  forall l, P l.
Proof.
  intros P0 P1 P2.
  assert (G : forall l, P l /\ forall a, P (a :: l)).
  { induction l as [|b l [IH1 IH2]]; split; auto. }
  intros l. apply G.
Qed.

Lemma odds_evens_tl (l : list A) : odds l = evens (tl l).
Proof.
  induction l as [| a | a b l IH] using list_ind2; try reflexivity.
  cbn [odds tl]. rewrite IH. destruct l; reflexivity.
Qed.

Lemma evens_odds_app (k : nat) (U V : list A) :
  length U = 2 * k ->
  evens (U ++ V) = evens U ++ evens V /\ odds (U ++ V) = odds U ++ odds V.
Proof.
  revert U; induction k as [|k IH]; intros U HU.
  - destruct U; try discriminate. auto.
  - destruct U as [|a [|b U]]; simpl in HU; try lia.
    destruct (IH U ltac:(lia)) as [E O].
    cbn [app evens odds]. rewrite E, O. auto.
Qed.

End ListParity.

Section ExactAlgebra.
Local Open Scope R_scope.

Lemma cmul_assoc (a b c : complex R) : cmul (cmul a b) c = cmul a (cmul b c).
Proof. destruct a, b, c. unfold cmul; simpl. f_equal; ring. Qed.

Lemma cmul_comm (a b : complex R) : cmul a b = cmul b a.
Proof. destruct a, b. unfold cmul; simpl. f_equal; ring. Qed.

Lemma cmul_1_r (a : complex R) : cmul a c1 = a.
Proof. destruct a. unfold cmul, c1; simpl. f_equal; ring. Qed.

Lemma cmul_1_l (a : complex R) : cmul c1 a = a.
Proof. rewrite cmul_comm. apply cmul_1_r. Qed.

Lemma cmul_cadd_distr (c a b : complex R) :
  cmul c (cadd a b) = cadd (cmul c a) (cmul c b).
Proof. destruct a, b, c. unfold cmul, cadd; simpl. f_equal; ring. Qed.

Lemma cmul_csub_distr (c a b : complex R) :
  cmul c (csub a b) = csub (cmul c a) (cmul c b).
Proof. destruct a, b, c. unfold cmul, csub; simpl. f_equal; ring. Qed.

(** Pointwise operations and the parity split. *)

Lemma zip_with_nil_r (f : complex R -> complex R -> complex R)
  (X : list (complex R)) :
  zip_with f X [] = [].
Proof. destruct X; reflexivity. Qed.

Lemma evens_zip_with (f : complex R -> complex R -> complex R)
  (X Y : list (complex R)) :
  evens (zip_with f X Y) = zip_with f (evens X) (evens Y).
Proof.
  revert Y. induction X as [| a | a b X IH] using list_ind2; intros Y.
  - reflexivity.
  - destruct Y as [|y1 [|y2 Y]]; reflexivity.
  - destruct Y as [|y1 [|y2 Y]]; try reflexivity.
    + cbn [zip_with evens]. rewrite zip_with_nil_r. reflexivity.
    + cbn [zip_with evens]. rewrite IH. reflexivity.
Qed.

Lemma tl_zip_with (f : complex R -> complex R -> complex R)
  (X Y : list (complex R)) :
  tl (zip_with f X Y) = zip_with f (tl X) (tl Y).
Proof.
  destruct X, Y; try reflexivity. simpl. symmetry. apply zip_with_nil_r.
Qed.

Lemma odds_zip_with (f : complex R -> complex R -> complex R)
  (X Y : list (complex R)) :
  odds (zip_with f X Y) = zip_with f (odds X) (odds Y).
Proof.
  rewrite !odds_evens_tl, tl_zip_with. apply evens_zip_with.
Qed.

Lemma evens_twist (wlen : complex R) (Y : list (complex R)) (w : complex R) :
  evens (twist wlen w Y) = twist (cmul wlen wlen) w (evens Y).
Proof.
  revert w. induction Y as [| a | a b Y IH] using list_ind2; intros w;
    try reflexivity.
  cbn [twist evens]. rewrite IH, cmul_assoc. reflexivity.
Qed.

Lemma tl_twist (wlen : complex R) (Y : list (complex R)) (w : complex R) :
  tl (twist wlen w Y) = twist wlen (cmul w wlen) (tl Y).
Proof. destruct Y; reflexivity. Qed.

Lemma odds_twist (wlen : complex R) (Y : list (complex R)) (w : complex R) :
  odds (twist wlen w Y) = twist (cmul wlen wlen) (cmul w wlen) (odds Y).
Proof.
  rewrite !odds_evens_tl, tl_twist. apply evens_twist.
Qed.

Lemma evens_map (f : (complex R) -> (complex R)) (X : list (complex R)) :
  evens (map f X) = map f (evens X).
Proof.
  induction X as [| a | a b X IH] using list_ind2; try reflexivity.
  cbn [map evens]. rewrite IH. reflexivity.
Qed.

Lemma odds_map (f : complex R -> complex R) (X : list (complex R)) :
  odds (map f X) = map f (odds X).
Proof.
  rewrite !odds_evens_tl. destruct X; [reflexivity|]. cbn [map tl].
  apply evens_map.
Qed.

(** Scaling by a complex constant commutes with everything. *)

Lemma twist_scale_w (wlen c : complex R) (Y : list (complex R))
  (w : complex R) :
  twist wlen (cmul c w) Y = map (cmul c) (twist wlen w Y).
Proof.
  revert w; induction Y as [|y Y IH]; intros w; cbn [twist map].
  - reflexivity.
  - rewrite cmul_assoc, IH. f_equal.
    rewrite <- !cmul_assoc, (cmul_comm y c). reflexivity.
Qed.

Lemma twist_map_scale (wlen c : complex R) (Y : list (complex R))
  (w : complex R) :
  twist wlen w (map (cmul c) Y) = map (cmul c) (twist wlen w Y).
Proof.
  revert w; induction Y as [|y Y IH]; intros w; cbn [twist map].
  - reflexivity.
  - rewrite IH, cmul_assoc. reflexivity.
Qed.

Lemma zip_with_cadd_scale (c : complex R) (X Y : list (complex R)) :
  zip_with cadd (map (cmul c) X) (map (cmul c) Y)
  = map (cmul c) (zip_with cadd X Y).
Proof.
  revert Y; induction X as [|x X IH]; intros [|y Y]; cbn [zip_with map];
    try reflexivity.
  rewrite IH, cmul_cadd_distr. reflexivity.
Qed.

Lemma zip_with_csub_scale (c : complex R) (X Y : list (complex R)) :
  zip_with csub (map (cmul c) X) (map (cmul c) Y)
  = map (cmul c) (zip_with csub X Y).
Proof.
  revert Y; induction X as [|x X IH]; intros [|y Y]; cbn [zip_with map];
    try reflexivity.
  rewrite IH, cmul_csub_distr. reflexivity.
Qed.

Lemma butterfly_scale (wlen c : complex R) (X Y : list (complex R)) :
  butterfly wlen (map (cmul c) X) (map (cmul c) Y)
  = map (cmul c) (butterfly wlen X Y).
Proof.
  unfold butterfly. rewrite twist_map_scale, zip_with_cadd_scale,
    zip_with_csub_scale, map_app. reflexivity.
Qed.

Lemma dit_scale (two : R) (c : complex R) (m : nat) (x : list (complex R)) :
  dit two m (map (cmul c) x) = map (cmul c) (dit two m x).
Proof.
  revert x; induction m as [|m IH]; intros x; cbn [dit].
  - reflexivity.
  - rewrite evens_map, odds_map, !IH. apply butterfly_scale.
Qed.

(** Twiddle factors. *)

Lemma cis_add (a b : R) : cmul (cis a) (cis b) = cis (a + b).
Proof.
  unfold cis, cmul; simpl. rewrite cos_plus, sin_plus. f_equal; ring.
Qed.

Lemma IZR_pow2_S (m : nat) :
  IZR (Z.of_nat (2 ^ S m)) = 2 * IZR (Z.of_nat (2 ^ m)).
Proof.
  change (2 ^ S m)%nat with (2 * 2 ^ m)%nat.
  rewrite Nat2Z.inj_mul, mult_IZR. reflexivity.
Qed.

Lemma IZR_pow2_pos (m : nat) : 0 < IZR (Z.of_nat (2 ^ m)).
Proof.
  apply (IZR_lt 0). pose proof (pow2_pos m). lia.
Qed.

Lemma twiddle_exact (two : R) (len : nat) :
  twiddle two len = cis (two * PI / IZR (Z.of_nat len)).
Proof. reflexivity. Qed.

Lemma twiddle_sq (two : R) (m : nat) :
  cmul (twiddle two (2 ^ S m)) (twiddle two (2 ^ S m)) = twiddle two (2 ^ m).
Proof.
  rewrite !twiddle_exact, cis_add. f_equal.
  rewrite IZR_pow2_S. pose proof (IZR_pow2_pos m). field. lra.
Qed.

Lemma twiddle_inverse (len : nat) :
  cmul (twiddle (of_int 2) len) (twiddle (of_int (-2)) len) = c1.
Proof.
  rewrite !twiddle_exact, cis_add.
  replace (of_int 2 * PI / IZR (Z.of_nat len)
           + of_int (-2) * PI / IZR (Z.of_nat len))
    with 0 by (simpl; unfold Rdiv; ring).
  unfold cis, c1. simpl. rewrite cos_0, sin_0. reflexivity.
Qed.

Lemma cmul_interchange (a b c d : complex R) :
  cmul (cmul a b) (cmul c d) = cmul (cmul a c) (cmul b d).
Proof. destruct a, b, c, d. unfold cmul; simpl. f_equal; ring. Qed.

Lemma twist_cancel (wlen wlen' : complex R) (D : list (complex R))
  (w w' : complex R) :
  cmul w w' = c1 -> cmul wlen wlen' = c1 ->
  twist wlen' w' (twist wlen w D) = D.
Proof.
  intros Hw Hl. revert w w' Hw; induction D as [|d D IH]; intros w w' Hw;
    cbn [twist].
  - reflexivity.
  - rewrite cmul_assoc, Hw, cmul_1_r. f_equal. apply IH.
    rewrite cmul_interchange, Hw, Hl. apply cmul_1_r.
Qed.

(** Decimation in frequency: the even and odd bins of a transform are the
    half-length transforms of the folded input. *)
Lemma dit_dif (two : R) (m : nat) :
  forall lo hi : list (complex R),
    length lo = (2 ^ m)%nat -> length hi = (2 ^ m)%nat ->
    evens (dit two (S m) (lo ++ hi)) = dit two m (zip_with cadd lo hi) /\
    odds (dit two (S m) (lo ++ hi))
    = dit two m (twist (twiddle two (2 ^ S m)) c1 (zip_with csub lo hi)).
Proof.
  induction m as [|m IH]; intros lo hi Hlo Hhi.
  - destruct lo as [|a [|? ?]]; try discriminate.
    destruct hi as [|b [|? ?]]; try discriminate.
    cbn. rewrite !cmul_1_r. auto.
  - assert (Hlo' : length lo = (2 * 2 ^ m)%nat) by exact Hlo.
    assert (Hhi' : length hi = (2 * 2 ^ m)%nat) by exact Hhi.
    destruct (evens_odds_app (2 ^ m) lo hi Hlo') as [Eev Eod].
    destruct (evens_odds_length lo (2 ^ m) Hlo') as [Lel Lol].
    destruct (evens_odds_length hi (2 ^ m) Hhi') as [Leh Loh].
    destruct (IH (evens lo) (evens hi) Lel Leh) as [IHe1 IHe2].
    destruct (IH (odds lo) (odds hi) Lol Loh) as [IHo1 IHo2].
    set (W1 := twiddle two (2 ^ S m)) in *.
    set (W2 := twiddle two (2 ^ S (S m))).
    assert (HW : cmul W2 W2 = W1) by apply twiddle_sq.
    change (dit two (S (S m)) (lo ++ hi))
      with (butterfly W2 (dit two (S m) (evens (lo ++ hi)))
                         (dit two (S m) (odds (lo ++ hi)))).
    rewrite Eev, Eod.
    set (E := dit two (S m) (evens lo ++ evens hi)) in *.
    set (O := dit two (S m) (odds lo ++ odds hi)) in *.
    assert (LE : length E = (2 * 2 ^ m)%nat).
    { unfold E. rewrite dit_length; [reflexivity|].
      rewrite length_app, Lel, Leh. simpl. lia. }
    assert (LO : length O = (2 * 2 ^ m)%nat).
    { unfold O. rewrite dit_length; [reflexivity|].
      rewrite length_app, Lol, Loh. simpl. lia. }
    unfold butterfly at 1 2.
    assert (LV : length (zip_with cadd E (twist W2 c1 O)) = (2 * 2 ^ m)%nat).
    { rewrite zip_with_length; rewrite ?twist_length; lia. }
    destruct (evens_odds_app (2 ^ m) _ (zip_with csub E (twist W2 c1 O)) LV)
      as [Sev Sod].
    rewrite Sev, Sod. clear Sev Sod.
    rewrite !evens_zip_with, !odds_zip_with, evens_twist, odds_twist, HW.
    rewrite IHe1, IHe2, IHo1, IHo2.
    split.
    + cbn [dit]. fold W1. rewrite !evens_zip_with, !odds_zip_with.
      reflexivity.
    + cbn [dit]. fold W1. fold W2.
      rewrite evens_twist, odds_twist, HW.
      rewrite !evens_zip_with, !odds_zip_with.
      rewrite (cmul_comm c1 W2), !twist_scale_w, dit_scale.
      unfold butterfly. rewrite twist_map_scale. reflexivity.
Qed.

Lemma sum_and_difference (h : R) (lo hi : list (complex R)) :
  length hi = length lo ->
  zip_with cadd (zip_with cadd lo hi) (zip_with csub lo hi)
  = map (cmul (Cplx 2 0)) lo /\
  zip_with csub (zip_with cadd lo hi) (zip_with csub lo hi)
  = map (cmul (Cplx 2 0)) hi.
Proof.
  revert hi; induction lo as [|a lo IH]; intros [|b hi] HL;
    try discriminate; cbn [zip_with map].
  - auto.
  - simpl in HL. destruct (IH hi ltac:(lia)) as [E1 E2]. rewrite E1, E2.
    split; f_equal; destruct a, b; unfold cadd, csub, cmul; simpl;
      f_equal; ring.
Qed.

(** The transform with the conjugate twiddles undoes the transform, up to
    the factor [2^m]. *)
Lemma dit_inverse (m : nat) :
  forall x : list (complex R),
    length x = (2 ^ m)%nat ->
    dit (of_int (-2)) m (dit (of_int 2) m x)
    = map (cmul (Cplx (IZR (Z.of_nat (2 ^ m))) 0)) x.
Proof.
  induction m as [|m IH]; intros x Hx.
  - cbn [dit]. rewrite <- (map_id x) at 1. apply map_ext. intros [a b].
    unfold cmul; simpl. f_equal; ring.
  - set (lo := firstn (2 ^ m) x). set (hi := skipn (2 ^ m) x).
    assert (Ex : x = lo ++ hi) by (symmetry; apply firstn_skipn).
    assert (Hlo : length lo = (2 ^ m)%nat)
      by (unfold lo; rewrite length_firstn, Hx; simpl; lia).
    assert (Hhi : length hi = (2 ^ m)%nat)
      by (unfold hi; rewrite length_skipn, Hx; simpl; lia).
    destruct (dit_dif (of_int 2) m lo hi Hlo Hhi) as [Dev Dod].
    rewrite <- Ex in Dev, Dod.
    change (dit (of_int (-2)) (S m) (dit (of_int 2) (S m) x))
      with (butterfly (twiddle (of_int (-2)) (2 ^ S m))
              (dit (of_int (-2)) m (evens (dit (of_int 2) (S m) x)))
              (dit (of_int (-2)) m (odds (dit (of_int 2) (S m) x)))).
    rewrite Dev, Dod.
    rewrite !IH
      by (rewrite ?twist_length, zip_with_length; lia).
    rewrite butterfly_scale. unfold butterfly.
    rewrite twist_cancel
      by (try apply cmul_1_r; apply twiddle_inverse).
    destruct (sum_and_difference 0 lo hi ltac:(lia)) as [E1 E2].
    rewrite E1, E2, <- map_app, <- Ex, map_map.
    apply map_ext. intros [a b]. rewrite IZR_pow2_S.
    unfold cmul; simpl. f_equal; ring.
Qed.

(** The programs' transforms in exact arithmetic. *)
Lemma ifft_fft_exact (m : nat) (x : list (complex R)) :
  length x = (2 ^ m)%nat ->
  TspToIr.simple_ifft (TspToIr.simple_fft x (2 ^ m)) (2 ^ m) = x.
Proof.
  intros Hx. rewrite simple_fft_dit by exact Hx.
  rewrite simple_ifft_dit by (apply dit_length; exact Hx).
  rewrite dit_inverse by exact Hx. rewrite map_map.
  rewrite <- (map_id x) at 2. apply map_ext. intros [a b].
  pose proof (IZR_pow2_pos m).
  unfold cdiv_int, cmul; simpl. f_equal; field; lra.
Qed.

End ExactAlgebra.

(** In double precision the round trip is not exact, and outside the range
    the programs work in (samples of magnitude about 1) it is not close
    either: on [1, 1e-30] the small entry is absorbed by the first butterfly
    and comes back as 0; on [1e308, 1e308] the first butterfly overflows and
    both entries come back infinite. *)
Lemma round_trip_binary64_extremes :
  let x := [Cplx 1 0; Cplx 1e-30 0]%float in
  let y := TspToIr.simple_ifft (F := float) (TspToIr.simple_fft x 2) 2 in
  y = [Cplx 1 0; Cplx 0 0]%float /\
  (abs (re (nth 1 y c0) - 1e-30) <=? 1e-9 * abs 1e-30)%float = false /\
  TspToIr.simple_ifft (F := float)
    (TspToIr.simple_fft [Cplx 1e308 0; Cplx 1e308 0]%float 2) 2
  = [Cplx infinity 0; Cplx infinity 0]%float.
Proof.
  vm_compute. repeat split; reflexivity.
Qed.

(** * Further properties *)

(** ** The WAV container *)

Section WavFacts.
Import Wav.
Local Open Scope Z_scope.

Lemma signed16_put16 (s : Z) :
  int16_range s ->
  signed 16 (le16 ((s mod 65536) mod 256) ((s mod 65536) / 256)) = s.
Proof.
  unfold int16_range, signed, le16. intros Hs.
  change (2 ^ (16 - 1)) with 32768. change (2 ^ 16) with 65536.
  destruct (Z.ltb_spec ((s mod 65536) mod 256 + 256 * ((s mod 65536) / 256))
              32768); Z.div_mod_to_equations; lia.
Qed.

Lemma signed32_put32 (v : Z) :
  int32_range v ->
  let u := v mod 4294967296 in
  signed 32 (le32 (u mod 256) ((u / 256) mod 256) ((u / 65536) mod 256)
               (u / 16777216)) = v.
Proof.
  unfold int32_range, signed, le32. intros Hv. cbv zeta.
  set (u := v mod 4294967296).
  change (2 ^ (32 - 1)) with 2147483648. change (2 ^ 32) with 4294967296.
  assert (E : u mod 256 + 256 * ((u / 256) mod 256
              + 256 * ((u / 65536) mod 256 + 256 * (u / 16777216))) = u)
    by (Z.div_mod_to_equations; lia).
  rewrite E. unfold u.
  destruct (Z.ltb_spec (v mod 4294967296) 2147483648);
    Z.div_mod_to_equations; lia.
Qed.

Lemma samples_of_put16 (samples : list Z) :
  Forall int16_range samples ->
  samples_of (flat_map put16 samples) = samples.
Proof.
  induction 1 as [|s samples Hs _ IH]; [reflexivity|].
  cbn [flat_map put16 app samples_of]. rewrite IH, signed16_put16 by exact Hs.
  reflexivity.
Qed.

Lemma flat_map_put16_length (samples : list Z) :
  length (flat_map put16 samples) = (2 * length samples)%nat.
Proof.
  induction samples as [|s samples IH]; [reflexivity|].
  cbn [flat_map put16 app length]. rewrite IH. lia.
Qed.

(** The first 44 bytes [write_wav] emits. *)
Lemma write_wav_split (samples : list Z) (num_samples fs : Z) :
  exists hdr : list Z,
    write_wav samples num_samples fs
    = hdr ++ flat_map put16 (firstn (Z.to_nat num_samples) samples) /\
    length hdr = 44%nat /\
    tag_at hdr 0 RIFF = true /\ tag_at hdr 8 WAVE = true /\
    tag_at hdr 12 fmt_ = true /\ tag_at hdr 36 data = true /\
    (int32_range fs -> i32_at hdr 24 = fs) /\
    (int32_range (num_samples * 2) -> i32_at hdr 40 = num_samples * 2).
Proof.
  eexists. split.
  - unfold write_wav. rewrite !app_assoc. reflexivity.
  - repeat split; try reflexivity.
    + intros Hfs. unfold i32_at, byte_at.
      cbn [nth app RIFF WAVE fmt_ data put32 put16 Nat.add].
      apply signed32_put32. exact Hfs.
    + intros Hn. unfold i32_at, byte_at.
      cbn [nth app RIFF WAVE fmt_ data put32 put16 Nat.add].
      apply signed32_put32. exact Hn.
Qed.

Lemma forallb_ext_in {A : Type} (f g : A -> bool) (l : list A) :
  (forall x, In x l -> f x = g x) -> forallb f l = forallb g l.
Proof.
  induction l as [|a l IH]; intros Hfg; [reflexivity|].
  cbn [forallb]. rewrite (Hfg a) by (left; reflexivity).
  rewrite IH; [reflexivity|]. intros x Hx. apply Hfg. right. exact Hx.
Qed.

Lemma byte_at_app (hdr body : list Z) (j : nat) :
  (j < length hdr)%nat -> byte_at (hdr ++ body) j = byte_at hdr j.
Proof. intros Hj. unfold byte_at. apply app_nth1. exact Hj. Qed.

Lemma tag_at_app (hdr body : list Z) (i : nat) (t : list Z) :
  (i + 4 <= length hdr)%nat -> tag_at (hdr ++ body) i t = tag_at hdr i t.
Proof.
  intros Hi. unfold tag_at. apply forallb_ext_in. intros [k b] Hin.
  apply in_combine_l in Hin. apply in_seq in Hin. cbn [fst snd].
  rewrite byte_at_app by lia. reflexivity.
Qed.

Lemma i32_at_app (hdr body : list Z) (i : nat) :
  (i + 4 <= length hdr)%nat -> i32_at (hdr ++ body) i = i32_at hdr i.
Proof.
  intros Hi. unfold i32_at. rewrite !byte_at_app by lia. reflexivity.
Qed.

(** [read_wav] on a file that begins with a 44-byte header. *)
Lemma read_wav_header (hdr body : list Z) :
  length hdr = 44%nat ->
  read_wav (Some (hdr ++ body)) =
  if negb (tag_at hdr 0 RIFF && tag_at hdr 8 WAVE
           && tag_at hdr 12 fmt_ && tag_at hdr 36 data) then None
  else
    let num_samples := Z.quot (i32_at hdr 40) 2 in
    if num_samples <? 0 then None
    else if (length body <? 2 * Z.to_nat num_samples)%nat then None
    else Some (samples_of (firstn (2 * Z.to_nat num_samples) body),
               i32_at hdr 24).
Proof.
  intros Hh. unfold read_wav.
  rewrite length_app, Hh.
  destruct (Nat.ltb_spec (44 + length body) 44) as [Hlt|_]; [lia|].
  rewrite !tag_at_app, !i32_at_app by (rewrite Hh; lia).
  replace (skipn 44 (hdr ++ body)) with body; [reflexivity|].
  rewrite <- Hh, skipn_app, Nat.sub_diag, skipn_all. reflexivity.
Qed.

(** Reading back what [write_wav] wrote gives the samples and the rate. *)
Lemma read_write_wav (samples : list Z) (fs : Z) :
  Forall int16_range samples -> int32_range fs ->
  Z.of_nat (length samples) * 2 <= 2147483647 ->
  read_wav (Some (write_wav samples (Z.of_nat (length samples)) fs))
  = Some (samples, fs).
Proof.
  intros Hs Hfs Hn.
  destruct (write_wav_split samples (Z.of_nat (length samples)) fs)
    as (hdr & E & Hh & T1 & T2 & T3 & T4 & Efs & En).
  rewrite Nat2Z.id, firstn_all in E.
  rewrite E, read_wav_header by exact Hh.
  rewrite T1, T2, T3, T4. cbn [andb negb].
  rewrite Efs by exact Hfs.
  rewrite En by (unfold int32_range; lia).
  rewrite Z.quot_mul by lia. cbv zeta.
  destruct (Z.ltb_spec (Z.of_nat (length samples)) 0) as [Hneg|_]; [lia|].
  rewrite Nat2Z.id, flat_map_put16_length.
  rewrite Nat.ltb_irrefl.
  rewrite <- flat_map_put16_length, firstn_all.
  rewrite samples_of_put16 by exact Hs. reflexivity.
Qed.

Lemma Forall_firstn_skipn {A : Type} (P : A -> Prop) (n : nat) (l : list A) :
  Forall P l -> Forall P (firstn n l) /\ Forall P (skipn n l).
Proof.
  revert l; induction n as [|n IH]; intros l Hl.
  - split; [constructor|exact Hl].
  - destruct l as [|a l]; [split; constructor|].
    inversion Hl as [|? ? Ha Hl']; subst.
    destruct (IH l Hl') as [F1 F2].
    split; [constructor; assumption|exact F2].
Qed.

Lemma samples_of_spec (bs : list Z) (k : nat) :
  Forall byte_range bs -> length bs = (2 * k)%nat ->
  length (samples_of bs) = k /\ Forall int16_range (samples_of bs).
Proof.
  revert bs; induction k as [|k IH]; intros bs Hb Hl.
  - destruct bs; try discriminate. split; [reflexivity|constructor].
  - destruct bs as [|b0 [|b1 bs]]; simpl in Hl; try lia.
    inversion Hb as [|? ? Hb0 Hb']; subst.
    inversion Hb' as [|? ? Hb1 Hb'']; subst.
    destruct (IH bs Hb'' ltac:(lia)) as [L R].
    cbn [samples_of length]. split; [lia|].
    constructor; [|exact R].
    unfold int16_range, signed, le16, byte_range in *.
    change (2 ^ (16 - 1)) with 32768. change (2 ^ 16) with 65536.
    destruct (Z.ltb_spec (b0 + 256 * b1) 32768); lia.
Qed.

Lemma Some_pair_inj {A B : Type} (a c : A) (b d : B) :
  Some (a, b) = Some (c, d) -> a = c /\ b = d.
Proof. intros E. inversion E. auto. Qed.

(** What a successful read guarantees about its results. *)
Lemma read_wav_success (bs : list Z) (samples : list Z) (fs : Z) :
  Forall byte_range bs ->
  read_wav (Some bs) = Some (samples, fs) ->
  Z.of_nat (length samples) = Z.quot (i32_at bs 40) 2 /\
  (44 + 2 * length samples <= length bs)%nat /\
  Forall int16_range samples /\
  int32_range fs.
Proof.
  intros Hb. unfold read_wav.
  destruct (Nat.ltb_spec (length bs) 44) as [|H44]; [discriminate|].
  destruct (negb _); [discriminate|].
  destruct (Z.ltb_spec (Z.quot (i32_at bs 40) 2) 0) as [|Hn]; [discriminate|].
  destruct (Nat.ltb_spec (length (skipn 44 bs))
              (2 * Z.to_nat (Z.quot (i32_at bs 40) 2))) as [|Hlen];
    [discriminate|].
  intros E. apply Some_pair_inj in E. destruct E as [Es Ef].
  rewrite length_skipn in Hlen.
  destruct (samples_of_spec
              (firstn (2 * Z.to_nat (Z.quot (i32_at bs 40) 2)) (skipn 44 bs))
              (Z.to_nat (Z.quot (i32_at bs 40) 2))) as [L R].
  - apply Forall_firstn_skipn, Forall_firstn_skipn. exact Hb.
  - rewrite length_firstn, length_skipn. lia.
  - rewrite Es in L, R. split; [|split; [|split]].
    + rewrite L. lia.
    + lia.
    + exact R.
    + subst fs. unfold i32_at, signed, le32, int32_range.
      change (2 ^ (32 - 1)) with 2147483648.
      change (2 ^ 32) with 4294967296.
      assert (B : forall j, byte_range (byte_at bs j)).
      { intros j. unfold byte_at.
        destruct (Nat.lt_ge_cases j (length bs)) as [Hj|Hj].
        - rewrite Forall_forall in Hb. apply Hb, nth_In. exact Hj.
        - rewrite nth_overflow by exact Hj. unfold byte_range. lia. }
      pose proof (B 24%nat) as B0. pose proof (B (24 + 1)%nat) as B1.
      pose proof (B (24 + 2)%nat) as B2. pose proof (B (24 + 3)%nat) as B3.
      unfold byte_range in *.
      match goal with
      | |- context [if ?a <? ?b then _ else _] => destruct (Z.ltb_spec a b)
      end; lia.
Qed.

End WavFacts.

(** X1.  A file written by [write_wav] is read back by [read_wav] as the
    same samples at the same rate, whenever the samples fit 16 bits, the rate
    fits 32 bits and the data section is shorter than [2^31] bytes. *)
Theorem X1_wav_round_trip :
  forall (samples : list Z) (fs : Z),
    Forall int16_range samples -> int32_range fs ->
    (Z.of_nat (length samples) * 2 <= 2147483647)%Z ->
    Wav.read_wav
      (Some (Wav.write_wav samples (Z.of_nat (length samples)) fs))
    = Some (samples, fs).
Proof.
  intros samples fs. apply read_write_wav.
Qed.

Lemma X1_wav_round_trip_witness :
  Wav.read_wav (Some (Wav.write_wav [100; -200; 32767; -32768]%Z 4 48000))
  = Some ([100; -200; 32767; -32768]%Z, 48000%Z).
Proof.
  apply (X1_wav_round_trip [100; -200; 32767; -32768]%Z 48000).
  - repeat constructor; unfold int16_range; lia.
  - unfold int32_range; lia.
  - simpl; lia.
Defined.

(** X2.  When [read_wav] succeeds on a file of bytes, the number of samples
    is half the data size of the header (rounded toward zero), the file holds
    that many samples after its 44-byte header, every sample fits 16 bits and
    the rate fits 32 bits. *)
Theorem X2_read_wav_success :
  forall (bs samples : list Z) (fs : Z),
    Forall byte_range bs ->
    Wav.read_wav (Some bs) = Some (samples, fs) ->
    Z.of_nat (length samples) = Z.quot (Wav.i32_at bs 40) 2 /\
    (44 + 2 * length samples <= length bs)%nat /\
    Forall int16_range samples /\
    int32_range fs.
Proof.
  intros bs samples fs. apply read_wav_success.
Qed.

Lemma X2_read_wav_success_witness :
  let bs := Wav.write_wav [100; -200]%Z 2 48000 in
  Z.of_nat (length [100; -200]%Z) = Z.quot (Wav.i32_at bs 40) 2 /\
  (44 + 2 * length [100; -200]%Z <= length bs)%nat /\
  Forall int16_range [100; -200]%Z /\
  int32_range 48000.
Proof.
  apply (X2_read_wav_success (Wav.write_wav [100; -200]%Z 2 48000)
           [100; -200]%Z 48000).
  - let l := eval vm_compute in (Wav.write_wav [100; -200]%Z 2 48000) in
    change (Forall byte_range l).
    repeat (constructor; [unfold byte_range; lia|]). constructor.
  - vm_compute. reflexivity.
Defined.

(** ** What [read_wav] looks at *)

Section WavFormat.
Import Wav.
Local Open Scope nat_scope.

Lemma tag_at_ext (bs bs' : list Z) (i : nat) (t : list Z) :
  (forall j, i <= j < i + 4 -> byte_at bs j = byte_at bs' j) ->
  tag_at bs i t = tag_at bs' i t.
Proof.
  intros Hj. unfold tag_at. apply forallb_ext_in. intros [k b] Hin.
  apply in_combine_l in Hin. apply in_seq in Hin. cbn [fst snd].
  rewrite Hj by lia. reflexivity.
Qed.

Lemma i32_at_ext (bs bs' : list Z) (i : nat) :
  (forall j, i <= j < i + 4 -> byte_at bs j = byte_at bs' j) ->
  i32_at bs i = i32_at bs' i.
Proof.
  intros Hj. unfold i32_at. rewrite !Hj by lia. reflexivity.
Qed.

Lemma read_wav_ignores_format (bs bs' : list Z) :
  length bs = length bs' ->
  (forall i, header_byte_used i = true -> nth i bs 0%Z = nth i bs' 0%Z) ->
  read_wav (Some bs) = read_wav (Some bs').
Proof.
  intros Hl Hu. unfold read_wav. rewrite <- Hl.
  assert (U : forall a b j, a <= j < b ->
            (forall i, a <= i < b -> header_byte_used i = true) ->
            byte_at bs j = byte_at bs' j).
  { intros a b j Hj Hab. apply Hu, (Hab j Hj). }
  assert (R : forall lo hi i, lo <= i < hi -> hi <= 44 ->
            forallb header_byte_used (seq lo (hi - lo)) = true ->
            header_byte_used i = true).
  { intros lo hi i Hi _ Hf. rewrite forallb_forall in Hf. apply Hf.
    apply in_seq. lia. }
  rewrite (tag_at_ext bs bs' 0), (tag_at_ext bs bs' 8),
    (tag_at_ext bs bs' 12), (tag_at_ext bs bs' 36),
    (i32_at_ext bs bs' 24), (i32_at_ext bs bs' 40);
    try (intros j Hj; apply Hu;
         match goal with
         | H : ?a <= j < ?b |- _ => apply (R a b j H)
         end; [lia|reflexivity]).
  replace (skipn 44 bs') with (skipn 44 bs); [reflexivity|].
  apply (nth_ext _ _ 0%Z 0%Z).
  - rewrite !length_skipn. lia.
  - intros n _. rewrite !nth_skipn. apply Hu.
    unfold header_byte_used.
    destruct (Nat.leb_spec 36 (44 + n)); [|lia].
    apply orb_true_r.
Qed.

End WavFormat.

(** X3.  [read_wav] never looks at the chunk sizes, the format tag, the
    channel count, the byte rate, the block alignment or the sample width:
    two files of the same length that agree on every other byte read the
    same.  A stereo or an 8-bit file is taken for 16-bit mono. *)
Theorem X3_read_wav_ignores_format :
  forall bs bs' : list Z,
    length bs = length bs' ->
    (forall i : nat,
        header_byte_used i = true -> nth i bs 0%Z = nth i bs' 0%Z) ->
    Wav.read_wav (Some bs) = Wav.read_wav (Some bs').
Proof.
  intros bs bs'. apply read_wav_ignores_format.
Qed.

Lemma X3_read_wav_ignores_format_witness :
  Wav.read_wav (Some (Wav.write_wav [100; -200]%Z 2 48000))
  = Wav.read_wav (Some (upd 22 2%Z (Wav.write_wav [100; -200]%Z 2 48000))).
Proof.
  apply (X3_read_wav_ignores_format (Wav.write_wav [100; -200]%Z 2 48000)
           (upd 22 2%Z (Wav.write_wav [100; -200]%Z 2 48000))).
  - rewrite upd_length. reflexivity.
  - intros i Hi. rewrite nth_upd_other; [reflexivity|].
    intros E. subst i. discriminate Hi.
Defined.

(** ** Transform sizes, buffers and the bit-reversal pass *)

Section TransformSizes.
Context {F : Type} `{Arith F}.
Import TspToIr.
Local Open Scope nat_scope.

Lemma fft_size_loop_minimal (max_len fuel k : nat) :
  max_len < fuel + 2 ^ k ->
  (k = 0 \/ 2 ^ (k - 1) < max_len) ->
  exists m : nat,
    fft_size_loop fuel (2 ^ k) max_len = 2 ^ m /\
    max_len <= 2 ^ m /\ (m = 0 \/ 2 ^ (m - 1) < max_len).
Proof.
  revert k; induction fuel as [|fuel IH]; intros k Hf Hk;
    cbn [fft_size_loop].
  - exists k. repeat split; [lia|exact Hk].
  - destruct (Nat.ltb_spec (2 ^ k) max_len) as [Hlt|Hge].
    + change (2 * 2 ^ k) with (2 ^ S k). apply IH.
      * change (2 ^ S k) with (2 * 2 ^ k). pose proof (pow2_pos k). lia.
      * right. replace (S k - 1) with k by lia. exact Hlt.
    + exists k. repeat split; [exact Hge|exact Hk].
Qed.

(** The transform size is the smallest power of two that covers both
    inputs. *)
Lemma fft_size_minimal (tsp_len response_len : nat) :
  exists m : nat,
    fft_size tsp_len response_len = 2 ^ m /\
    Nat.max tsp_len response_len <= 2 ^ m /\
    (m = 0 \/ 2 ^ (m - 1) < Nat.max tsp_len response_len).
Proof.
  unfold fft_size.
  replace (if response_len <? tsp_len then tsp_len else response_len)
    with (Nat.max tsp_len response_len)
    by (destruct (Nat.ltb_spec response_len tsp_len); lia).
  apply (fft_size_loop_minimal _ _ 0); [simpl; lia|left; reflexivity].
Qed.

Lemma load_loop_prefix (samples : list Z) (N k : nat) :
  length samples <= N ->
  nth k (load_loop samples 0 0 (length samples) (repeat c0 N)) c0 =
  if k <? length samples then normalized samples k else c0.
Proof.
  intros HN. rewrite load_loop_nth by (rewrite repeat_length; lia).
  rewrite nth_repeat_c0. reflexivity.
Qed.

(** Neither input loses a sample to the padding. *)
Lemma deconvolve_buffers (tsp_samples response_samples : list Z) (k : nat) :
  let tsp_len := length tsp_samples in
  let response_len := length response_samples in
  let N := fft_size tsp_len response_len in
  let start := start_idx tsp_len response_len in
  length (tsp_buffer tsp_samples N) = N /\
  length (response_buffer tsp_len response_samples N) = N /\
  nth k (tsp_buffer tsp_samples N) c0 =
    (if k <? tsp_len then normalized tsp_samples k else c0) /\
  nth k (response_buffer tsp_len response_samples N) c0 =
    (if k <? response_len - start
     then normalized response_samples (start + k) else c0).
Proof.
  intros tsp_len response_len N start.
  destruct (fft_size_minimal tsp_len response_len) as (m & E & Hm & _).
  fold N in E.
  assert (HN : tsp_len <= N /\ response_len <= N) by lia.
  unfold tsp_buffer, response_buffer.
  rewrite !load_loop_length, !repeat_length.
  repeat split.
  - apply load_loop_prefix. lia.
  - fold (response_buffer tsp_len response_samples N).
    rewrite response_buffer_nth. fold response_len. fold start.
    unfold copy_len. fold response_len. fold start.
    destruct (Nat.ltb_spec (response_len - start) N); [reflexivity|].
    replace (response_len - start) with N by lia. reflexivity.
Qed.

Lemma butterfly_loop_length (x : list (complex F)) (i half : nat)
  (wlen w : complex F) (j count : nat) :
  length (butterfly_loop x i half wlen w j count) = length x.
Proof.
  revert x w j; induction count as [|c IH]; intros x w j;
    cbn [butterfly_loop].
  - reflexivity.
  - rewrite IH, !upd_length. reflexivity.
Qed.

Lemma block_loop_length (fuel : nat) (x : list (complex F)) (n len : nat)
  (wlen : complex F) (i : nat) :
  length (block_loop fuel x n len wlen i) = length x.
Proof.
  revert x i; induction fuel as [|f IH]; intros x i; cbn [block_loop].
  - reflexivity.
  - destruct (i <? n); [|reflexivity].
    rewrite IH. apply butterfly_loop_length.
Qed.

Lemma stage_loop_length (fuel : nat) (two : F) (x : list (complex F))
  (n len : nat) :
  length (stage_loop fuel two x n len) = length x.
Proof.
  revert x len; induction fuel as [|f IH]; intros x len; cbn [stage_loop].
  - reflexivity.
  - destruct (len <=? n); [|reflexivity].
    rewrite IH. apply block_loop_length.
Qed.

(** Both transforms work in place: whatever [n] is, the buffer keeps its
    length. *)
Lemma transform_length (x : list (complex F)) (n : nat) :
  length (simple_fft x n) = length x /\
  length (simple_ifft x n) = length x.
Proof.
  unfold simple_fft, simple_ifft. split.
  - rewrite stage_loop_length. apply bitrev_loop_length.
  - rewrite length_app, length_map, <- length_app, firstn_skipn.
    rewrite stage_loop_length. apply bitrev_loop_length.
Qed.

(** The first loop of the transforms puts [x[rev p]] at position [p], where
    [rev] reverses the [m] bits of the index, and is its own inverse. *)
Lemma bit_reversal_pass (m : nat) (x : list (complex F)) :
  length x = 2 ^ m ->
  (forall p, p < 2 ^ m ->
     nth p (bitrev_loop (2 ^ m) x 1 0 (2 ^ m - 1)) c0 = nth (bitrev m p) x c0)
  /\
  bitrev_loop (2 ^ m) (bitrev_loop (2 ^ m) x 1 0 (2 ^ m - 1)) 1 0 (2 ^ m - 1)
  = x.
Proof.
  intros Hx. split.
  - intros p Hp. rewrite bitrev_loop_all by exact Hx.
    apply bit_reverse_nth; assumption.
  - rewrite (bitrev_loop_all m x Hx).
    pose proof (bit_reverse_length m x Hx) as Hb.
    rewrite (bitrev_loop_all m _ Hb).
    apply (nth_ext _ _ c0 c0).
    + rewrite bit_reverse_length by exact Hb. symmetry. exact Hx.
    + intros p Hp. rewrite bit_reverse_length in Hp by exact Hb.
      rewrite bit_reverse_nth by assumption.
      rewrite bit_reverse_nth by (try assumption; apply bitrev_bound).
      rewrite bitrev_involutive by exact Hp. reflexivity.
Qed.

End TransformSizes.

(** X4.  The transform size tsp_to_ir.c chooses is the smallest power of
    two that is at least as long as both recordings (1 when both are
    empty). *)
Theorem X4_fft_size_minimal :
  forall tsp_len response_len : nat,
    exists m : nat,
      TspToIr.fft_size tsp_len response_len = (2 ^ m)%nat /\
      (Nat.max tsp_len response_len <= 2 ^ m)%nat /\
      (m = 0%nat \/ (2 ^ (m - 1) < Nat.max tsp_len response_len)%nat).
Proof.
  exact fft_size_minimal.
Qed.

(** X5.  With that size neither copy loop of tsp_to_ir.c truncates: both
    buffers have [N] entries, the excitation buffer holds every excitation
    sample and the response buffer every response sample from the chosen
    offset on, each divided by 32768, and zeros after them. *)
Theorem X5_deconvolve_buffers :
  forall (F : Type) (A : Arith F) (tsp_samples response_samples : list Z)
    (k : nat),
    let tsp_len := length tsp_samples in
    let response_len := length response_samples in
    let N := TspToIr.fft_size tsp_len response_len in
    let start := TspToIr.start_idx tsp_len response_len in
    length (TspToIr.tsp_buffer tsp_samples N) = N /\
    length (TspToIr.response_buffer tsp_len response_samples N) = N /\
    nth k (TspToIr.tsp_buffer tsp_samples N) c0 =
      (if (k <? tsp_len)%nat then normalized tsp_samples k else c0) /\
    nth k (TspToIr.response_buffer tsp_len response_samples N) c0 =
      (if (k <? response_len - start)%nat
       then normalized response_samples (start + k) else c0).
Proof.
  intros F A tsp_samples response_samples k.
  apply deconvolve_buffers.
Qed.

(** ** The accesses and counters of the transforms *)

Section CheckedTransforms.
Context {F : Type} `{Arith F}.
Local Open Scope nat_scope.

Lemma checked_get (x : list (complex F)) (i : nat) :
  i < length x -> Checked.get x i = Some (nth i x c0).
Proof. intros Hi. unfold Checked.get. apply nth_error_nth'. exact Hi. Qed.

Lemma checked_set (x : list (complex F)) (i : nat) (v : complex F) :
  i < length x -> Checked.set x i v = Some (upd i v x).
Proof.
  intros Hi. unfold Checked.set.
  destruct (Nat.ltb_spec i (length x)); [reflexivity|lia].
Qed.

Lemma checked_int (v : nat) :
  (Z.of_nat v <= Checked.INT_MAX)%Z -> Checked.int v = Some v.
Proof.
  intros Hv. unfold Checked.int.
  destruct (Z.leb_spec (Z.of_nat v) Checked.INT_MAX); [reflexivity|lia].
Qed.

Lemma checked_int_overflow (v : nat) :
  (Checked.INT_MAX < Z.of_nat v)%Z -> Checked.int v = None.
Proof.
  intros Hv. unfold Checked.int.
  destruct (Z.leb_spec (Z.of_nat v) Checked.INT_MAX); [lia|reflexivity].
Qed.

Lemma pow2_Z (k : nat) : Z.of_nat (2 ^ k) = (2 ^ Z.of_nat k)%Z.
Proof. rewrite Nat2Z.inj_pow. reflexivity. Qed.

Lemma pow2_int (k : nat) :
  k <= 30 -> (Z.of_nat (2 ^ k) <= Checked.INT_MAX)%Z.
Proof.
  intros Hk. rewrite pow2_Z.
  apply Z.le_trans with (2 ^ 30)%Z.
  - apply Z.pow_le_mono_r; lia.
  - vm_compute. discriminate.
Qed.

Lemma checked_butterfly_loop (count : nat) :
  forall (x : list (complex F)) (i half : nat) (wlen w : complex F) (j : nat),
    i + j + count + half <= length x ->
    Checked.butterfly_loop x i half wlen w j count
    = Some (TspToIr.butterfly_loop x i half wlen w j count).
Proof.
  induction count as [|c IH]; intros x i half wlen w j Hb;
    cbn [Checked.butterfly_loop TspToIr.butterfly_loop].
  - reflexivity.
  - rewrite !checked_get by lia. cbn [Checked.bind].
    rewrite checked_set by lia. cbn [Checked.bind].
    rewrite checked_set by (rewrite upd_length; lia). cbn [Checked.bind].
    apply IH. rewrite !upd_length. lia.
Qed.

Lemma checked_block_loop (fuel : nat) :
  forall (x : list (complex F)) (n len : nat) (wlen : complex F) (a b : nat),
    n = b * len -> n <= length x -> (Z.of_nat n <= Checked.INT_MAX)%Z ->
    Checked.block_loop fuel x n len wlen (a * len)
    = Some (TspToIr.block_loop fuel x n len wlen (a * len)).
Proof.
  induction fuel as [|f IH]; intros x n len wlen a b Hn Hx Hmax;
    cbn [Checked.block_loop TspToIr.block_loop].
  - reflexivity.
  - destruct (Nat.ltb_spec (a * len) n) as [Hlt|Hge]; [|reflexivity].
    assert (Hab : S a * len <= n).
    { rewrite Hn in *. apply Nat.mul_le_mono_r.
      destruct (Nat.lt_ge_cases a b) as [Hlt'|Hge']; [exact Hlt'|].
      pose proof (Nat.mul_le_mono_r b a len Hge'). lia. }
    assert (Hh : len / 2 + len / 2 <= len)
      by (pose proof (Nat.Div0.mul_div_le len 2); lia).
    rewrite checked_butterfly_loop by lia. cbn [Checked.bind].
    rewrite checked_int by lia. cbn [Checked.bind].
    replace (a * len + len) with (S a * len) by lia.
    apply (IH _ n len wlen (S a) b); try assumption.
    rewrite butterfly_loop_length. exact Hx.
Qed.

Lemma pow2_le_inv (s m : nat) : 2 ^ s <= 2 ^ m -> s <= m.
Proof. intros Hle. apply (Nat.pow_le_mono_r_iff 2); [lia|exact Hle]. Qed.

Lemma pow2_split (s m : nat) : s <= m -> 2 ^ m = 2 ^ (m - s) * 2 ^ s.
Proof.
  intros Hs. rewrite <- Nat.pow_add_r. f_equal. lia.
Qed.

Lemma checked_stage_loop (two : F) (m : nat) (fuel : nat) :
  forall (x : list (complex F)) (s len : nat),
    m <= 29 -> len = 2 ^ s -> length x = 2 ^ m ->
    Checked.stage_loop fuel two x (2 ^ m) len
    = Some (TspToIr.stage_loop fuel two x (2 ^ m) len).
Proof.
  induction fuel as [|f IH]; intros x s len Hm Hlen Hx;
    cbn [Checked.stage_loop TspToIr.stage_loop].
  - reflexivity.
  - destruct (Nat.leb_spec len (2 ^ m)) as [Hle|Hgt]; [|reflexivity].
    assert (Hs : s <= m) by (apply pow2_le_inv; rewrite <- Hlen; exact Hle).
    rewrite (checked_block_loop _ _ _ _ _ 0 (2 ^ (m - s)))
      by (rewrite ?Hlen, ?Hx; try apply pow2_split; try apply pow2_int; lia).
    cbn [Checked.bind].
    rewrite checked_int
      by (rewrite Hlen; change (2 * 2 ^ s) with (2 ^ S s);
          apply pow2_int; lia).
    cbn [Checked.bind].
    apply (IH _ (S s)); try assumption.
    + rewrite Hlen. reflexivity.
    + rewrite block_loop_length. exact Hx.
Qed.

(** With [n = 2^30] the last [len <<= 1] leaves the range of [int]. *)
Lemma checked_stage_loop_overflow (two : F) (m : nat) (fuel : nat) :
  forall (x : list (complex F)) (s len : nat),
    m = 30 -> len = 2 ^ s -> s <= m -> m - s < fuel -> length x = 2 ^ m ->
    Checked.stage_loop fuel two x (2 ^ m) len = None.
Proof.
  induction fuel as [|f IH]; intros x s len Hm Hlen Hs Hf Hx;
    cbn [Checked.stage_loop]; [lia|].
  destruct (Nat.leb_spec len (2 ^ m)) as [Hle|Hgt].
  - rewrite (checked_block_loop _ _ _ _ _ 0 (2 ^ (m - s)))
      by (rewrite ?Hlen, ?Hx; try apply pow2_split; try apply pow2_int; lia).
    cbn [Checked.bind].
    destruct (Nat.eq_dec s m) as [Es|Hne].
    + rewrite checked_int_overflow; [reflexivity|].
      rewrite Hlen. change (2 * 2 ^ s) with (2 ^ S s).
      rewrite pow2_Z, Es, Hm. vm_compute. reflexivity.
    + rewrite checked_int
        by (rewrite Hlen; change (2 * 2 ^ s) with (2 ^ S s);
            apply pow2_int; lia).
      cbn [Checked.bind].
      apply (IH _ (S s)); try assumption; try lia.
      * rewrite Hlen. reflexivity.
      * rewrite block_loop_length. exact Hx.
  - exfalso. rewrite Hlen in Hgt.
    pose proof (Nat.pow_le_mono_r 2 s m ltac:(lia) Hs). lia.
Qed.

Lemma checked_bitrev_loop (m : nat) :
  forall (count i : nat) (x : list (complex F)),
    1 <= i -> i + count = 2 ^ S m -> length x = 2 ^ S m ->
    Checked.bitrev_loop (2 ^ S m) x i (bitrev (S m) (i - 1)) count
    = Some (TspToIr.bitrev_loop (2 ^ S m) x i (bitrev (S m) (i - 1)) count).
Proof.
  induction count as [|count IH]; intros i x Hi Hc Hx.
  - reflexivity.
  - cbn [Checked.bitrev_loop TspToIr.bitrev_loop].
    replace (Nat.shiftr (2 ^ S m) 1) with (topbit (S m))
      by (symmetry; rewrite Nat.shiftr_div_pow2, Nat.pow_1_r;
          change (2 ^ S m) with (2 * 2 ^ m);
          rewrite Nat.mul_comm; apply Nat.div_mul; lia).
    replace (S (Nat.log2 (topbit (S m)))) with (S m)
      by (simpl topbit; rewrite Nat.log2_pow2 by lia; reflexivity).
    pose proof (carry_loop_spec (S m) (bitrev (S m) (i - 1))
                  (bitrev_bound _ _)) as Ec.
    destruct (TspToIr.carry_loop (S m) (bitrev (S m) (i - 1)) (topbit (S m)))
      as [j' bit'].
    cbn [fst snd] in Ec. rewrite Ec.
    rewrite <- bitrev_succ by lia.
    replace (S (i - 1)) with i by lia.
    remember (bitrev (S m) i) as j eqn:Ej.
    assert (Hj : j < 2 ^ S m) by (rewrite Ej; apply bitrev_bound).
    assert (Esi : S i - 1 = i) by lia.
    destruct (Nat.ltb_spec i j) as [Hlt|Hge].
    + rewrite !checked_get by lia. cbn [Checked.bind].
      rewrite checked_set by lia. cbn [Checked.bind].
      rewrite checked_set by (rewrite upd_length; lia). cbn [Checked.bind].
      match goal with
      | |- Checked.bitrev_loop _ ?x' _ _ _ = _ =>
          pose proof (IH (S i) x') as IH'
      end.
      rewrite Esi, <- Ej in IH'. apply IH'; try lia.
      rewrite !upd_length. exact Hx.
    + cbn [Checked.bind].
      pose proof (IH (S i) x) as IH'.
      rewrite Esi, <- Ej in IH'. apply IH'; lia.
Qed.

Lemma checked_bitrev_all (m : nat) (x : list (complex F)) :
  length x = 2 ^ m ->
  Checked.bitrev_loop (2 ^ m) x 1 0 (2 ^ m - 1)
  = Some (TspToIr.bitrev_loop (2 ^ m) x 1 0 (2 ^ m - 1)).
Proof.
  intros Hx. destruct m as [|m]; [reflexivity|].
  pose proof (checked_bitrev_loop m (2 ^ S m - 1) 1 x) as E.
  change (1 - 1) with 0 in E. rewrite bitrev_0 in E.
  pose proof (pow2_pos (S m)).
  apply E; [lia|lia|exact Hx].
Qed.

(** On a buffer of [2^m] entries, [m <= 29], no access of the transforms is
    out of range and no counter overflows: they return what the unchecked
    loops compute. *)
Lemma checked_transforms (m : nat) (x : list (complex F)) :
  m <= 29 -> length x = 2 ^ m ->
  Checked.simple_fft x (2 ^ m) = Some (TspToIr.simple_fft x (2 ^ m)) /\
  Checked.simple_ifft x (2 ^ m) = Some (TspToIr.simple_ifft x (2 ^ m)).
Proof.
  intros Hm Hx.
  unfold Checked.simple_fft, Checked.simple_ifft, TspToIr.simple_fft,
    TspToIr.simple_ifft.
  rewrite checked_bitrev_all by exact Hx. cbn [Checked.bind].
  assert (Lb : length (TspToIr.bitrev_loop (2 ^ m) x 1 0 (2 ^ m - 1)) = 2 ^ m)
    by (rewrite bitrev_loop_length; exact Hx).
  split.
  - apply (checked_stage_loop _ m _ _ 1); [exact Hm|reflexivity|exact Lb].
  - rewrite (checked_stage_loop _ m _ _ 1) by (try reflexivity; assumption).
    cbn [Checked.bind].
    rewrite stage_loop_length, Lb, Nat.leb_refl. reflexivity.
Qed.

(** With [2^30] entries the stage counter [len] overflows. *)
Lemma checked_transforms_overflow (m : nat) (x : list (complex F)) :
  m = 30 -> length x = 2 ^ m ->
  Checked.simple_fft x (2 ^ m) = None /\
  Checked.simple_ifft x (2 ^ m) = None.
Proof.
  intros Hm Hx.
  unfold Checked.simple_fft, Checked.simple_ifft.
  rewrite checked_bitrev_all by exact Hx. cbn [Checked.bind].
  assert (Lb : length (TspToIr.bitrev_loop (2 ^ m) x 1 0 (2 ^ m - 1)) = 2 ^ m)
    by (rewrite bitrev_loop_length; exact Hx).
  assert (Hf : m - 1 < S (Nat.log2 (2 ^ m)))
    by (rewrite Nat.log2_pow2 by lia; lia).
  rewrite !(checked_stage_loop_overflow _ m _ _ 1)
    by (try reflexivity; try assumption; lia).
  split; reflexivity.
Qed.

(** With three entries and [n = 3] the second block of the first stage
    reads [x[3]]. *)
Lemma checked_transforms_three (a b c : complex F) :
  Checked.simple_fft [a; b; c] 3 = None /\
  Checked.simple_ifft [a; b; c] 3 = None.
Proof. split; reflexivity. Qed.

End CheckedTransforms.

(** X6.  On a buffer of [2^m] entries with [m <= 29], every access [x[i]]
    of [simple_fft] and [simple_ifft] falls inside the buffer and no [int]
    counter overflows: the loops with checked accesses return the result of
    the loops as embedded, which has the length of the buffer.  The bounds
    are needed: with [2^30] entries the counter [len] of the stage loop
    overflows on its last [len <<= 1], and with a size that is not a power of
    two (three entries, [n = 3]) the butterflies read and write past the
    buffer. *)
Theorem X6_transform_in_bounds :
  forall (F : Type) (A : Arith F),
    (forall (m : nat) (x : list (complex F)),
        (m <= 29)%nat -> length x = (2 ^ m)%nat ->
        Checked.simple_fft x (2 ^ m) = Some (TspToIr.simple_fft x (2 ^ m)) /\
        Checked.simple_ifft x (2 ^ m)
        = Some (TspToIr.simple_ifft x (2 ^ m)) /\
        length (TspToIr.simple_fft x (2 ^ m)) = (2 ^ m)%nat /\
        length (TspToIr.simple_ifft x (2 ^ m)) = (2 ^ m)%nat)
    /\
    (forall x : list (complex F),
        length x = (2 ^ 30)%nat ->
        Checked.simple_fft x (2 ^ 30) = None /\
        Checked.simple_ifft x (2 ^ 30) = None)
    /\
    (forall a b c : complex F,
        Checked.simple_fft [a; b; c] 3 = None /\
        Checked.simple_ifft [a; b; c] 3 = None).
Proof.
  intros F A. split; [|split].
  - intros m x Hm Hx.
    destruct (checked_transforms m x Hm Hx) as [E1 E2].
    destruct (transform_length x (2 ^ m)) as [L1 L2].
    rewrite L1, L2. repeat split; assumption.
  - intros x Hx. apply checked_transforms_overflow; [reflexivity|exact Hx].
  - apply checked_transforms_three.
Qed.

Lemma X6_transform_in_bounds_witness :
  let x := [Cplx 1 0; Cplx 2 0; Cplx 3 0; Cplx 4 0]%float in
  Checked.simple_fft (F := float) x (2 ^ 2)
  = Some (TspToIr.simple_fft x (2 ^ 2)) /\
  Checked.simple_fft (F := float) [Cplx 1 0; Cplx 2 0; Cplx 3 0]%float 3
  = None.
Proof.
  intros x. split.
  - apply (proj1 (X6_transform_in_bounds float binary64) 2%nat x).
    + lia.
    + reflexivity.
  - apply (proj2 (proj2 (X6_transform_in_bounds float binary64))).
Defined.

(** X7.  The first loop of the transforms is the bit-reversal permutation:
    on a buffer of [2^m] entries it leaves [x[rev p]] at position [p], [rev]
    reversing the [m] bits of the index, and a second pass restores the
    buffer. *)
Theorem X7_bit_reversal_pass :
  forall (F : Type) (A : Arith F) (m : nat) (x : list (complex F)),
    length x = (2 ^ m)%nat ->
    (forall p : nat, (p < 2 ^ m)%nat ->
       nth p (TspToIr.bitrev_loop (2 ^ m) x 1 0 (2 ^ m - 1)) c0
       = nth (bitrev m p) x c0)
    /\
    TspToIr.bitrev_loop (2 ^ m)
      (TspToIr.bitrev_loop (2 ^ m) x 1 0 (2 ^ m - 1)) 1 0 (2 ^ m - 1)
    = x.
Proof.
  intros F A. exact bit_reversal_pass.
Qed.

Lemma X7_bit_reversal_pass_witness :
  let x := [Cplx 0 0; Cplx 1 0; Cplx 2 0; Cplx 3 0]%float in
  nth 1 (TspToIr.bitrev_loop (F := float) 4 x 1 0 3) c0 = Cplx 2%float 0%float
  /\
  TspToIr.bitrev_loop 4 (TspToIr.bitrev_loop (F := float) 4 x 1 0 3) 1 0 3
  = x.
Proof.
  intros x.
  destruct (X7_bit_reversal_pass float binary64 2 x eq_refl) as [Hp Hi].
  split; [|exact Hi].
  apply (Hp 1%nat). simpl. lia.
Defined.

(** ** The transforms as sums *)

Section TransformSums.
Local Open Scope R_scope.

Lemma cadd_0_l (a : complex R) : cadd c0 a = a.
Proof. destruct a. unfold cadd, c0; simpl. f_equal; ring. Qed.

Lemma cadd_shuffle (a b c d : complex R) :
  cadd (cadd a b) (cadd c d) = cadd (cadd a c) (cadd b d).
Proof. destruct a, b, c, d. unfold cadd; simpl. f_equal; ring. Qed.

Lemma csub_shuffle (a b c d : complex R) :
  csub (cadd a b) (cadd c d) = cadd (csub a c) (csub b d).
Proof. destruct a, b, c, d. unfold cadd, csub; simpl. f_equal; ring. Qed.

Lemma csum_ext (f g : nat -> complex R) (n : nat) :
  (forall j, (j < n)%nat -> f j = g j) -> csum f n = csum g n.
Proof.
  induction n as [|n IH]; intros Hfg; cbn [csum].
  - reflexivity.
  - rewrite IH, Hfg by (intros; try apply Hfg; lia). reflexivity.
Qed.

Lemma csum_cadd (f g : nat -> complex R) (n : nat) :
  cadd (csum f n) (csum g n) = csum (fun j => cadd (f j) (g j)) n.
Proof.
  induction n as [|n IH]; cbn [csum].
  - apply cadd_0_l.
  - rewrite cadd_shuffle, IH. reflexivity.
Qed.

Lemma csum_csub (f g : nat -> complex R) (n : nat) :
  csub (csum f n) (csum g n) = csum (fun j => csub (f j) (g j)) n.
Proof.
  induction n as [|n IH]; cbn [csum].
  - unfold csub, c0; simpl. f_equal; ring.
  - rewrite csub_shuffle, IH. reflexivity.
Qed.

Lemma csum_cmul_r (f : nat -> complex R) (c : complex R) (n : nat) :
  cmul (csum f n) c = csum (fun j => cmul (f j) c) n.
Proof.
  induction n as [|n IH]; cbn [csum].
  - unfold cmul, c0; simpl. f_equal; ring.
  - rewrite <- IH, !(cmul_comm _ c). apply cmul_cadd_distr.
Qed.

(** A sum of [2 n] terms, split by the parity of the index. *)
Lemma csum_parity (f : nat -> complex R) (n : nat) :
  csum f (2 * n) =
  cadd (csum (fun j => f (2 * j)%nat) n) (csum (fun j => f (2 * j + 1)%nat) n).
Proof.
  induction n as [|n IH].
  - cbn [Nat.mul csum]. symmetry. apply cadd_0_l.
  - replace (2 * S n)%nat with (S (S (2 * n))) by lia.
    cbn [csum]. rewrite IH.
    replace (S (2 * n)) with (2 * n + 1)%nat by lia.
    destruct (csum (fun j => f (2 * j)%nat) n),
             (csum (fun j => f (2 * j + 1)%nat) n),
             (f (2 * n)%nat), (f (2 * n + 1)%nat).
    unfold cadd; simpl. f_equal; ring.
Qed.

Lemma zip_with_nth (f : complex R -> complex R -> complex R)
  (A B : list (complex R)) (k : nat) :
  (k < length A)%nat -> length B = length A ->
  nth k (zip_with f A B) c0 = f (nth k A c0) (nth k B c0).
Proof.
  revert B k; induction A as [|a A IH]; intros [|b B] k Hk HL;
    simpl in Hk, HL; try lia.
  destruct k as [|k]; cbn [zip_with nth]; [reflexivity|].
  apply IH; lia.
Qed.

Lemma twist_nth (t : R) (B : list (complex R)) (k : nat) (a : R) :
  (k < length B)%nat ->
  nth k (twist (cis t) (cis a) B) c0 = cmul (nth k B c0) (cis (a + INR k * t)).
Proof.
  revert k a; induction B as [|b B IH]; intros k a Hk; simpl in Hk; [lia|].
  destruct k as [|k]; cbn [twist nth].
  - f_equal. f_equal. simpl. ring.
  - rewrite cis_add, IH by lia. f_equal. f_equal.
    rewrite S_INR. ring.
Qed.

Lemma cis_0 : cis 0 = c1.
Proof. unfold cis, c1; simpl. rewrite cos_0, sin_0. reflexivity. Qed.

Lemma cis_turns (two : R) (j : nat) (a : R) :
  direction two -> cis (a + two * PI * INR j) = cis a.
Proof.
  intros [-> | ->]; unfold cis; simpl.
  - replace (a + 2 * PI * INR j) with (a + 2 * INR j * PI) by ring.
    rewrite cos_period, sin_period. reflexivity.
  - replace a with ((a + -2 * PI * INR j) + 2 * INR j * PI) at 3 4 by ring.
    rewrite cos_period, sin_period. reflexivity.
Qed.

Lemma cis_half_turn (two : R) (a : R) :
  direction two -> cis (a + two * PI / 2) = cmul (cis a) (Cplx (-1) 0).
Proof.
  intros [-> | ->]; rewrite <- cis_add; f_equal; unfold cis; simpl.
  - replace (2 * PI / 2) with PI by field.
    rewrite cos_PI, sin_PI. reflexivity.
  - replace (-2 * PI / 2) with (- PI) by field.
    rewrite cos_neg, sin_neg, cos_PI, sin_PI. f_equal. ring.
Qed.

Lemma INR_pow2 (m : nat) : INR (2 ^ S m) = 2 * INR (2 ^ m).
Proof.
  change (2 ^ S m)%nat with (2 * 2 ^ m)%nat. rewrite mult_INR. reflexivity.
Qed.

Lemma INR_pow2_pos (m : nat) : 0 < INR (2 ^ m).
Proof. apply lt_0_INR. apply pow2_pos. Qed.

(** The recursion computes the sum, bin by bin. *)
Lemma dit_dft (two : R) (m : nat) :
  direction two ->
  forall (x : list (complex R)) (k : nat),
    length x = (2 ^ m)%nat -> (k < 2 ^ m)%nat ->
    nth k (dit two m x) c0 = dft two x k.
Proof.
  intros Htwo. induction m as [|m IH]; intros x k Hx Hk.
  - destruct x as [|a [|? ?]]; try discriminate.
    simpl in Hk. replace k with 0%nat by lia.
    unfold dft. cbn [dit nth length csum Nat.mul INR].
    rewrite cadd_0_l.
    replace (two * PI * 0 / 1) with 0 by field.
    rewrite cis_0, cmul_1_r. reflexivity.
  - assert (Hx' : length x = (2 * 2 ^ m)%nat) by exact Hx.
    destruct (evens_odds_length x (2 ^ m) Hx') as [Le Lo].
    pose proof (INR_pow2_pos m) as Hpos.
    set (t := two * PI / INR (2 ^ S m)).
    assert (Et : twiddle two (2 ^ S m) = cis t).
    { unfold twiddle, t. simpl of_int. rewrite <- INR_IZR_INZ.
      reflexivity. }
    assert (Ee : forall q, (q < 2 ^ m)%nat ->
              nth q (dit two m (evens x)) c0 =
              csum (fun j => cmul (nth (2 * j) x c0)
                       (cis (two * PI * INR (2 * j * q) / INR (2 ^ S m))))
                   (2 ^ m)).
    { intros q Hq. rewrite IH by assumption. unfold dft. rewrite Le.
      apply csum_ext. intros j Hj.
      rewrite (proj1 (evens_odds_nth x j c0)). f_equal. f_equal.
      rewrite INR_pow2, !mult_INR. simpl INR. field. lra. }
    assert (Eo : forall q, (q < 2 ^ m)%nat ->
              cmul (nth q (dit two m (odds x)) c0) (cis (0 + INR q * t)) =
              csum (fun j => cmul (nth (2 * j + 1) x c0)
                       (cis (two * PI * INR ((2 * j + 1) * q)
                             / INR (2 ^ S m))))
                   (2 ^ m)).
    { intros q Hq. rewrite IH by assumption. unfold dft. rewrite Lo.
      rewrite csum_cmul_r. apply csum_ext. intros j Hj.
      rewrite (proj2 (evens_odds_nth x j c0)).
      rewrite cmul_assoc, cis_add. f_equal. f_equal. unfold t.
      rewrite INR_pow2, !mult_INR, plus_INR, mult_INR. simpl INR.
      field. lra. }
    cbn [dit]. rewrite Et. unfold butterfly.
    assert (Ld : length (dit two m (evens x)) = (2 ^ m)%nat)
      by (apply dit_length; exact Le).
    assert (Ld' : length (dit two m (odds x)) = (2 ^ m)%nat)
      by (apply dit_length; exact Lo).
    assert (Lt : length (twist (cis t) c1 (dit two m (odds x)))
                 = (2 ^ m)%nat) by (rewrite twist_length; exact Ld').
    unfold dft. rewrite Hx'. rewrite csum_parity.
    destruct (Nat.lt_ge_cases k (2 ^ m)) as [Hlo|Hhi].
    + rewrite app_nth1
        by (rewrite zip_with_length; rewrite ?Ld; [exact Hlo|exact Lt]).
      rewrite zip_with_nth by (rewrite ?Ld; solve [exact Hlo|exact Lt]).
      rewrite <- cis_0, twist_nth by (rewrite Ld'; exact Hlo).
      rewrite Ee, Eo by exact Hlo.
      change (2 * 2 ^ m)%nat with (2 ^ S m)%nat. reflexivity.
    + rewrite app_nth2
        by (rewrite zip_with_length; rewrite ?Ld; [exact Hhi|exact Lt]).
      rewrite zip_with_length by (rewrite Ld; exact Lt). rewrite Ld.
      change (2 ^ S m)%nat with (2 * 2 ^ m)%nat in Hk.
      set (q := (k - 2 ^ m)%nat).
      assert (Hq : (q < 2 ^ m)%nat) by (unfold q; lia).
      assert (Ek : k = (q + 2 ^ m)%nat) by (unfold q; lia).
      rewrite zip_with_nth by (rewrite ?Ld; solve [exact Hq|exact Lt]).
      rewrite <- cis_0, twist_nth by (rewrite Ld'; exact Hq).
      rewrite Ee, Eo by exact Hq.
      change (2 * 2 ^ m)%nat with (2 ^ S m)%nat.
      rewrite csum_csub, csum_cadd. apply csum_ext. intros j Hj.
      rewrite Ek.
      replace (two * PI * INR (2 * j * (q + 2 ^ m)) / INR (2 ^ S m))
        with (two * PI * INR (2 * j * q) / INR (2 ^ S m)
              + two * PI * INR j)
        by (rewrite INR_pow2; repeat (rewrite mult_INR || rewrite plus_INR);
            simpl INR; field; lra).
      replace (two * PI * INR ((2 * j + 1) * (q + 2 ^ m)) / INR (2 ^ S m))
        with (two * PI * INR ((2 * j + 1) * q) / INR (2 ^ S m)
              + two * PI * INR j + two * PI / 2)
        by (rewrite INR_pow2; repeat (rewrite mult_INR || rewrite plus_INR);
            simpl INR; field; lra).
      rewrite cis_half_turn, !cis_turns by exact Htwo.
      destruct (nth (2 * j) x c0), (nth (2 * j + 1) x c0).
      unfold csub, cadd, cmul, cis; simpl. f_equal; ring.
Qed.

(** The forward transform is the sum with the kernel
    [exp(+2 pi i j k / N)], the inverse one the sum with the conjugate
    kernel, divided by [N]. *)
Lemma transforms_are_sums (m : nat) (x : list (complex R)) (k : nat) :
  length x = (2 ^ m)%nat -> (k < 2 ^ m)%nat ->
  nth k (TspToIr.simple_fft x (2 ^ m)) c0 = dft 2 x k /\
  nth k (TspToIr.simple_ifft x (2 ^ m)) c0
  = cdiv_int (dft (-2) x k) (Z.of_nat (2 ^ m)).
Proof.
  intros Hx Hk. split.
  - rewrite simple_fft_dit by exact Hx.
    apply (dit_dft 2); [left; reflexivity|exact Hx|exact Hk].
  - rewrite simple_ifft_dit by exact Hx.
    rewrite (nth_indep _ c0 (cdiv_int c0 (Z.of_nat (2 ^ m))))
      by (rewrite length_map, dit_length by exact Hx; exact Hk).
    rewrite (map_nth (fun z => cdiv_int z (Z.of_nat (2 ^ m)))). f_equal.
    apply (dit_dft (-2)); [right; reflexivity|exact Hx|exact Hk].
Qed.

End TransformSums.

(** X8.  In exact arithmetic [simple_fft] computes the discrete Fourier
    transform with the kernel [exp(+2 pi i j k / N)] (the sign usually given
    to the inverse transform), and [simple_ifft] the sum with the conjugate
    kernel divided by [N], for the sizes [N = 2^m] up to [2^29] (beyond
    which the counter [len] of the stage loop leaves the range of [int]). *)
Theorem X8_transforms_are_sums :
  forall (m : nat) (x : list (complex R)) (k : nat),
    (m <= 29)%nat ->
    length x = (2 ^ m)%nat -> (k < 2 ^ m)%nat ->
    nth k (TspToIr.simple_fft x (2 ^ m)) c0 = dft 2 x k /\
    nth k (TspToIr.simple_ifft x (2 ^ m)) c0
    = cdiv_int (dft (-2) x k) (Z.of_nat (2 ^ m)).
Proof.
  intros m x k _. apply transforms_are_sums.
Qed.

Lemma X8_transforms_are_sums_witness :
  let x := [Cplx 1 0; Cplx 0 1; Cplx 2 0; Cplx 0 0]%R in
  nth 1 (TspToIr.simple_fft x (2 ^ 2)) c0 = dft 2 x 1 /\
  nth 1 (TspToIr.simple_ifft x (2 ^ 2)) c0
  = cdiv_int (dft (-2) x 1) (Z.of_nat (2 ^ 2)).
Proof.
  intros x. apply (X8_transforms_are_sums 2 x 1).
  - lia.
  - reflexivity.
  - simpl. lia.
Defined.

(** ** The round trip in the other order *)

Section OtherRoundTrip.
Local Open Scope R_scope.

(** [dit_inverse] for any pair of directions with inverse twiddles. *)
Lemma dit_undo (two two' : R) (m : nat) :
  (forall len, cmul (twiddle two len) (twiddle two' len) = c1) ->
  forall x : list (complex R),
    length x = (2 ^ m)%nat ->
    dit two' m (dit two m x)
    = map (cmul (Cplx (IZR (Z.of_nat (2 ^ m))) 0)) x.
Proof.
  intros Hinv. induction m as [|m IH]; intros x Hx.
  - cbn [dit]. rewrite <- (map_id x) at 1. apply map_ext. intros [a b].
    unfold cmul; simpl. f_equal; ring.
  - set (lo := firstn (2 ^ m) x). set (hi := skipn (2 ^ m) x).
    assert (Ex : x = lo ++ hi) by (symmetry; apply firstn_skipn).
    assert (Hlo : length lo = (2 ^ m)%nat)
      by (unfold lo; rewrite length_firstn, Hx; simpl; lia).
    assert (Hhi : length hi = (2 ^ m)%nat)
      by (unfold hi; rewrite length_skipn, Hx; simpl; lia).
    destruct (dit_dif two m lo hi Hlo Hhi) as [Dev Dod].
    rewrite <- Ex in Dev, Dod.
    change (dit two' (S m) (dit two (S m) x))
      with (butterfly (twiddle two' (2 ^ S m))
              (dit two' m (evens (dit two (S m) x)))
              (dit two' m (odds (dit two (S m) x)))).
    rewrite Dev, Dod.
    rewrite !IH
      by (rewrite ?twist_length, zip_with_length; lia).
    rewrite butterfly_scale. unfold butterfly.
    rewrite twist_cancel
      by (try apply cmul_1_r; apply Hinv).
    destruct (sum_and_difference 0 lo hi ltac:(lia)) as [E1 E2].
    rewrite E1, E2, <- map_app, <- Ex, map_map.
    apply map_ext. intros [a b]. rewrite IZR_pow2_S.
    unfold cmul; simpl. f_equal; ring.
Qed.

(** The inverse transform followed by the forward one is the identity too. *)
Lemma fft_ifft_exact (m : nat) (x : list (complex R)) :
  length x = (2 ^ m)%nat ->
  TspToIr.simple_fft (TspToIr.simple_ifft x (2 ^ m)) (2 ^ m) = x.
Proof.
  intros Hx. rewrite simple_ifft_dit by exact Hx.
  rewrite simple_fft_dit
    by (rewrite length_map; apply dit_length; exact Hx).
  pose proof (IZR_pow2_pos m) as Hpos.
  rewrite (map_ext _ (cmul (Cplx (/ IZR (Z.of_nat (2 ^ m))) 0))).
  - rewrite dit_scale, dit_undo.
    + rewrite map_map. rewrite <- (map_id x) at 2. apply map_ext.
      intros [a b]. unfold cmul; simpl. f_equal; field; lra.
    + intros len. rewrite cmul_comm. apply twiddle_inverse.
    + exact Hx.
  - intros [a b]. unfold cdiv_int, cmul; simpl. f_equal; field; lra.
Qed.

End OtherRoundTrip.

(** X9.  In exact arithmetic the transforms are inverse to each other in
    the other order too: the inverse transform followed by the forward one
    is the identity on every buffer whose length is a power of two up to
    [2^29]. *)
Theorem X9_fft_after_ifft :
  forall (m : nat) (x : list (complex R)),
    (m <= 29)%nat ->
    length x = (2 ^ m)%nat ->
    TspToIr.simple_fft (TspToIr.simple_ifft x (2 ^ m)) (2 ^ m) = x.
Proof.
  intros m x _. apply fft_ifft_exact.
Qed.

Lemma X9_fft_after_ifft_witness :
  TspToIr.simple_fft
    (TspToIr.simple_ifft [Cplx 1 2; Cplx 0 (-1); Cplx 3 0; Cplx 0 0]%R
       (2 ^ 2)) (2 ^ 2)
  = [Cplx 1 2; Cplx 0 (-1); Cplx 3 0; Cplx 0 0]%R.
Proof.
  apply (X9_fft_after_ifft 2 [Cplx 1 2; Cplx 0 (-1); Cplx 3 0; Cplx 0 0]%R).
  - lia.
  - reflexivity.
Defined.

(** X28.  In exact arithmetic the forward transform followed by the
    normalised inverse transform is the identity on every complex buffer
    whose length is a power of two up to [2^29]: without rounding the round
    trip loses nothing. *)
Theorem X28_ifft_after_fft :
  forall (m : nat) (x : list (complex R)),
    (m <= 29)%nat ->
    length x = (2 ^ m)%nat ->
    TspToIr.simple_ifft (TspToIr.simple_fft x (2 ^ m)) (2 ^ m) = x.
Proof.
  intros m x _. apply ifft_fft_exact.
Qed.

Lemma X28_ifft_after_fft_witness :
  TspToIr.simple_ifft
    (TspToIr.simple_fft [Cplx 1 2; Cplx 0 (-1); Cplx 3 0; Cplx 0 0]%R (2 ^ 2))
    (2 ^ 2)
  = [Cplx 1 2; Cplx 0 (-1); Cplx 3 0; Cplx 0 0]%R.
Proof.
  apply (X28_ifft_after_fft 2 [Cplx 1 2; Cplx 0 (-1); Cplx 3 0; Cplx 0 0]%R).
  - lia.
  - reflexivity.
Defined.

(** ** The spectra built from a phase *)

Section HalfSpectrumBins.
Context {F : Type} `{Arith F}.
Local Open Scope nat_scope.

(** Every bin of a designed spectrum: the bins up to [N/2] carry the phase
    (the one at [N/2] without its imaginary part), the bins above carry the
    conjugate of their mirror image; for an odd [N] the bin [N/2 + 1] is
    left at zero. *)
Lemma half_spectrum_nth (theta : nat -> F) (N j : nat) :
  0 < N ->
  nth j (half_spectrum theta N) c0 =
  if j <? N / 2 then cis (theta j)
  else if j =? N / 2 then Cplx (fcos (theta j)) (of_int 0)
  else if (j <? N) && (N - j <? N / 2) then conj (cis (theta (N - j)))
  else c0.
Proof.
  intros HN.
  assert (Hhalf : N / 2 < N) by (apply Nat.div_lt; lia).
  assert (Hlow : 2 * (N / 2) <= N) by (apply Nat.Div0.mul_div_le).
  unfold half_spectrum.
  destruct (Nat.eqb_spec j (N / 2)) as [->|Hne].
  - rewrite Nat.ltb_irrefl.
    rewrite nth_upd_same
      by (rewrite half_spectrum_loop_length, repeat_length; exact Hhalf).
    rewrite half_spectrum_loop_nth by (rewrite ?repeat_length; lia).
    rewrite Nat.leb_refl. reflexivity.
  - rewrite nth_upd_other by lia.
    rewrite half_spectrum_loop_nth by (rewrite ?repeat_length; lia).
    rewrite nth_repeat_c0.
    destruct (Nat.ltb_spec j (N / 2)), (Nat.leb_spec j (N / 2)),
             (Nat.ltb_spec (N / 2) j), (Nat.ltb_spec j N),
             (Nat.ltb_spec (N - j) (N / 2)), (Nat.leb_spec 0 (N - j));
      simpl; try reflexivity; lia.
Qed.

(** The same on the contents [X0] the array has when the loop starts: the
    entries the loop does not write keep them. *)
Lemma half_spectrum_on_nth (theta : nat -> F) (N j : nat)
  (X0 : list (complex F)) :
  length X0 = N -> 0 < N ->
  nth j (half_spectrum_on theta N X0) c0 =
  if j <? N / 2 then cis (theta j)
  else if j =? N / 2 then Cplx (fcos (theta j)) (of_int 0)
  else if (j <? N) && (N - j <? N / 2) then conj (cis (theta (N - j)))
  else nth j X0 c0.
Proof.
  intros HX HN.
  assert (Hhalf : N / 2 < N) by (apply Nat.div_lt; lia).
  assert (Hlow : 2 * (N / 2) <= N) by (apply Nat.Div0.mul_div_le).
  unfold half_spectrum_on.
  destruct (Nat.eqb_spec j (N / 2)) as [->|Hne].
  - rewrite Nat.ltb_irrefl.
    rewrite nth_upd_same
      by (rewrite half_spectrum_loop_length, HX; exact Hhalf).
    rewrite half_spectrum_loop_nth by (try exact HX; lia).
    rewrite Nat.leb_refl. reflexivity.
  - rewrite nth_upd_other by lia.
    rewrite half_spectrum_loop_nth by (try exact HX; lia).
    destruct (Nat.ltb_spec j (N / 2)), (Nat.leb_spec j (N / 2)),
             (Nat.ltb_spec (N / 2) j), (Nat.ltb_spec j N),
             (Nat.ltb_spec (N - j) (N / 2)), (Nat.leb_spec 0 (N - j));
      simpl; try reflexivity; lia.
Qed.

Lemma even_double_half (N : nat) : Nat.even N = true -> N = 2 * (N / 2).
Proof.
  intros HE. apply Nat.even_spec in HE. destruct HE as [h ->].
  rewrite (Nat.mul_comm 2 h), Nat.div_mul by discriminate. lia.
Qed.

(** For an even [N], and for [N = 1], the loop and the store after it write
    every entry: the spectrum does not depend on what the array held. *)
Lemma half_spectrum_on_full (theta : nat -> F) (N j : nat)
  (X0 : list (complex F)) :
  length X0 = N -> 0 < N -> Nat.even N = true \/ N = 1 -> j < N ->
  nth j (half_spectrum_on theta N X0) c0 =
  if j <? N / 2 then cis (theta j)
  else if j =? N / 2 then Cplx (fcos (theta j)) (of_int 0)
  else conj (cis (theta (N - j))).
Proof.
  intros HX HN HE Hj. rewrite half_spectrum_on_nth by assumption.
  assert (Hlow : N = 2 * (N / 2) \/ N = 1)
    by (destruct HE as [HE| ->]; [left; apply even_double_half; exact HE
                                 |right; reflexivity]).
  destruct (Nat.ltb_spec j (N / 2)); [reflexivity|].
  destruct (Nat.eqb_spec j (N / 2)); [reflexivity|].
  destruct (Nat.ltb_spec j N); [|lia].
  destruct (Nat.ltb_spec (N - j) (N / 2)); [reflexivity|].
  destruct Hlow as [E|E]; [lia|].
  rewrite E in *. change (1 / 2) with 0 in *. lia.
Qed.

Lemma half_spectrum_on_length (theta : nat -> F) (N : nat)
  (X0 : list (complex F)) :
  length (half_spectrum_on theta N X0) = length X0.
Proof.
  unfold half_spectrum_on. rewrite upd_length.
  apply half_spectrum_loop_length.
Qed.

Lemma half_spectrum_on_any (theta : nat -> F) (N : nat)
  (X0 : list (complex F)) :
  length X0 = N -> 0 < N -> Nat.even N = true \/ N = 1 ->
  half_spectrum_on theta N X0 = half_spectrum theta N.
Proof.
  intros HX HN HE.
  change (half_spectrum theta N)
    with (half_spectrum_on theta N (repeat c0 N)).
  apply (nth_ext _ _ c0 c0).
  - rewrite !half_spectrum_on_length, repeat_length. exact HX.
  - intros j Hj. rewrite half_spectrum_on_length, HX in Hj.
    rewrite !half_spectrum_on_full
      by (try assumption; apply repeat_length).
    reflexivity.
Qed.

(** For the other [N] the entry [N/2 + 1] is never written. *)
Lemma half_spectrum_on_gap (theta : nat -> F) (N : nat)
  (X0 : list (complex F)) :
  length X0 = N -> Nat.odd N = true -> 3 <= N ->
  nth (N / 2 + 1) (half_spectrum_on theta N X0) c0 = nth (N / 2 + 1) X0 c0.
Proof.
  intros HX HO HN. rewrite half_spectrum_on_nth by (try assumption; lia).
  assert (E : N = 2 * (N / 2) + 1).
  { apply Nat.odd_spec in HO. destruct HO as [h ->].
    replace ((2 * h + 1) / 2) with h; [reflexivity|].
    apply (Nat.div_unique _ 2 h 1); lia. }
  destruct (Nat.ltb_spec (N / 2 + 1) (N / 2)); [lia|].
  destruct (Nat.eqb_spec (N / 2 + 1) (N / 2)); [lia|].
  destruct (Nat.ltb_spec (N / 2 + 1) N),
           (Nat.ltb_spec (N - (N / 2 + 1)) (N / 2));
    cbn [andb]; try reflexivity; lia.
Qed.

Lemma ir_freq_loop_length (TSP RESPONSE INV_FILTER : list (complex F))
  (k count : nat) :
  length (TspToIr.ir_freq_loop TSP RESPONSE INV_FILTER k count) = count.
Proof.
  revert k; induction count as [|c IH]; intros k; simpl; [reflexivity|].
  rewrite IH. reflexivity.
Qed.

End HalfSpectrumBins.

Section FilterExact.
Local Open Scope R_scope.

Lemma cabs_cis (t : R) : cabs (cis t) = 1.
Proof.
  unfold cabs, cis; simpl. unfold Exact.hypot.
  replace (cos t * cos t + sin t * sin t) with 1.
  - apply sqrt_1.
  - pose proof (sin2_cos2 t) as E. unfold Rsqr in E. lra.
Qed.

Lemma cabs_conj (a : complex R) : cabs (conj a) = cabs a.
Proof.
  destruct a as [x y]. unfold cabs, conj; simpl. unfold Exact.hypot.
  f_equal. ring.
Qed.

Lemma cabs_c0 : cabs (c0 (F := R)) = 0.
Proof.
  unfold cabs, c0; simpl. unfold Exact.hypot.
  replace (0 * 0 + 0 * 0) with 0 by ring. apply sqrt_0.
Qed.

Lemma cabs_nonneg (a : complex R) : 0 <= cabs a.
Proof. unfold cabs; simpl. apply sqrt_pos. Qed.

Lemma cabs_cmul (a b : complex R) : cabs (cmul a b) = cabs a * cabs b.
Proof.
  destruct a as [x y], b as [u v]. unfold cabs, cmul; simpl.
  unfold Exact.hypot. rewrite <- sqrt_mult by nra. f_equal. ring.
Qed.

Lemma cabs_cos (t : R) : cabs (Cplx (cos t) 0) <= 1.
Proof.
  unfold cabs; simpl. unfold Exact.hypot.
  rewrite <- sqrt_1. apply sqrt_le_1_alt.
  pose proof (sin2_cos2 t) as E. unfold Rsqr in E.
  nra.
Qed.

(** No bin of a designed spectrum has a magnitude above 1, and the bins
    below [N/2] and their mirror images have magnitude 1 exactly. *)
Lemma half_spectrum_magnitude (theta : nat -> R) (N j : nat) :
  (0 < N)%nat ->
  cabs (nth j (half_spectrum theta N) c0) <= 1 /\
  ((j < N / 2)%nat \/ (N / 2 < j < N)%nat /\ (N - j < N / 2)%nat ->
   cabs (nth j (half_spectrum theta N) c0) = 1).
Proof.
  intros HN. rewrite half_spectrum_nth by exact HN.
  destruct (Nat.ltb_spec j (N / 2)) as [Hlt|Hge].
  - rewrite cabs_cis. split; [lra|reflexivity].
  - destruct (Nat.eqb_spec j (N / 2)) as [->|Hne].
    + split; [apply cabs_cos|]. intros [?|[? _]]; lia.
    + destruct (Nat.ltb_spec j N), (Nat.ltb_spec (N - j) (N / 2));
        cbn [andb];
        rewrite ?cabs_conj, ?cabs_cis, ?cabs_c0;
        (split; [lra|]); intros [?|[? ?]]; try reflexivity; lia.
Qed.

(** Whatever the array held before, no bin of a spectrum designed for an
    even [N] (or for [N = 1]) has a magnitude above 1, and all but the bin
    [N/2] have magnitude 1. *)
Lemma half_spectrum_on_magnitude (theta : nat -> R) (N j : nat)
  (X0 : list (complex R)) :
  length X0 = N -> (0 < N)%nat -> Nat.even N = true \/ N = 1%nat ->
  (j < N)%nat ->
  cabs (nth j (half_spectrum_on theta N X0) c0) <= 1 /\
  (j <> (N / 2)%nat -> cabs (nth j (half_spectrum_on theta N X0) c0) = 1).
Proof.
  intros HX HN HE Hj. rewrite half_spectrum_on_full by assumption.
  destruct (Nat.ltb_spec j (N / 2)) as [Hlt|Hge].
  - rewrite cabs_cis. split; [lra|reflexivity].
  - destruct (Nat.eqb_spec j (N / 2)) as [->|Hne].
    + split; [apply cabs_cos|]. intros Hn. contradiction Hn. reflexivity.
    + rewrite cabs_conj, cabs_cis. split; [lra|reflexivity].
Qed.

(** The inverse filter attenuates or keeps, and never amplifies, each bin
    of the response spectrum. *)
Lemma deconvolution_never_amplifies
  (tsp_samples response_samples : list Z) (k : nat) :
  let tsp_len := length tsp_samples in
  let N := TspToIr.fft_size tsp_len (length response_samples) in
  let RESPONSE :=
    TspToIr.simple_fft
      (TspToIr.response_buffer tsp_len response_samples N) N in
  cabs (nth k (TspToIr.ir_spectrum tsp_samples response_samples) c0)
  <= cabs (nth k RESPONSE c0).
Proof.
  intros tsp_len N RESPONSE.
  unfold TspToIr.ir_spectrum, TspToIr.ir_freq.
  fold tsp_len. fold N. fold RESPONSE.
  destruct (Nat.lt_ge_cases k N) as [Hk|Hk].
  - rewrite ir_freq_loop_nth by exact Hk. cbn [Nat.add].
    destruct (flt _ _).
    + rewrite cabs_cmul.
      assert (HN : (0 < N)%nat) by lia.
      destruct (half_spectrum_magnitude
                  (TspToIr.inv_theta N (tsp_len / 2)) N k HN) as [Hle _].
      unfold TspToIr.inv_filter.
      pose proof (cabs_nonneg (nth k RESPONSE c0)). nra.
    + rewrite cabs_c0. apply cabs_nonneg.
  - rewrite nth_overflow.
    + rewrite cabs_c0. apply cabs_nonneg.
    + rewrite ir_freq_loop_length. exact Hk.
Qed.

(** The inverse filter of tsp_to_ir.c undoes the chirp of tsp_gen.c: bin by
    bin the product of the two spectra is the pure delay by [n0] samples. *)
Lemma inverse_filter_undoes_design (N J n0 k : nat) :
  (k < N / 2)%nat ->
  cmul (nth k (TspGen.design N J n0) c0) (nth k (TspToIr.inv_filter N J) c0)
  = cis (- (2 * PI * INR k * INR n0 / INR N)) /\
  ((1 <= k)%nat ->
   cmul (nth (N - k) (TspGen.design N J n0) c0)
        (nth (N - k) (TspToIr.inv_filter N J) c0)
   = cis (2 * PI * INR k * INR n0 / INR N)).
Proof.
  intros Hk.
  assert (E : TspGen.theta N J n0 k + TspToIr.inv_theta N J k
              = - (2 * PI * INR k * INR n0 / INR N)).
  { unfold TspGen.theta, TspToIr.inv_theta. simpl.
    rewrite <- !INR_IZR_INZ. unfold Rdiv. ring. }
  unfold TspGen.design, TspToIr.inv_filter. split.
  - rewrite !half_spectrum_low by exact Hk. rewrite cis_add, E. reflexivity.
  - intros H1. rewrite !half_spectrum_high by lia.
    assert (Cc : forall t : R, conj (cis t) = cis (- t)).
    { intros t. unfold conj, cis; simpl. rewrite cos_neg, sin_neg.
      reflexivity. }
    rewrite !Cc, cis_add. f_equal. lra.
Qed.

End FilterExact.

(** X10.  The loop that designs a spectrum from a phase, the chirp of
    tsp_gen.c and the inverse filter of tsp_to_ir.c alike, works on an array
    that [malloc] returns uncleared.  For an even size [N] (and for
    [N = 1]) it writes every bin, as one of three values, so the spectrum
    does not depend on what the array held; in exact arithmetic no bin has a
    magnitude above 1 and every bin but [N/2] has magnitude 1.  For an odd
    size from 3 on the bin [N/2 + 1] is never written and keeps what the
    array held. *)
Theorem X10_designed_spectrum :
  forall (theta : nat -> R) (N : nat) (X0 : list (complex R)),
    length X0 = N -> (0 < N)%nat ->
    (Nat.even N = true \/ N = 1%nat ->
     half_spectrum_on theta N X0 = half_spectrum theta N /\
     forall j : nat, (j < N)%nat ->
       nth j (half_spectrum_on theta N X0) c0 =
         (if (j <? N / 2)%nat then cis (theta j)
          else if (j =? N / 2)%nat then Cplx (cos (theta j)) 0%R
          else conj (cis (theta (N - j)%nat))) /\
       (cabs (nth j (half_spectrum_on theta N X0) c0) <= 1)%R /\
       (j <> (N / 2)%nat ->
        cabs (nth j (half_spectrum_on theta N X0) c0) = 1%R))
    /\
    (Nat.odd N = true -> (3 <= N)%nat ->
     nth (N / 2 + 1) (half_spectrum_on theta N X0) c0
     = nth (N / 2 + 1) X0 c0).
Proof.
  intros theta N X0 HX HN. split.
  - intros HE. split; [apply half_spectrum_on_any; assumption|].
    intros j Hj. split.
    + exact (half_spectrum_on_full theta N j X0 HX HN HE Hj).
    + apply half_spectrum_on_magnitude; assumption.
  - intros HO H3. apply half_spectrum_on_gap; assumption.
Qed.

Lemma X10_designed_spectrum_witness :
  let X0 := [Cplx 7 7; Cplx 7 7; Cplx 7 7; Cplx 7 7]%R in
  half_spectrum_on (TspToIr.inv_theta (F := R) 4 2) 4 X0
  = TspToIr.inv_filter (F := R) 4 2 /\
  cabs (nth 3 (half_spectrum_on (TspToIr.inv_theta (F := R) 4 2) 4 X0) c0)
  = 1%R.
Proof.
  intros X0.
  destruct (X10_designed_spectrum (TspToIr.inv_theta 4 2) 4 X0 eq_refl
              ltac:(lia)) as [HE _].
  destruct (HE (or_introl eq_refl)) as [Eany Hbins].
  split; [exact Eany|].
  apply (proj2 (proj2 (Hbins 3%nat ltac:(lia)))).
  simpl. lia.
Defined.

(** X11.  In exact arithmetic the inverse filter of tsp_to_ir.c never
    amplifies: the magnitude of each bin of the deconvolved spectrum is at
    most that of the same bin of the response spectrum. *)
Theorem X11_deconvolution_never_amplifies :
  forall (tsp_samples response_samples : list Z) (k : nat),
    let tsp_len := length tsp_samples in
    let N := TspToIr.fft_size tsp_len (length response_samples) in
    let RESPONSE :=
      TspToIr.simple_fft
        (TspToIr.response_buffer tsp_len response_samples N) N in
    (cabs (nth k (TspToIr.ir_spectrum tsp_samples response_samples) c0)
     <= cabs (nth k RESPONSE c0))%R.
Proof.
  exact deconvolution_never_amplifies.
Qed.

(** X12.  The inverse filter of tsp_to_ir.c undoes the chirp of tsp_gen.c:
    in exact arithmetic, for the same [N] and [J], the product of the two
    spectra at a bin below [N/2] is the pure delay by [n0] samples,
    [exp(-2 pi i k n0 / N)], and at the mirrored bin its conjugate. *)
Theorem X12_inverse_filter_undoes_design :
  forall N J n0 k : nat,
    (k < N / 2)%nat ->
    cmul (nth k (TspGen.design N J n0) c0)
         (nth k (TspToIr.inv_filter N J) c0)
    = cis (- (2 * PI * INR k * INR n0 / INR N))%R /\
    ((1 <= k)%nat ->
     cmul (nth (N - k) (TspGen.design N J n0) c0)
          (nth (N - k) (TspToIr.inv_filter N J) c0)
     = cis (2 * PI * INR k * INR n0 / INR N)%R).
Proof.
  exact inverse_filter_undoes_design.
Qed.

Lemma X12_inverse_filter_undoes_design_witness :
  cmul (nth 1 (TspGen.design 8 4 2) c0) (nth 1 (TspToIr.inv_filter 8 4) c0)
  = cis (- (2 * PI * INR 1 * INR 2 / INR 8))%R /\
  cmul (nth (8 - 1) (TspGen.design 8 4 2) c0)
       (nth (8 - 1) (TspToIr.inv_filter 8 4) c0)
  = cis (2 * PI * INR 1 * INR 2 / INR 8)%R.
Proof.
  destruct (X12_inverse_filter_undoes_design 8 4 2 1) as [E1 E2].
  - simpl. lia.
  - split; [exact E1|apply E2; lia].
Defined.

(** ** The peak of the exported signal *)

Section QuantisePeak.
Local Open Scope R_scope.

Lemma quantize_loop_length {F : Type} `{Arith F} (v : list F) (max_amp : F)
  (i n : nat) :
  length (quantize_loop v max_amp i n) = n.
Proof.
  revert i; induction n as [|n IH]; intros i; simpl; [reflexivity|].
  rewrite IH. reflexivity.
Qed.

Lemma quantize_sample_peak (max_amp v : R) :
  0 < max_amp -> Rabs v = max_amp ->
  quantize_sample max_amp v = Some 29490%Z \/
  quantize_sample max_amp v = Some (-29490)%Z.
Proof.
  intros Hm Hv. unfold quantize_sample, to_int16.
  simpl trunc. simpl fmul. simpl fdiv. simpl lit_0p9. simpl of_int.
  unfold Exact.to_Z.
  assert (I : Int_part (294903 / 10) = 29490%Z).
  { symmetry. apply Int_part_spec. simpl. lra. }
  unfold Rabs in Hv. destruct (Rcase_abs v) as [Hneg|Hpos].
  - right.
    replace (v / max_amp * (9 / 10) * 32767) with (- (294903 / 10))
      by (subst max_amp; field; lra).
    destruct (Rle_dec 0 (- (294903 / 10))) as [|_]; [lra|].
    rewrite Ropp_involutive, I. reflexivity.
  - left.
    replace (v / max_amp * (9 / 10) * 32767) with (294903 / 10)
      by (subst max_amp; field; lra).
    destruct (Rle_dec 0 (294903 / 10)) as [_|]; [|lra].
    rewrite I. reflexivity.
Qed.

(** The export writes [n] samples, and the bound 29490 is attained: a
    sample of the largest magnitude is written as 29490 or -29490. *)
Lemma normalize_quantize_peak (v : list R) (n : nat) :
  (exists i, (i < n)%nat /\ nth i v 0 <> 0) ->
  length (normalize_quantize v n) = n /\
  exists k, (k < n)%nat /\
    (nth k (normalize_quantize v n) None = Some 29490%Z \/
     nth k (normalize_quantize v n) None = Some (-29490)%Z).
Proof.
  intros (i & Hi & Hnz). unfold normalize_quantize.
  split; [apply quantize_loop_length|].
  assert (Hpos : 0 < max_amp_loop v 0 n (of_int 0)).
  { apply Rlt_le_trans with (Rabs (nth i v 0)).
    - apply Rabs_pos_lt. exact Hnz.
    - apply (max_amp_loop_bound v n 0 i (IZR 0)). lia. }
  destruct (max_amp_loop_attained v n 0 (of_int 0)) as [E|(k & Hk & E)].
  - rewrite E in Hpos. simpl in Hpos. lra.
  - exists k. split; [lia|].
    rewrite quantize_loop_nth by lia. cbn [Nat.add].
    apply quantize_sample_peak; [exact Hpos|]. symmetry. exact E.
Qed.

End QuantisePeak.

(** X13.  The export step writes exactly [n] samples and, in exact
    arithmetic, uses the whole range it allows itself: for a buffer with a
    non-zero sample, a sample of the largest magnitude is written as 29490
    or -29490. *)
Theorem X13_quantised_peak_attained :
  forall (v : list R) (n : nat),
    (exists i : nat, (i < n)%nat /\ nth i v 0%R <> 0%R) ->
    length (normalize_quantize v n) = n /\
    exists k : nat, (k < n)%nat /\
      (nth k (normalize_quantize v n) None = Some 29490%Z \/
       nth k (normalize_quantize v n) None = Some (-29490)%Z).
Proof.
  exact normalize_quantize_peak.
Qed.

Lemma X13_quantised_peak_attained_witness :
  length (normalize_quantize [1; -2]%R 2) = 2%nat /\
  exists k : nat, (k < 2)%nat /\
    (nth k (normalize_quantize [1; -2]%R 2) None = Some 29490%Z \/
     nth k (normalize_quantize [1; -2]%R 2) None = Some (-29490)%Z).
Proof.
  apply (X13_quantised_peak_attained [1; -2]%R 2).
  exists 0%nat. split; [lia|]. simpl. lra.
Defined.

(** ** Conjugate symmetry and real signals *)

Section ConjugateSymmetry.
Local Open Scope R_scope.

Lemma cadd_comm (a b : complex R) : cadd a b = cadd b a.
Proof. destruct a, b. unfold cadd; simpl. f_equal; ring. Qed.

Lemma cadd_assoc (a b c : complex R) :
  cadd (cadd a b) c = cadd a (cadd b c).
Proof. destruct a, b, c. unfold cadd; simpl. f_equal; ring. Qed.

Lemma csum_shift (f : nat -> complex R) (n : nat) :
  csum f (S n) = cadd (f 0%nat) (csum (fun k => f (S k)) n).
Proof.
  induction n as [|n IH].
  - cbn [csum]. rewrite cadd_0_l, cadd_comm, cadd_0_l. reflexivity.
  - change (csum f (S (S n))) with (cadd (csum f (S n)) (f (S n))).
    rewrite IH. cbn [csum]. apply cadd_assoc.
Qed.

Lemma csum_rev (f : nat -> complex R) (n : nat) :
  csum (fun k => f (n - 1 - k)%nat) n = csum f n.
Proof.
  induction n as [|n IH].
  - reflexivity.
  - rewrite csum_shift. cbn [csum]. rewrite cadd_comm.
    replace (S n - 1 - 0)%nat with n by lia. f_equal.
    rewrite <- IH. apply csum_ext. intros k Hk. f_equal. lia.
Qed.

(** Summing over [N - k] modulo [N] instead of [k]. *)
Lemma csum_reflect (f : nat -> complex R) (n : nat) :
  csum (fun k => f ((n - k) mod n)%nat) n = csum f n.
Proof.
  destruct n as [|n]; [reflexivity|].
  rewrite !csum_shift. f_equal.
  - rewrite Nat.sub_0_r, Nat.Div0.mod_same. reflexivity.
  - rewrite <- (csum_rev (fun k => f (S k))).
    apply csum_ext. intros k Hk.
    rewrite Nat.mod_small by lia. f_equal. lia.
Qed.

Lemma conj_csum (f : nat -> complex R) (n : nat) :
  conj (csum f n) = csum (fun k => conj (f k)) n.
Proof.
  induction n as [|n IH]; cbn [csum].
  - unfold conj, c0; simpl. f_equal. ring.
  - rewrite <- IH. unfold conj, cadd; simpl. f_equal. ring.
Qed.

Lemma conj_cmul (a b : complex R) : conj (cmul a b) = cmul (conj a) (conj b).
Proof. destruct a, b. unfold conj, cmul; simpl. f_equal; ring. Qed.

Lemma conj_cis (t : R) : conj (cis t) = cis (- t).
Proof. unfold conj, cis; simpl. rewrite cos_neg, sin_neg. reflexivity. Qed.

Lemma conj_conj (a : complex R) : conj (conj a) = a.
Proof. destruct a. unfold conj; simpl. f_equal. ring. Qed.

Lemma conj_fixed (a : complex R) : conj a = a -> im a = 0.
Proof.
  destruct a as [x y]. unfold conj; simpl. intros E.
  inversion E as [E']. lra.
Qed.

Lemma real_conj (a : complex R) : im a = 0 -> conj a = a.
Proof.
  destruct a as [x y]. unfold conj; simpl. intros ->. f_equal. ring.
Qed.

(** The kernel at the mirrored index. *)
Lemma cis_mirror (two : R) (N k n : nat) :
  direction two -> (0 < N)%nat -> (k < N)%nat ->
  cis (two * PI * INR (((N - k) mod N) * n) / INR N)
  = cis (- (two * PI * INR (k * n) / INR N)).
Proof.
  intros Htwo HN Hk.
  assert (HN' : INR N <> 0) by (apply not_0_INR; lia).
  destruct k as [|k].
  - rewrite Nat.sub_0_r, Nat.Div0.mod_same. cbn [Nat.mul INR].
    f_equal. unfold Rdiv. ring.
  - rewrite Nat.mod_small by lia.
    rewrite <- (cis_turns two n (- (two * PI * INR (S k * n) / INR N)) Htwo).
    f_equal. rewrite !mult_INR, minus_INR by lia. field. exact HN'.
Qed.

(** The sum of a conjugate-symmetric sequence against the kernel is its
    own conjugate, and the sum of a real sequence is conjugate-symmetric. *)
Lemma dft_hermitian (two : R) (X : list (complex R)) (n : nat) :
  direction two -> hermitian X ->
  conj (dft two X n) = dft two X n.
Proof.
  intros Htwo HX. unfold dft. rewrite conj_csum.
  rewrite <- (csum_reflect
                (fun k => cmul (nth k X c0)
                            (cis (two * PI * INR (k * n) / INR (length X))))).
  apply csum_ext. intros k Hk.
  rewrite conj_cmul, conj_cis, HX by exact Hk.
  rewrite cis_mirror by (try assumption; lia). reflexivity.
Qed.

Lemma dft_real (two : R) (x : list (complex R)) (k : nat) :
  direction two -> real_signal x -> (k < length x)%nat ->
  dft two x ((length x - k) mod length x) = conj (dft two x k).
Proof.
  intros Htwo Hx Hk. unfold dft. rewrite conj_csum.
  apply csum_ext. intros j Hj.
  rewrite conj_cmul, conj_cis, real_conj by apply Hx.
  f_equal.
  rewrite (Nat.mul_comm j), (Nat.mul_comm j k).
  apply cis_mirror; try assumption. lia.
Qed.

(** The inverse transform of a conjugate-symmetric spectrum is real. *)
Lemma ifft_hermitian_real (m : nat) (X : list (complex R)) :
  length X = (2 ^ m)%nat -> hermitian X ->
  real_signal (TspToIr.simple_ifft X (2 ^ m)).
Proof.
  intros HL HX j.
  destruct (Nat.lt_ge_cases j (2 ^ m)) as [Hj|Hj].
  - rewrite (proj2 (transforms_are_sums m X j HL Hj)).
    assert (E : im (dft (-2) X j) = 0).
    { apply conj_fixed. apply dft_hermitian; [right; reflexivity|exact HX]. }
    unfold cdiv_int. cbn [im]. rewrite E. simpl. unfold Rdiv. ring.
  - rewrite nth_overflow; [reflexivity|].
    rewrite (proj2 (transform_length X (2 ^ m))). lia.
Qed.

(** The forward transform of a real signal is conjugate-symmetric. *)
Lemma fft_real_hermitian (m : nat) (x : list (complex R)) :
  length x = (2 ^ m)%nat -> real_signal x ->
  hermitian (TspToIr.simple_fft x (2 ^ m)).
Proof.
  intros HL Hx k. rewrite (proj1 (transform_length x (2 ^ m))), HL.
  intros Hk. pose proof (pow2_pos m) as Hpos.
  rewrite !(fun j H => proj1 (transforms_are_sums m x j HL H))
    by (try exact Hk; apply Nat.mod_upper_bound; lia).
  rewrite <- HL. apply dft_real; [left; reflexivity|exact Hx|lia].
Qed.

(** A spectrum designed from a phase that vanishes at 0. *)
Lemma half_spectrum_hermitian (theta : nat -> R) (m : nat) :
  sin (theta 0%nat) = 0 ->
  hermitian (half_spectrum theta (2 ^ m)).
Proof.
  intros H0 k. rewrite half_spectrum_length. intros Hk.
  pose proof (pow2_pos m) as Hpos.
  set (N := (2 ^ m)%nat) in *.
  assert (Hhalf : (N / 2 < N)%nat) by (apply Nat.div_lt; lia).
  assert (Heven : m = 0%nat \/ N = (2 * (N / 2))%nat).
  { destruct m as [|m']; [left; reflexivity|right].
    unfold N. change (2 ^ S m')%nat with (2 * 2 ^ m')%nat.
    rewrite Nat.mul_comm, Nat.div_mul by lia. lia. }
  rewrite !half_spectrum_nth by exact Hpos.
  destruct k as [|k].
  - rewrite Nat.sub_0_r, Nat.Div0.mod_same.
    destruct (Nat.ltb_spec 0 (N / 2)).
    + unfold conj, cis; simpl. rewrite H0. f_equal. ring.
    + destruct (Nat.eqb_spec 0 (N / 2)); [|lia].
      unfold conj; simpl. f_equal. ring.
  - rewrite Nat.mod_small by lia.
    destruct Heven as [->|Heven]; [unfold N in Hk; simpl in Hk; lia|].
    destruct (Nat.ltb_spec (S k) (N / 2)) as [Hlo|Hhi].
    + destruct (Nat.ltb_spec (N - S k) (N / 2)); [lia|].
      destruct (Nat.eqb_spec (N - S k) (N / 2)); [lia|].
      destruct (Nat.ltb_spec (N - S k) N); [|lia].
      destruct (Nat.ltb_spec (N - (N - S k)) (N / 2)); [|lia].
      cbn [andb]. replace (N - (N - S k))%nat with (S k) by lia.
      reflexivity.
    + destruct (Nat.eqb_spec (S k) (N / 2)) as [E|Hne].
      * replace (N - S k)%nat with (N / 2)%nat by lia.
        rewrite Nat.ltb_irrefl, Nat.eqb_refl, E.
        unfold conj; simpl. f_equal. ring.
      * destruct (Nat.ltb_spec (S k) N); [|lia].
        destruct (Nat.ltb_spec (N - S k) (N / 2)); [|lia].
        cbn [andb]. rewrite conj_conj. reflexivity.
Qed.

End ConjugateSymmetry.

(** X14.  In exact arithmetic the forward transform of a real signal is
    conjugate-symmetric: bin [N - k] is the conjugate of bin [k], for the
    sizes [N = 2^m] up to [2^29]. *)
Theorem X14_fft_real_hermitian :
  forall (m : nat) (x : list (complex R)),
    (m <= 29)%nat ->
    length x = (2 ^ m)%nat -> real_signal x ->
    hermitian (TspToIr.simple_fft x (2 ^ m)).
Proof.
  intros m x _. apply fft_real_hermitian.
Qed.

Lemma X14_fft_real_hermitian_witness :
  let X := TspToIr.simple_fft [Cplx 1 0; Cplx 2 0; Cplx 0 0; Cplx 5 0]%R
             (2 ^ 2) in
  nth ((length X - 1) mod length X) X c0 = conj (nth 1 X c0).
Proof.
  intros X.
  apply (X14_fft_real_hermitian 2
           [Cplx 1 0; Cplx 2 0; Cplx 0 0; Cplx 5 0]%R).
  - lia.
  - reflexivity.
  - intros j. do 4 (destruct j as [|j]; [reflexivity|]).
    destruct j; reflexivity.
  - unfold X.
    rewrite (proj1 (transform_length
                      [Cplx 1 0; Cplx 2 0; Cplx 0 0; Cplx 5 0]%R (2 ^ 2))).
    simpl. lia.
Defined.

(** X15.  In exact arithmetic the inverse transform of a
    conjugate-symmetric spectrum is a real signal, for the sizes [N = 2^m]
    up to [2^29]. *)
Theorem X15_ifft_hermitian_real :
  forall (m : nat) (X : list (complex R)),
    (m <= 29)%nat ->
    length X = (2 ^ m)%nat -> hermitian X ->
    real_signal (TspToIr.simple_ifft X (2 ^ m)).
Proof.
  intros m X _. apply ifft_hermitian_real.
Qed.

Lemma X15_ifft_hermitian_real_witness :
  im (nth 1 (TspToIr.simple_ifft
               [Cplx 1 0; Cplx 2 3; Cplx 4 0; Cplx 2 (-3)]%R (2 ^ 2)) c0)
  = 0%R.
Proof.
  apply (X15_ifft_hermitian_real 2
           [Cplx 1 0; Cplx 2 3; Cplx 4 0; Cplx 2 (-3)]%R).
  - lia.
  - reflexivity.
  - intros k Hk. simpl in Hk.
    do 4 (destruct k as [|k];
          [unfold conj; simpl; f_equal; lra|]).
    lia.
Defined.

(** ** The signals the two transform programs write *)

Section RealOutputs.
Local Open Scope R_scope.





Lemma inv_phase_0 (N J : nat) : TspToIr.inv_theta (F := R) N J 0 = 0.
Proof. unfold TspToIr.inv_theta. simpl. unfold Rdiv. ring. Qed.



Lemma buffers_real (samples : list Z) (start count N : nat) :
  (count <= N)%nat ->
  real_signal (TspToIr.load_loop samples start 0 count (repeat c0 N)).
Proof.
  intros Hc j. rewrite load_loop_nth by (rewrite repeat_length; lia).
  rewrite nth_repeat_c0.
  destruct ((0 <=? j)%nat && (j <? 0 + count)%nat); reflexivity.
Qed.

Lemma hermitian_nth (X : list (complex R)) (k : nat) :
  hermitian X -> (k < length X)%nat ->
  cabs (nth ((length X - k) mod length X) X c0) = cabs (nth k X c0).
Proof. intros HX Hk. rewrite HX by exact Hk. apply cabs_conj. Qed.

(** The impulse response tsp_to_ir.c computes is real: the real part the
    program keeps is the whole signal. *)
Lemma deconvolve_real (tsp_samples response_samples : list Z) :
  let N := TspToIr.fft_size (length tsp_samples) (length response_samples) in
  real_signal
    (TspToIr.simple_ifft
       (TspToIr.ir_spectrum (F := R) tsp_samples response_samples) N).
Proof.
  intros N.
  destruct (fft_size_minimal (length tsp_samples) (length response_samples))
    as (m & EN & Hmax & _).
  fold N in EN.
  assert (LI : length (TspToIr.ir_spectrum (F := R) tsp_samples
                         response_samples) = N).
  { unfold TspToIr.ir_spectrum, TspToIr.ir_freq.
    apply ir_freq_loop_length. }
  rewrite EN. apply ifft_hermitian_real; [rewrite <- EN; exact LI|].
  intros k. rewrite LI. intros Hk.
  pose proof (pow2_pos m) as Hpos. rewrite <- EN in Hpos.
  assert (Hk' : ((N - k) mod N < N)%nat) by (apply Nat.mod_upper_bound; lia).
  unfold TspToIr.ir_spectrum, TspToIr.ir_freq. fold N.
  rewrite !ir_freq_loop_nth by assumption. cbn [Nat.add].
  set (TSP := TspToIr.simple_fft (TspToIr.tsp_buffer tsp_samples N) N).
  set (RESPONSE := TspToIr.simple_fft
                     (TspToIr.response_buffer (length tsp_samples)
                        response_samples N) N).
  set (INV := TspToIr.inv_filter N (length tsp_samples / 2)).
  assert (HT : hermitian TSP /\ length TSP = N).
  { unfold TSP. rewrite (proj1 (transform_length _ N)).
    unfold TspToIr.tsp_buffer.
    rewrite load_loop_length, repeat_length. split; [|reflexivity].
    rewrite EN. apply fft_real_hermitian.
    - rewrite load_loop_length, repeat_length. reflexivity.
    - apply buffers_real. lia. }
  assert (HR : hermitian RESPONSE /\ length RESPONSE = N).
  { unfold RESPONSE. rewrite (proj1 (transform_length _ N)).
    unfold TspToIr.response_buffer.
    rewrite load_loop_length, repeat_length. split; [|reflexivity].
    rewrite EN at 3. apply fft_real_hermitian.
    - rewrite load_loop_length, repeat_length. exact EN.
    - apply buffers_real. apply copy_len_bound. }
  assert (HI : hermitian INV /\ length INV = N).
  { unfold INV, TspToIr.inv_filter. rewrite half_spectrum_length.
    split; [|reflexivity]. rewrite EN. apply half_spectrum_hermitian.
    rewrite inv_phase_0. apply sin_0. }
  destruct HT as [HT LT], HR as [HR LR], HI as [HI LI'].
  pose proof (hermitian_nth TSP k HT) as Ec. rewrite LT in Ec.
  rewrite Ec by exact Hk.
  pose proof (HR k) as ER. rewrite LR in ER.
  pose proof (HI k) as EI. rewrite LI' in EI.
  rewrite ER, EI by exact Hk.
  destruct (flt _ _).
  - symmetry. apply conj_cmul.
  - unfold conj, c0; simpl. f_equal. ring.
Qed.

End RealOutputs.

(** ** tsp_gen.c's [main] *)

Section TspGenMain.
Local Open Scope R_scope.



End TspGenMain.

(** X16.  In exact arithmetic the impulse response tsp_to_ir.c computes is
    real for every pair of recordings of at most [2^29] samples each (so
    that the transform size is at most [2^29]): the real part the program
    keeps is the whole signal. *)
Theorem X16_deconvolve_real :
  forall (tsp_samples response_samples : list Z) (j : nat),
    (Z.of_nat (length tsp_samples) <= 536870912)%Z ->
    (Z.of_nat (length response_samples) <= 536870912)%Z ->
    let N :=
      TspToIr.fft_size (length tsp_samples) (length response_samples) in
    im (nth j (TspToIr.simple_ifft
                 (TspToIr.ir_spectrum (F := R) tsp_samples response_samples)
                 N) c0)
    = 0%R.
Proof.
  intros tsp_samples response_samples j _ _.
  apply (deconvolve_real tsp_samples response_samples j).
Qed.

Lemma X16_deconvolve_real_witness :
  im (nth 1 (TspToIr.simple_ifft
               (TspToIr.ir_spectrum (F := R) [100; -200]%Z
                  [50; 60; -70; 80; 90]%Z)
               (TspToIr.fft_size 2 5)) c0)
  = 0%R.
Proof.
  apply (X16_deconvolve_real [100; -200]%Z [50; 60; -70; 80; 90]%Z 1);
    simpl; lia.
Defined.



(** ** The scan for the regression window *)

Section Scan.
Context {F : Type} `{Arith F}.
Import IrAnalyze.
Local Open Scope arith_scope.

Lemma scan_spec (decay_curve : list F) (start_db end_db : F) (n : nat) :
  forall (i : nat) (st s e : Z),
    scan decay_curve start_db end_db i n st = (s, e) ->
    (e = (-1)%Z /\
     (forall j, (i <= j < i + n)%nat ->
                at_or_below decay_curve end_db j = false)
     \/
     exists q : nat,
       e = Z.of_nat q /\ (i <= q < i + n)%nat /\
       at_or_below decay_curve end_db q = true /\
       forall j, (i <= j < q)%nat -> at_or_below decay_curve end_db j = false)
    /\
    ((0 <= st)%Z -> s = st)
    /\
    ((st < 0)%Z ->
     s = st /\
     (forall j, (i <= j < i + n)%nat -> (e = (-1)%Z \/ (Z.of_nat j <= e)%Z) ->
                in_window decay_curve start_db end_db j = false)
     \/
     exists p : nat,
       s = Z.of_nat p /\ (i <= p < i + n)%nat /\
       (e = (-1)%Z \/ (Z.of_nat p <= e)%Z) /\
       in_window decay_curve start_db end_db p = true /\
       forall j, (i <= j < p)%nat ->
                 in_window decay_curve start_db end_db j = false).
Proof.
  induction n as [|n IH]; intros i st s e; cbn [scan].
  - intros E. inversion E; subst. repeat split.
    + left. split; [reflexivity|]. intros j Hj. lia.
    + intros _. left. split; [reflexivity|]. intros j Hj. lia.
  - fold (at_or_below decay_curve end_db i).
    fold (in_window decay_curve start_db end_db i).
    rewrite <- andb_assoc.
    fold (in_window decay_curve start_db end_db i).
    destruct (at_or_below decay_curve end_db i) eqn:Hb.
    + intros E. inversion E; subst. clear E. repeat split.
      * right. exists i. repeat split; try lia; exact Hb.
      * intros Hst. destruct (Z.ltb_spec st 0); [lia|]. reflexivity.
      * intros Hst. destruct (Z.ltb_spec st 0) as [_|]; [|lia]. cbn [andb].
        destruct (in_window decay_curve start_db end_db i) eqn:Hw.
        -- right. exists i. repeat split; try lia; exact Hw.
        -- left. split; [reflexivity|]. intros j Hj [He|He]; [lia|].
           replace j with i by lia. exact Hw.
    + assert (Hend : forall st', scan decay_curve start_db end_db (S i) n st'
                       = (s, e) ->
              (e = (-1)%Z \/ (Z.of_nat i <= e)%Z) /\
              (e = (-1)%Z /\
               (forall j, (i <= j < i + S n)%nat ->
                          at_or_below decay_curve end_db j = false)
               \/
               exists q : nat,
                 e = Z.of_nat q /\ (i <= q < i + S n)%nat /\
                 at_or_below decay_curve end_db q = true /\
                 forall j, (i <= j < q)%nat ->
                           at_or_below decay_curve end_db j = false)).
      { intros st' E. apply IH in E. destruct E as (He & _).
        destruct He as [[He Hall]|(q & Eq & Hq & Hbq & Hall)].
        - split; [left; exact He|]. left. split; [exact He|]. intros j Hj.
          destruct (Nat.eq_dec j i) as [->|Hne]; [exact Hb|].
          apply Hall. lia.
        - split; [right; lia|]. right. exists q.
          repeat split; try lia; try exact Hbq.
          intros j Hj.
          destruct (Nat.eq_dec j i) as [->|Hne]; [exact Hb|].
          apply Hall. lia. }
      destruct (Z.ltb_spec st 0) as [Hneg|Hpos]; cbn [andb];
        [destruct (in_window decay_curve start_db end_db i) eqn:Hw|];
        intros E; destruct (Hend _ E) as [Hie He];
        apply IH in E; destruct E as (_ & Hs0 & Hs1);
        (split; [exact He|]); (split; [intros Hst; try lia|intros Hst]).
      * right. exists i. rewrite Hs0 by lia.
        repeat split; try lia; assumption.
      * destruct (Hs1 Hst) as [[Es Hall]|(p & Ep & Hp & Hpe & Hwp & Hall)].
        -- left. split; [exact Es|]. intros j Hj Hje.
           destruct (Nat.eq_dec j i) as [->|Hne]; [exact Hw|].
           apply Hall; [lia|exact Hje].
        -- right. exists p. repeat split; try lia;
             try exact Hpe; try exact Hwp.
           intros j Hj.
           destruct (Nat.eq_dec j i) as [->|Hne]; [exact Hw|].
           apply Hall. lia.
      * lia.
Qed.

(** The scan returns the first index at or below [end_db], and -1 only when
    there is none; and the first index inside the window up to there, and
    -1 only when there is none: the start is never after the end, and the
    two coincide only when the first entry inside the window is also the
    first one at or below [end_db]. *)
Lemma scan_first_crossings (decay_curve : list F) (start_db end_db : F)
  (len : nat) (s e : Z) :
  scan decay_curve start_db end_db 0 len (-1) = (s, e) ->
  (e = (-1)%Z /\
   (forall j, (j < len)%nat -> at_or_below decay_curve end_db j = false)
   \/
   exists q : nat,
     e = Z.of_nat q /\ (q < len)%nat /\
     at_or_below decay_curve end_db q = true /\
     forall j, (j < q)%nat -> at_or_below decay_curve end_db j = false)
  /\
  (s = (-1)%Z /\
   (forall j, (j < len)%nat -> (e = (-1)%Z \/ (Z.of_nat j <= e)%Z) ->
              in_window decay_curve start_db end_db j = false)
   \/
   exists p : nat,
     s = Z.of_nat p /\ (p < len)%nat /\
     (e = (-1)%Z \/ (s <= e)%Z) /\
     in_window decay_curve start_db end_db p = true /\
     forall j, (j < p)%nat ->
               in_window decay_curve start_db end_db j = false).
Proof.
  intros E. apply scan_spec in E. destruct E as (He & _ & Hs). split.
  - destruct He as [[He Hnone]|(q & Eq & Hq & Hb & Hall)].
    + left. split; [exact He|]. intros j Hj. apply Hnone. lia.
    + right. exists q. repeat split; try assumption; try lia.
      intros j Hj. apply Hall. lia.
  - destruct (Hs ltac:(lia)) as [[Es Hnone]|(p & Ep & Hp & Hpe & Hw & Hall)].
    + left. split; [exact Es|]. intros j Hj Hje. apply Hnone; [lia|exact Hje].
    + right. exists p. repeat split; try assumption; try lia.
      intros j Hj. apply Hall. lia.
Qed.

End Scan.

(** X18.  The scan of [calculate_decay_time] returns as [end_idx] the first
    index whose entry is at or below [end_db], and -1 exactly when no entry
    is; and as [start_idx] the first index whose entry lies inside the
    window, the search stopping at [end_idx], and -1 exactly when no entry
    up to [end_idx] lies inside it.  A start index is therefore never after
    the end index. *)
Theorem X18_scan_first_crossings :
  forall (F : Type) (A : Arith F) (decay_curve : list F)
    (start_db end_db : F) (len : nat) (s e : Z),
    IrAnalyze.scan decay_curve start_db end_db 0 len (-1) = (s, e) ->
    (e = (-1)%Z /\
     (forall j : nat, (j < len)%nat ->
        at_or_below decay_curve end_db j = false)
     \/
     exists q : nat,
       e = Z.of_nat q /\ (q < len)%nat /\
       at_or_below decay_curve end_db q = true /\
       forall j : nat, (j < q)%nat ->
         at_or_below decay_curve end_db j = false)
    /\
    (s = (-1)%Z /\
     (forall j : nat, (j < len)%nat ->
        (e = (-1)%Z \/ (Z.of_nat j <= e)%Z) ->
        in_window decay_curve start_db end_db j = false)
     \/
     exists p : nat,
       s = Z.of_nat p /\ (p < len)%nat /\
       (e = (-1)%Z \/ (s <= e)%Z) /\
       in_window decay_curve start_db end_db p = true /\
       forall j : nat, (j < p)%nat ->
         in_window decay_curve start_db end_db j = false).
Proof.
  intros F A. exact scan_first_crossings.
Qed.

Lemma X18_scan_first_crossings_witness :
  let curve := [0; -3; -7; -12; -16; -20]%float in
  (4%Z = (-1)%Z /\
   (forall j : nat, (j < 6)%nat -> at_or_below curve (-15)%float j = false)
   \/
   exists q : nat,
     4%Z = Z.of_nat q /\ (q < 6)%nat /\
     at_or_below curve (-15)%float q = true /\
     forall j : nat, (j < q)%nat -> at_or_below curve (-15)%float j = false)
  /\
  (2%Z = (-1)%Z /\
   (forall j : nat, (j < 6)%nat ->
      (4%Z = (-1)%Z \/ (Z.of_nat j <= 4)%Z) ->
      in_window curve (-5)%float (-15)%float j = false)
   \/
   exists p : nat,
     2%Z = Z.of_nat p /\ (p < 6)%nat /\
     (4%Z = (-1)%Z \/ (2 <= 4)%Z) /\
     in_window curve (-5)%float (-15)%float p = true /\
     forall j : nat, (j < p)%nat ->
       in_window curve (-5)%float (-15)%float j = false).
Proof.
  intros curve.
  apply (X18_scan_first_crossings float binary64 curve (-5)%float
           (-15)%float 6 2 4).
  vm_compute. reflexivity.
Defined.

(** ** The regression and the decay time in exact arithmetic *)

Section RegressionExact.
Import IrAnalyze.
Local Open Scope R_scope.

Lemma regress_loop_snoc (decay_curve : list R) (fs : Z) (n i : nat)
  (s : sums) :
  regress_loop decay_curve fs i (S n) s =
  let s' := regress_loop decay_curve fs i n s in
  let x := IZR (Z.of_nat (i + n)) / IZR fs in
  let y := nth (i + n) decay_curve 0 in
  mk_sums (sum_x s' + x) (sum_y s' + y) (sum_xy s' + x * y)
          (sum_x2 s' + x * x).
Proof.
  revert i s; induction n as [|n IH]; intros i s.
  - cbn [regress_loop]. rewrite Nat.add_0_r. reflexivity.
  - change (regress_loop decay_curve fs i (S (S n)) s)
      with (regress_loop decay_curve fs (S i) (S n)
              (mk_sums (sum_x s + of_int (Z.of_nat i) / of_int fs)
                       (sum_y s + nth i decay_curve (of_int 0))
                       (sum_xy s + of_int (Z.of_nat i) / of_int fs
                                   * nth i decay_curve (of_int 0))
                       (sum_x2 s + of_int (Z.of_nat i) / of_int fs
                                   * (of_int (Z.of_nat i) / of_int fs)))).
    rewrite IH. cbv zeta. cbn [regress_loop].
    replace (S i + n)%nat with (i + S n)%nat by lia. reflexivity.
Qed.

(** The sums after [k] points of the line [y = a x + b], from index [p]. *)
Lemma regress_loop_line (decay_curve : list R) (fs : Z) (a b : R)
  (p k : nat) :
  IZR fs <> 0 ->
  (forall i, (p <= i < p + k)%nat ->
             nth i decay_curve 0 = a * (IZR (Z.of_nat i) / IZR fs) + b) ->
  let s := regress_loop decay_curve fs p k (mk_sums 0 0 0 0) in
  sum_y s = a * sum_x s + INR k * b /\
  sum_xy s = a * sum_x2 s + b * sum_x s /\
  (forall t, 0 <= sum_x2 s - 2 * t * sum_x s + INR k * (t * t)) /\
  ((1 <= k)%nat ->
   forall t, (IZR (Z.of_nat (p + k - 1)) / IZR fs - t)
             * (IZR (Z.of_nat (p + k - 1)) / IZR fs - t)
             <= sum_x2 s - 2 * t * sum_x s + INR k * (t * t)) /\
  0 <= INR k * sum_x2 s - sum_x s * sum_x s /\
  ((2 <= k)%nat -> 0 < INR k * sum_x2 s - sum_x s * sum_x s).
Proof.
  intros Hfs. induction k as [|k IH]; intros Hline.
  - cbn. repeat split; try lra; try lia. intros t. lra.
  - rewrite regress_loop_snoc. cbv zeta. cbn [sum_x sum_y sum_xy sum_x2].
    destruct IH as (Iy & Ixy & Iq & Ilast & Id & Ipos).
    { intros i Hi. apply Hline. lia. }
    set (s := regress_loop decay_curve fs p k (mk_sums 0 0 0 0)) in *.
    set (x := IZR (Z.of_nat (p + k)) / IZR fs).
    rewrite (Hline (p + k)%nat) by lia. fold x.
    rewrite S_INR.
    assert (Hq : forall t, (x - t) * (x - t)
                 <= sum_x2 s + x * x - 2 * t * (sum_x s + x)
                    + (INR k + 1) * (t * t)).
    { intros t. specialize (Iq t). nra. }
    repeat split.
    + rewrite Iy. ring.
    + rewrite Ixy. ring.
    + intros t. specialize (Hq t).
      pose proof (Rle_0_sqr (x - t)) as Hsq. unfold Rsqr in Hsq. lra.
    + intros _ t. replace (p + S k - 1)%nat with (p + k)%nat by lia.
      fold x. apply Hq.
    + specialize (Iq x). nra.
    + intros H2.
      assert (H1 : (1 <= k)%nat) by lia.
      specialize (Ilast H1 x).
      set (x' := IZR (Z.of_nat (p + k - 1)) / IZR fs) in *.
      assert (Ex : x - x' = 1 / IZR fs).
      { unfold x, x'. replace (p + k)%nat with (S (p + k - 1)) at 1 by lia.
        rewrite Nat2Z.inj_succ, succ_IZR. field. exact Hfs. }
      assert (Hsq : 0 < (x' - x) * (x' - x)).
      { replace (x' - x) with (- (1 / IZR fs)) by lra.
        assert (Hi : 1 / IZR fs <> 0).
        { unfold Rdiv. rewrite Rmult_1_l. apply Rinv_neq_0_compat.
          exact Hfs. }
        nra. }
      nra.
Qed.

(** On a curve that is exactly a line of slope [a] over the window the
    regression returns [a], with a positive denominator. *)
Lemma regression_line (decay_curve : list R) (fs : Z) (a b : R)
  (start_idx end_idx : Z) :
  fs <> 0%Z -> (0 <= start_idx < end_idx)%Z ->
  (forall i, (start_idx <= i <= end_idx)%Z ->
             nth (Z.to_nat i) decay_curve 0 = a * (IZR i / IZR fs) + b) ->
  0 < fst (regression decay_curve fs start_idx end_idx) /\
  snd (regression decay_curve fs start_idx end_idx) = a.
Proof.
  intros Hfs Hidx Hline. unfold regression. cbv zeta. cbn [fst snd].
  set (k := Z.to_nat (end_idx - start_idx + 1)).
  assert (Ek : IZR (end_idx - start_idx + 1) = INR k).
  { unfold k. rewrite INR_IZR_INZ, Z2Nat.id by lia. reflexivity. }
  assert (Hfs' : IZR fs <> 0) by (apply not_0_IZR; exact Hfs).
  destruct (regress_loop_line decay_curve fs a b (Z.to_nat start_idx) k Hfs')
    as (Iy & Ixy & _ & _ & _ & Ipos).
  { intros i Hi. rewrite <- (Nat2Z.id i) at 1. apply Hline. unfold k in Hi.
    lia. }
  set (s := regress_loop decay_curve fs (Z.to_nat start_idx) k
              (mk_sums 0 0 0 0)) in *.
  simpl of_int. simpl fmul. simpl fsub. simpl fdiv.
  change (regress_loop decay_curve fs (Z.to_nat start_idx) k
            (mk_sums (IZR 0) (IZR 0) (IZR 0) (IZR 0))) with s.
  rewrite Ek.
  assert (Hpos : 0 < INR k * sum_x2 s - sum_x s * sum_x s)
    by (apply Ipos; unfold k; lia).
  split; [exact Hpos|].
  rewrite Iy, Ixy. field. lra.
Qed.

(** For a sample rate that is not zero (with a zero rate the times [i / fs]
    are not numbers), the value [calculate_decay_time] returns is -1 or
    positive; when it is positive the window is a proper interval of the
    curve and the value is 60 divided by the magnitude of the fitted
    slope. *)
Lemma decay_time_dichotomy (decay_curve : list R) (len : nat) (fs : Z)
  (start_db end_db : R) :
  fs <> 0%Z ->
  let '(v, s, e) :=
    calculate_decay_time decay_curve len fs start_db end_db in
  v = -1 \/
  (0 < v /\ (0 <= s < e)%Z /\ (e < Z.of_nat len)%Z /\
   snd (regression decay_curve fs s e) < 0 /\
   v = 60 / - snd (regression decay_curve fs s e)).
Proof.
  intros _. unfold calculate_decay_time.
  destruct (scan decay_curve start_db end_db 0 len (-1)) as [s e] eqn:Es.
  destruct ((s <? 0)%Z || (e <? 0)%Z || (e <=? s)%Z) eqn:Hg;
    [left; reflexivity|].
  rewrite !orb_false_iff in Hg. destruct Hg as [[G1 G2] G3].
  apply Z.ltb_ge in G1, G2. apply Z.leb_gt in G3.
  destruct (regression decay_curve fs s e) as [d slope] eqn:Er.
  destruct (flt (fabs d) lit_1em10); [left; reflexivity|].
  simpl flt. simpl fle. unfold Exact.leb.
  destruct (Rle_dec 0 slope) as [Hs|Hs]; lazy beta iota zeta;
    [left; reflexivity|].
  right. rewrite Er. cbn [snd]. simpl fdiv. simpl of_int.
  assert (Hneg : slope < 0) by lra.
  apply scan_first_crossings in Es. destruct Es as [He _].
  repeat split; try lia.
  - apply Rmult_lt_reg_r with (- slope); [lra|].
    unfold Rdiv. rewrite Rmult_assoc.
    replace (/ slope * - slope) with (-1) by (field; lra). lra.
  - destruct He as [He|(q & Eq & Hq & _)]; lia.
  - exact Hneg.
  - field. lra.
Qed.

(** What [main] prints for a sample rate that is not zero: each decay time
    is -1 or positive, and the RT60 derived from it is -1 in the first case,
    6 times T10 and 3 times T20 in the second. *)
Lemma analyze_report (ir_samples : list Z) (fs : Z) (num_samples : nat) :
  fs <> 0%Z ->
  let r := analyze (F := R) ir_samples fs num_samples in
  (t10 r = -1 /\ rt60_t10 r = -1 \/ 0 < t10 r /\ rt60_t10 r = t10 r * 6) /\
  (t20 r = -1 /\ rt60_t20 r = -1 \/ 0 < t20 r /\ rt60_t20 r = t20 r * 3).
Proof.
  intros Hfs. unfold analyze.
  set (curve := schroeder_integral ir_samples num_samples
                  (repeat (of_int 0) num_samples)).
  pose proof (decay_time_dichotomy curve num_samples fs
                (of_int (-5)) (of_int (-15)) Hfs) as D10.
  pose proof (decay_time_dichotomy curve num_samples fs
                (of_int (-5)) (of_int (-25)) Hfs) as D20.
  destruct (calculate_decay_time curve num_samples fs (of_int (-5))
              (of_int (-15))) as [[v10 s10] e10].
  destruct (calculate_decay_time curve num_samples fs (of_int (-5))
              (of_int (-25))) as [[v20 s20] e20].
  cbn [t10 rt60_t10 t20 rt60_t20]. simpl flt. simpl of_int. simpl fmul.
  unfold Exact.ltb. split.
  - destruct D10 as [->|(Hp & _)].
    + left. destruct (Rlt_dec 0 (-1)); [lra|]. auto.
    + right. destruct (Rlt_dec 0 v10); [|lra]. auto.
  - destruct D20 as [->|(Hp & _)].
    + left. destruct (Rlt_dec 0 (-1)); [lra|]. auto.
    + right. destruct (Rlt_dec 0 v20); [|lra]. auto.
Qed.

End RegressionExact.

(** X19.  In exact arithmetic the regression of [calculate_decay_time] is
    exact on a line: if the curve is [a t + b] at the times [t = i / fs] of
    the window, the fitted slope is [a], and the denominator it divides by is
    positive. *)
Theorem X19_regression_line :
  forall (decay_curve : list R) (fs : Z) (a b : R) (start_idx end_idx : Z),
    fs <> 0%Z -> (0 <= start_idx < end_idx)%Z ->
    (forall i : Z, (start_idx <= i <= end_idx)%Z ->
       nth (Z.to_nat i) decay_curve 0%R = (a * (IZR i / IZR fs) + b)%R) ->
    (0 < fst (IrAnalyze.regression decay_curve fs start_idx end_idx))%R /\
    snd (IrAnalyze.regression decay_curve fs start_idx end_idx) = a.
Proof.
  exact regression_line.
Qed.

Lemma X19_regression_line_witness :
  (0 < fst (IrAnalyze.regression [1; -4; -9; -14]%R 2 1 3))%R /\
  snd (IrAnalyze.regression [1; -4; -9; -14]%R 2 1 3) = (-10)%R.
Proof.
  apply (X19_regression_line [1; -4; -9; -14]%R 2 (-10) 1 1 3).
  - discriminate.
  - lia.
  - intros i Hi.
    assert (E : i = 1%Z \/ i = 2%Z \/ i = 3%Z) by lia.
    destruct E as [-> | [-> | ->]]; simpl; lra.
Defined.

(** X20.  In exact arithmetic, for a sample rate that is not zero, the
    value [calculate_decay_time] returns is -1 or positive, never zero and
    never another negative number; when it is positive the indices it
    reports satisfy [0 <= start < end < len], the fitted slope is negative,
    and the value is 60 divided by the magnitude of that slope.  (With a
    rate of zero, which [read_wav] accepts, the times [i / fs] of the
    regression are not numbers.) *)
Theorem X20_decay_time_dichotomy :
  forall (decay_curve : list R) (len : nat) (fs : Z) (start_db end_db : R),
    fs <> 0%Z ->
    let '(v, s, e) :=
      IrAnalyze.calculate_decay_time decay_curve len fs start_db end_db in
    v = (-1)%R \/
    ((0 < v)%R /\ (0 <= s < e)%Z /\ (e < Z.of_nat len)%Z /\
     (snd (IrAnalyze.regression decay_curve fs s e) < 0)%R /\
     v = (60 / - snd (IrAnalyze.regression decay_curve fs s e))%R).
Proof.
  exact decay_time_dichotomy.
Qed.

Lemma X20_decay_time_dichotomy_witness :
  let '(v, s, e) :=
    IrAnalyze.calculate_decay_time [0; -5; -10; -15; -20]%R 5 2 (-5)%R
      (-15)%R in
  v = (-1)%R \/
  ((0 < v)%R /\ (0 <= s < e)%Z /\ (e < Z.of_nat 5)%Z /\
   (snd (IrAnalyze.regression [0; -5; -10; -15; -20]%R 2 s e) < 0)%R /\
   v = (60 / - snd (IrAnalyze.regression [0; -5; -10; -15; -20]%R 2 s e))%R).
Proof.
  apply (X20_decay_time_dichotomy [0; -5; -10; -15; -20]%R 5 2 (-5)%R
           (-15)%R).
  discriminate.
Defined.

(** X21.  In exact arithmetic, for a sample rate in the header that is not
    zero, the report of ir_analyze.c's [main] is consistent: T10 and T20 are
    each -1 or positive; the RT60 derived from T10 is -1 in the first case
    and 6 times T10 in the second, the one derived from T20 is -1 or 3 times
    T20. *)
Theorem X21_analyze_report :
  forall (ir_samples : list Z) (fs : Z) (num_samples : nat),
    fs <> 0%Z ->
    let r := IrAnalyze.analyze (F := R) ir_samples fs num_samples in
    (IrAnalyze.t10 r = (-1)%R /\ IrAnalyze.rt60_t10 r = (-1)%R \/
     (0 < IrAnalyze.t10 r)%R /\
     IrAnalyze.rt60_t10 r = (IrAnalyze.t10 r * 6)%R) /\
    (IrAnalyze.t20 r = (-1)%R /\ IrAnalyze.rt60_t20 r = (-1)%R \/
     (0 < IrAnalyze.t20 r)%R /\
     IrAnalyze.rt60_t20 r = (IrAnalyze.t20 r * 3)%R).
Proof.
  exact analyze_report.
Qed.

Lemma X21_analyze_report_witness :
  let r := IrAnalyze.analyze (F := R) [1000; -500; 250; -125]%Z 48000 4 in
  (IrAnalyze.t10 r = (-1)%R /\ IrAnalyze.rt60_t10 r = (-1)%R \/
   (0 < IrAnalyze.t10 r)%R /\
   IrAnalyze.rt60_t10 r = (IrAnalyze.t10 r * 6)%R) /\
  (IrAnalyze.t20 r = (-1)%R /\ IrAnalyze.rt60_t20 r = (-1)%R \/
   (0 < IrAnalyze.t20 r)%R /\
   IrAnalyze.rt60_t20 r = (IrAnalyze.t20 r * 3)%R).
Proof.
  apply (X21_analyze_report [1000; -500; 250; -125]%Z 48000 4).
  discriminate.
Defined.

(** ** The decay curve in dB, in exact arithmetic *)

Section SchroederDb.
Import IrAnalyze.
Local Open Scope R_scope.

Lemma backward_energy_positive (ir : list Z) :
  (exists k, (k < length ir)%nat /\ nth k ir 0%Z <> 0%Z) ->
  0 < nth 0 (backward_energy (F := R) ir) 0.
Proof.
  induction ir as [|s rest IH]; intros (k & Hk & Hnz).
  - simpl in Hk. lia.
  - cbn [backward_energy nth]. simpl.
    pose proof (backward_energy_head_nonneg rest) as Hh.
    destruct k as [|k].
    + cbn [nth] in Hnz.
      assert (Hs : IZR s <> 0) by (apply not_0_IZR; exact Hnz).
      assert (Hq : IZR s / 32768 <> 0).
      { unfold Rdiv. apply Rmult_integral_contrapositive_currified;
          [exact Hs|]. apply Rinv_neq_0_compat. lra. }
      nra.
    + assert (Hr : 0 < nth 0 (backward_energy (F := R) rest) 0).
      { apply IH. exists k. simpl in Hk. split; [lia|exact Hnz]. }
      assert (Eh : hd 0 (backward_energy (F := R) rest)
                   = nth 0 (backward_energy (F := R) rest) 0)
        by (destruct (backward_energy rest); reflexivity).
      simpl in Eh. rewrite Eh.
      pose proof (Rle_0_sqr (IZR s / 32768)) as Hsq. unfold Rsqr in Hsq.
      lra.
Qed.

Lemma ln_10_pos : 0 < ln 10.
Proof. rewrite <- ln_1. apply ln_increasing; lra. Qed.

Lemma to_db_le (m e e' : R) :
  0 < m -> 0 < e <= e' ->
  to_db m e <= to_db m e'.
Proof.
  intros Hm [He Hee]. unfold to_db. simpl. unfold Exact.ltb, Exact.log10.
  destruct (Rlt_dec 0 e) as [_|]; [|lra].
  destruct (Rlt_dec 0 e') as [_|]; [|lra].
  pose proof ln_10_pos as H10.
  assert (Hl : ln (e / m) <= ln (e' / m)).
  { destruct (Req_dec e e') as [->|Hne]; [lra|].
    apply Rlt_le, ln_increasing.
    - apply Rdiv_lt_0_compat; assumption.
    - unfold Rdiv. apply Rmult_lt_compat_r; [|lra].
      apply Rinv_0_lt_compat. exact Hm. }
  apply Rmult_le_compat_l; [lra|].
  unfold Rdiv. apply Rmult_le_compat_r; [|exact Hl].
  apply Rlt_le, Rinv_0_lt_compat. exact H10.
Qed.

Lemma to_db_max (m : R) : 0 < m -> to_db m m = 0.
Proof.
  intros Hm. unfold to_db. simpl. unfold Exact.ltb, Exact.log10.
  destruct (Rlt_dec 0 m) as [_|]; [|lra].
  replace (m / m) with 1 by (field; lra). rewrite ln_1.
  unfold Rdiv. ring.
Qed.

Lemma to_db_nonpos (m e : R) : 0 < m -> e <= m -> to_db m e <= 0.
Proof.
  intros Hm He. destruct (Rlt_dec 0 e) as [Hp|Hn].
  - rewrite <- (to_db_max m Hm). apply to_db_le; [exact Hm|lra].
  - unfold to_db. simpl. unfold Exact.ltb.
    destruct (Rlt_dec 0 e); [lra|]. lra.
Qed.

(** For an impulse response with a non-zero sample the curve starts at
    0 dB, never rises above 0 dB, and does not rise from one index to a later
    one as long as the energy left at the later index is positive. *)
Lemma schroeder_db_curve (ir : list Z) (buf : list R) :
  length buf = length ir ->
  (exists k, (k < length ir)%nat /\ nth k ir 0%Z <> 0%Z) ->
  let curve := schroeder_integral ir (length ir) buf in
  nth 0 curve 0 = 0 /\
  (forall i, (i < length ir)%nat -> nth i curve 0 <= 0) /\
  (forall i j, (i <= j < length ir)%nat ->
               0 < nth j (backward_energy (F := R) ir) 0 ->
               nth j curve 0 <= nth i curve 0).
Proof.
  intros Hb Hnz curve. unfold curve.
  rewrite schroeder_integral_spec by exact Hb. cbv zeta.
  pose proof (backward_energy_positive ir Hnz) as Hm.
  simpl flt. simpl of_int. unfold Exact.ltb.
  destruct (Rlt_dec 0 (nth 0 (backward_energy (F := R) ir) 0)) as [_|];
    [|contradiction].
  set (m := nth 0 (backward_energy (F := R) ir) 0) in *.
  assert (Hlen : (0 < length ir)%nat)
    by (destruct Hnz as (k & Hk & _); lia).
  assert (Hn : forall i, (i < length ir)%nat ->
            nth i (map (to_db m) (backward_energy ir)) 0
            = to_db m (nth i (backward_energy (F := R) ir) 0)).
  { intros i Hi.
    rewrite (nth_indep _ 0 (to_db m 0))
      by (rewrite length_map, backward_energy_length; exact Hi).
    apply (map_nth (to_db m)). }
  repeat split.
  - rewrite Hn by exact Hlen. apply to_db_max. exact Hm.
  - intros i Hi. rewrite Hn by exact Hi. apply to_db_nonpos; [exact Hm|].
    apply backward_energy_nonincreasing. lia.
  - intros i j Hij Hj. rewrite !Hn by lia. apply to_db_le; [exact Hm|].
    split; [exact Hj|]. apply backward_energy_nonincreasing. exact Hij.
Qed.

End SchroederDb.

(** X22.  In exact arithmetic, for an impulse response with a non-zero
    sample, the decay curve [schroeder_integral] leaves in the buffer starts
    at 0 dB, never exceeds 0 dB, and does not rise from an index to a later
    one whose remaining energy is positive. *)
Theorem X22_schroeder_db_curve :
  forall (ir : list Z) (buf : list R),
    length buf = length ir ->
    (exists k : nat, (k < length ir)%nat /\ nth k ir 0%Z <> 0%Z) ->
    let curve := IrAnalyze.schroeder_integral ir (length ir) buf in
    nth 0 curve 0%R = 0%R /\
    (forall i : nat, (i < length ir)%nat -> (nth i curve 0 <= 0)%R) /\
    (forall i j : nat, (i <= j < length ir)%nat ->
       (0 < nth j (IrAnalyze.backward_energy (F := R) ir) 0)%R ->
       (nth j curve 0 <= nth i curve 0)%R).
Proof.
  exact schroeder_db_curve.
Qed.

Lemma X22_schroeder_db_curve_witness :
  let curve :=
    IrAnalyze.schroeder_integral [16384; -8192; 0]%Z 3 [0; 0; 0]%R in
  nth 0 curve 0%R = 0%R /\ (nth 1 curve 0 <= nth 0 curve 0)%R.
Proof.
  intros curve.
  destruct (X22_schroeder_db_curve [16384; -8192; 0]%Z [0; 0; 0]%R eq_refl)
    as (H0 & _ & Hmono).
  - exists 0%nat. split; [simpl; lia|discriminate].
  - split; [exact H0|].
    apply (Hmono 0%nat 1%nat); [simpl; lia|].
    simpl. lra.
Defined.

(** ** The adaptive filter: the delay line *)

Section NlmsState.
Context {F : Type} `{Arith F}.
Import AdaptiveFilter.
Local Open Scope nat_scope.

Lemma spec_state_delay_line (x y : list F) (filter_len : nat) (mu beta : F)
  (k i : nat) :
  0 < filter_len -> i < filter_len ->
  nth i (snd (spec_state x y filter_len mu beta k)) (of_int 0) =
  if i <? k then nth (k - 1 - i) x (of_int 0) else of_int 0.
Proof.
  intros Hf. revert i; induction k as [|k IH]; intros i Hi.
  - cbn [spec_state snd]. apply nth_repeat.
  - cbn [spec_state].
    pose proof (spec_state_length x y filter_len mu beta k Hf) as [_ Lx].
    destruct (spec_state x y filter_len mu beta k) as [h x_buf].
    cbn [snd] in *. unfold delay_line.
    destruct i as [|i]; cbn [nth].
    + change (0 <? S k) with true. cbv iota.
      replace (S k - 1 - 0) with k by lia. reflexivity.
    + rewrite nth_removelast by lia. rewrite IH by lia.
      change (S i <? S k) with (i <? k).
      replace (S k - 1 - S i) with (k - 1 - i) by lia. reflexivity.
Qed.

(** After [k] samples both arrays still have [filter_len] entries, and the
    delay line holds the last inputs, newest first, over zeros. *)
Lemma nlms_state_invariant (x y : list F) (filter_len : nat) (h : list F)
  (mu beta : F) (k : nat) :
  0 < filter_len -> length h = filter_len ->
  let st := nlms_state x y filter_len h mu beta k in
  length (fst st) = filter_len /\
  length (snd st) = filter_len /\
  forall i, i < filter_len ->
    nth i (snd st) (of_int 0) =
    if i <? k then nth (k - 1 - i) x (of_int 0) else of_int 0.
Proof.
  intros Hf Hh st. unfold st. rewrite nlms_state_spec by assumption.
  destruct (spec_state_length x y filter_len mu beta k Hf) as [L1 L2].
  repeat split; try assumption.
  intros i Hi. apply spec_state_delay_line; assumption.
Qed.

End NlmsState.

(** ** The adaptive filter in exact arithmetic *)

Section NlmsExact.
Import AdaptiveFilter.
Local Open Scope R_scope.

Lemma rsum_ext (f g : nat -> R) (n : nat) :
  (forall i, (i < n)%nat -> f i = g i) -> rsum f n = rsum g n.
Proof.
  induction n as [|n IH]; intros Hfg; cbn [rsum]; [reflexivity|].
  rewrite IH, Hfg by (intros; try apply Hfg; lia). reflexivity.
Qed.

Lemma rsum_shift (f : nat -> R) (n : nat) :
  rsum f (S n) = f 0%nat + rsum (fun i => f (S i)) n.
Proof.
  induction n as [|n IH].
  - cbn [rsum]. ring.
  - change (rsum f (S (S n))) with (rsum f (S n) + f (S n)).
    rewrite IH. cbn [rsum]. ring.
Qed.

Lemma rsum_plus (f g : nat -> R) (n : nat) :
  rsum (fun i => f i + g i) n = rsum f n + rsum g n.
Proof. induction n as [|n IH]; cbn [rsum]; [ring|rewrite IH; ring]. Qed.

Lemma rsum_scale (c : R) (f : nat -> R) (n : nat) :
  rsum (fun i => c * f i) n = c * rsum f n.
Proof. induction n as [|n IH]; cbn [rsum]; [ring|rewrite IH; ring]. Qed.

Lemma rsum_nonneg (f : nat -> R) (n : nat) :
  (forall i, 0 <= f i) -> 0 <= rsum f n.
Proof.
  intros Hf. induction n as [|n IH]; cbn [rsum]; [lra|].
  specialize (Hf n). lra.
Qed.

Lemma fold_left_rsum {A : Type} (g : A -> R) (d : A) (l : list A) (a : R) :
  fold_left (fun acc p => acc + g p) l a
  = a + rsum (fun i => g (nth i l d)) (length l).
Proof.
  revert a; induction l as [|p l IH]; intros a.
  - cbn. ring.
  - cbn [fold_left length]. rewrite IH, rsum_shift. cbn [nth]. ring.
Qed.

Lemma predict_rsum (h x_buf : list R) :
  length x_buf = length h ->
  predict h x_buf
  = rsum (fun i => nth i h 0 * nth i x_buf 0) (length h).
Proof.
  intros HL. unfold predict. simpl fadd. simpl fmul. simpl of_int.
  rewrite (fold_left_rsum (fun p => fst p * snd p) (0, 0)).
  rewrite length_combine, HL, Nat.min_id, Rplus_0_l.
  apply rsum_ext. intros i Hi. rewrite combine_nth by (symmetry; exact HL).
  reflexivity.
Qed.

Lemma input_power_rsum (beta : R) (x_buf : list R) :
  input_power beta x_buf
  = beta + rsum (fun i => nth i x_buf 0 * nth i x_buf 0) (length x_buf).
Proof.
  unfold input_power. simpl fadd. simpl fmul.
  apply (fold_left_rsum (fun x_i => x_i * x_i) 0).
Qed.

Lemma spec_update_nth (mu beta : R) (h x_buf : list R) (y_n : R) (i : nat) :
  length x_buf = length h -> (i < length h)%nat ->
  nth i (spec_update mu beta h x_buf y_n) 0 =
  if Exact.ltb (/ 10000000000) (input_power beta x_buf)
  then nth i h 0
       + mu / input_power beta x_buf * (y_n - predict h x_buf)
         * nth i x_buf 0
  else nth i h 0.
Proof.
  intros HL Hi. unfold spec_update. simpl flt. simpl lit_1em10.
  destruct (Exact.ltb _ _); [|reflexivity].
  set (c := (mu / input_power beta x_buf * (y_n - predict h x_buf))%A).
  rewrite (nth_indep _ 0
             ((fun p : R * R => (fst p + c * snd p)%A) (0, 0)))
    by (rewrite length_map, length_combine, HL, Nat.min_id; exact Hi).
  rewrite (map_nth (fun p : R * R => (fst p + c * snd p)%A)).
  rewrite combine_nth by (symmetry; exact HL). reflexivity.
Qed.

Section OneStep.
Variables (h x_buf : list R) (mu beta y_n : R).
Hypothesis HL : length x_buf = length h.
Hypothesis Hbeta : 0 <= beta.
Hypothesis Hmu : 0 <= mu <= 2.

Let x_energy := rsum (fun i => nth i x_buf 0 * nth i x_buf 0) (length h).
Let x_power := input_power beta x_buf.
Let e := y_n - predict h x_buf.
Let h' := spec_update mu beta h x_buf y_n.

Lemma step_power : x_power = beta + x_energy /\ 0 <= x_energy.
Proof.
  unfold x_power, x_energy. rewrite input_power_rsum, HL. split; [reflexivity|].
  apply rsum_nonneg. intros i.
  pose proof (Rle_0_sqr (nth i x_buf 0)) as Hs. exact Hs.
Qed.

Lemma step_length : length h' = length h.
Proof. apply spec_update_length. exact HL. Qed.

Lemma step_predict :
  Exact.ltb (/ 10000000000) x_power = true ->
  predict h' x_buf = predict h x_buf + mu / x_power * e * x_energy.
Proof.
  intros Hp. rewrite predict_rsum by (rewrite step_length; exact HL).
  rewrite step_length.
  rewrite (rsum_ext _ (fun i => nth i h 0 * nth i x_buf 0
                          + mu / x_power * e
                            * (nth i x_buf 0 * nth i x_buf 0))).
  - rewrite rsum_plus, rsum_scale, <- predict_rsum by exact HL.
    reflexivity.
  - intros i Hi. unfold h'. rewrite spec_update_nth by assumption.
    fold x_power. rewrite Hp. fold e. ring.
Qed.

(** The update does not increase the magnitude of the error on the sample
    it was computed from. *)
Lemma step_error : Rabs (y_n - predict h' x_buf) <= Rabs e.
Proof.
  destruct step_power as [EP HS].
  destruct (Exact.ltb (/ 10000000000) x_power) eqn:Hp.
  - rewrite step_predict by exact Hp.
    assert (HP : 0 < x_power).
    { unfold Exact.ltb in Hp. destruct (Rlt_dec (/ 10000000000) x_power);
        [lra|discriminate]. }
    set (r := x_energy / x_power).
    assert (Hr : 0 <= r <= 1).
    { unfold r. split.
      - apply Rmult_le_pos; [exact HS|]. apply Rlt_le, Rinv_0_lt_compat.
        exact HP.
      - apply Rmult_le_reg_r with x_power; [exact HP|].
        unfold Rdiv. rewrite Rmult_assoc, Rinv_l by lra. lra. }
    replace (y_n - (predict h x_buf + mu / x_power * e * x_energy))
      with (e * (1 - mu * r)) by (unfold e, r; field; lra).
    rewrite Rabs_mult.
    rewrite <- (Rmult_1_r (Rabs e)) at 2.
    apply Rmult_le_compat_l; [apply Rabs_pos|].
    apply Rabs_le. nra.
  - unfold h', spec_update. simpl flt. simpl lit_1em10. fold x_power.
    rewrite Hp. fold e. lra.
Qed.

(** If the sample is the response of the filter [w] to the delay line, the
    update does not take the coefficients further from [w]. *)
Lemma step_distance (w : list R) :
  length w = length h ->
  y_n = predict w x_buf ->
  distance2 h' w <= distance2 h w.
Proof.
  intros Hw Hy. destruct step_power as [EP HS].
  unfold distance2. rewrite step_length.
  destruct (Exact.ltb (/ 10000000000) x_power) eqn:Hp.
  - assert (HP : 0 < x_power).
    { unfold Exact.ltb in Hp. destruct (Rlt_dec (/ 10000000000) x_power);
        [lra|discriminate]. }
    set (c := mu / x_power * e).
    set (D := rsum (fun i => (nth i h 0 - nth i w 0) * nth i x_buf 0)
                (length h)).
    assert (ED : e = - D).
    { unfold e, D. rewrite Hy.
      rewrite (predict_rsum w) by (rewrite Hw; exact HL).
      rewrite (predict_rsum h) by exact HL. rewrite Hw.
      rewrite <- (Rmult_1_l (rsum (fun i => nth i h 0 * nth i x_buf 0) _)).
      replace (rsum (fun i => nth i w 0 * nth i x_buf 0) (length h)
               - 1 * rsum (fun i => nth i h 0 * nth i x_buf 0) (length h))
        with (rsum (fun i => nth i w 0 * nth i x_buf 0) (length h)
              + (-1) * rsum (fun i => nth i h 0 * nth i x_buf 0) (length h))
        by ring.
      rewrite <- rsum_scale, <- rsum_plus.
      replace (- rsum (fun i => (nth i h 0 - nth i w 0) * nth i x_buf 0)
                 (length h))
        with ((-1) * rsum (fun i => (nth i h 0 - nth i w 0) * nth i x_buf 0)
                       (length h)) by ring.
      rewrite <- rsum_scale. apply rsum_ext. intros i _. ring. }
    rewrite (rsum_ext _
               (fun i => (nth i h 0 - nth i w 0) * (nth i h 0 - nth i w 0)
                         + (2 * c * ((nth i h 0 - nth i w 0) * nth i x_buf 0)
                            + c * c * (nth i x_buf 0 * nth i x_buf 0)))).
    + rewrite !rsum_plus, !rsum_scale. fold D. fold x_energy.
      assert (Hc : 2 * c * D + c * c * x_energy <= 0).
      { replace (2 * c * D + c * c * x_energy)
          with (mu * (e * e) * (/ x_power * / x_power)
                * ((mu - 2) * x_energy - 2 * beta)).
        - assert (H1 : 0 <= mu * (e * e) * (/ x_power * / x_power)).
          { apply Rmult_le_pos; [apply Rmult_le_pos; [lra|]|].
            - pose proof (Rle_0_sqr e) as Hs. exact Hs.
            - pose proof (Rle_0_sqr (/ x_power)) as Hs. exact Hs. }
          assert (H2 : (mu - 2) * x_energy - 2 * beta <= 0) by nra.
          nra.
        - unfold c. rewrite ED, EP. field. lra. }
      lra.
    + intros i Hi. unfold h'. rewrite spec_update_nth by assumption.
      fold x_power. rewrite Hp. fold e. fold c. ring.
  - apply Req_le. apply rsum_ext. intros i Hi.
    unfold h'. rewrite spec_update_nth by assumption. fold x_power. rewrite Hp.
    reflexivity.
Qed.

End OneStep.

(** One pass of the sample loop never increases the error on the sample it
    has just used. *)
Lemma nlms_error_shrinks (x y h x_buf : list R) (mu beta : R) (n : nat) :
  (0 < length h)%nat -> length x_buf = length h ->
  0 <= beta -> 0 <= mu <= 2 ->
  let st := nlms_sample x y (length h) mu beta n (h, x_buf) in
  Rabs (nth n y 0 - predict (fst st) (snd st))
  <= Rabs (nth n y 0 - predict h (snd st)).
Proof.
  intros Hh HL Hb Hm st. unfold st.
  rewrite nlms_sample_spec by assumption. cbn [fst snd].
  apply step_error; try assumption.
  unfold delay_line. cbn [length]. rewrite removelast_length. lia.
Qed.

Lemma predict_fir (x y w : list R) (filter_len : nat) (mu beta : R)
  (n : nat) :
  (0 < filter_len)%nat -> length w = filter_len ->
  predict w (delay_line (snd (spec_state x y filter_len mu beta n))
                        (nth n x 0))
  = fir w x n.
Proof.
  intros Hf Hw.
  assert (E : delay_line (snd (spec_state x y filter_len mu beta n))
                (nth n x 0)
              = snd (spec_state x y filter_len mu beta (S n))).
  { cbn [spec_state].
    destruct (spec_state x y filter_len mu beta n). reflexivity. }
  rewrite E.
  destruct (spec_state_length x y filter_len mu beta (S n) Hf) as [_ L].
  rewrite predict_rsum by (rewrite L, Hw; reflexivity).
  unfold fir. apply rsum_ext. intros i Hi.
  assert (Ed : nth i (snd (spec_state x y filter_len mu beta (S n))) 0
               = if (i <? S n)%nat then nth (S n - 1 - i) x 0 else 0).
  { rewrite Hw in Hi.
    exact (spec_state_delay_line x y filter_len mu beta (S n) i Hf Hi). }
  rewrite Ed.
  change (i <? S n)%nat with (i <=? n)%nat.
  replace (S n - 1 - i)%nat with (n - i)%nat by lia. reflexivity.
Qed.

(** If the recorded signal is the response of a filter [w] of [filter_len]
    coefficients to the input, the coefficients never move away from [w]:
    their squared distance from [w] after [k] samples is at most what it
    was after [j <= k] samples. *)
Lemma nlms_distance_nonincreasing (x y w h : list R) (filter_len : nat)
  (mu beta : R) (j k : nat) :
  (0 < filter_len)%nat -> length h = filter_len -> length w = filter_len ->
  0 <= beta -> 0 <= mu <= 2 ->
  (forall n, (n < k)%nat -> nth n y 0 = fir w x n) ->
  (j <= k)%nat ->
  distance2 (fst (nlms_state x y filter_len h mu beta k)) w
  <= distance2 (fst (nlms_state x y filter_len h mu beta j)) w.
Proof.
  intros Hf Hh Hw Hb Hm Hy Hjk.
  induction k as [|k IH].
  - replace j with 0%nat by lia. lra.
  - destruct (Nat.eq_dec j (S k)) as [->|Hne]; [lra|].
    eapply Rle_trans; [|apply IH; [|lia]].
    + pose proof (Hy k ltac:(lia)) as Hyk.
      rewrite <- (predict_fir x y w filter_len mu beta k Hf Hw) in Hyk.
      rewrite !nlms_state_spec by assumption.
      cbn [spec_state].
      destruct (spec_state_length x y filter_len mu beta k Hf) as [L1 L2].
      destruct (spec_state x y filter_len mu beta k) as [hk xk].
      cbn [fst snd] in *.
      apply step_distance; try assumption.
      * unfold delay_line. cbn [length]. rewrite removelast_length. lia.
      * lia.
    + intros n Hn. apply Hy. lia.
Qed.

End NlmsExact.

(** X23.  After any number [k] of samples the adaptive filter still has
    [filter_len] coefficients and a delay line of [filter_len] entries, and
    the delay line holds the last inputs, newest first: entry [i] is
    [x[k - 1 - i]], or zero when fewer than [i + 1] samples have been
    read. *)
Theorem X23_nlms_state_invariant :
  forall (F : Type) (A : Arith F) (x y : list F) (filter_len : nat)
    (h : list F) (mu beta : F) (k : nat),
    (0 < filter_len)%nat -> length h = filter_len ->
    let st := AdaptiveFilter.nlms_state x y filter_len h mu beta k in
    length (fst st) = filter_len /\
    length (snd st) = filter_len /\
    forall i : nat, (i < filter_len)%nat ->
      nth i (snd st) (of_int 0) =
      if (i <? k)%nat then nth (k - 1 - i) x (of_int 0) else of_int 0.
Proof.
  intros F A. exact nlms_state_invariant.
Qed.

Lemma X23_nlms_state_invariant_witness :
  let st :=
    AdaptiveFilter.nlms_state (F := float) [0.5; 0.25; -1]%float
      [1; 1; 1]%float 2 [7; 7]%float 0.5%float 0.25%float 3 in
  length (fst st) = 2%nat /\ length (snd st) = 2%nat /\
  nth 1 (snd st) 0%float = 0.25%float.
Proof.
  intros st.
  destruct (X23_nlms_state_invariant float binary64 [0.5; 0.25; -1]%float
              [1; 1; 1]%float 2 [7; 7]%float 0.5%float 0.25%float 3)
    as (L1 & L2 & Hd).
  - lia.
  - reflexivity.
  - split; [exact L1|]. split; [exact L2|].
    apply (Hd 1%nat). lia.
Defined.

(** X24.  In exact arithmetic, with a step size between 0 and 2 and a
    non-negative regularisation, one pass of the sample loop never increases
    the magnitude of the error on the sample it has just used: the updated
    coefficients predict that sample at least as well as the old ones. *)
Theorem X24_nlms_error_shrinks :
  forall (x y h x_buf : list R) (mu beta : R) (n : nat),
    (0 < length h)%nat -> length x_buf = length h ->
    (0 <= beta)%R -> (0 <= mu <= 2)%R ->
    let st :=
      AdaptiveFilter.nlms_sample x y (length h) mu beta n (h, x_buf) in
    (Rabs (nth n y 0 - AdaptiveFilter.predict (fst st) (snd st))
     <= Rabs (nth n y 0 - AdaptiveFilter.predict h (snd st)))%R.
Proof.
  exact nlms_error_shrinks.
Qed.

Lemma X24_nlms_error_shrinks_witness :
  let st :=
    AdaptiveFilter.nlms_sample [1; 2]%R [3; 4]%R 2 (1 / 10)%R
      (1 / 1000000)%R 1 ([0; 1]%R, [1; 0]%R) in
  (Rabs (4 - AdaptiveFilter.predict (fst st) (snd st))
   <= Rabs (4 - AdaptiveFilter.predict [0; 1]%R (snd st)))%R.
Proof.
  apply (X24_nlms_error_shrinks [1; 2]%R [3; 4]%R [0; 1]%R [1; 0]%R
           (1 / 10)%R (1 / 1000000)%R 1).
  - simpl. lia.
  - reflexivity.
  - lra.
  - lra.
Defined.

(** X25.  In exact arithmetic, with a step size between 0 and 2 and a
    non-negative regularisation: if the recorded signal is the response of
    some filter [w] of [filter_len] coefficients to the input, the
    coefficients never move away from [w].  Their squared distance from [w]
    after [k] samples is at most what it was after any [j <= k] samples. *)
Theorem X25_nlms_distance_nonincreasing :
  forall (x y w h : list R) (filter_len : nat) (mu beta : R) (j k : nat),
    (0 < filter_len)%nat -> length h = filter_len ->
    length w = filter_len ->
    (0 <= beta)%R -> (0 <= mu <= 2)%R ->
    (forall n : nat, (n < k)%nat -> nth n y 0%R = fir w x n) ->
    (j <= k)%nat ->
    (distance2 (fst (AdaptiveFilter.nlms_state x y filter_len h mu beta k)) w
     <= distance2
          (fst (AdaptiveFilter.nlms_state x y filter_len h mu beta j)) w)%R.
Proof.
  exact nlms_distance_nonincreasing.
Qed.

Lemma X25_nlms_distance_nonincreasing_witness :
  (distance2
     (fst (AdaptiveFilter.nlms_state [1; 2]%R [3; 7]%R 2 [0; 0]%R
             (1 / 10)%R (1 / 1000000)%R 2)) [3; 1]%R
   <= distance2
        (fst (AdaptiveFilter.nlms_state [1; 2]%R [3; 7]%R 2 [0; 0]%R
                (1 / 10)%R (1 / 1000000)%R 0)) [3; 1]%R)%R.
Proof.
  apply (X25_nlms_distance_nonincreasing [1; 2]%R [3; 7]%R [3; 1]%R
           [0; 0]%R 2 (1 / 10)%R (1 / 1000000)%R 0 2).
  - lia.
  - reflexivity.
  - reflexivity.
  - lra.
  - lra.
  - intros n Hn. assert (E : n = 0%nat \/ n = 1%nat) by lia.
    destruct E as [-> | ->]; unfold fir; simpl; lra.
  - lia.
Defined.

(** ** The noise generator in exact arithmetic *)

Section WhiteNoiseExact.
Import WhiteNoise.
Local Open Scope R_scope.

Lemma noise_sample_range (RAND_MAX r : Z) :
  (0 < RAND_MAX)%Z -> (0 <= r <= RAND_MAX)%Z ->
  exists z : Z,
    sample (F := R) RAND_MAX r = Some z /\ (-16383 <= z <= 16383)%Z.
Proof.
  intros HM Hr. unfold sample, to_int16.
  simpl trunc. simpl fmul. simpl fdiv. simpl fsub. simpl of_int.
  set (q := IZR r / IZR RAND_MAX).
  assert (Hq : 0 <= q <= 1).
  { assert (HM' : 0 < IZR RAND_MAX) by (apply (IZR_lt 0); exact HM).
    assert (Hr0 : 0 <= IZR r) by (apply (IZR_le 0); lia).
    assert (Hr1 : IZR r <= IZR RAND_MAX) by (apply IZR_le; lia).
    unfold q. split.
    - apply Rmult_le_pos; [exact Hr0|]. apply Rlt_le, Rinv_0_lt_compat.
      exact HM'.
    - apply Rmult_le_reg_r with (IZR RAND_MAX); [exact HM'|].
      unfold Rdiv. rewrite Rmult_assoc, Rinv_l by lra. lra. }
  set (t := (q * 2 - 1) * (1 / 2) * 32767).
  assert (Ht : - (32767 / 2) <= t <= 32767 / 2) by (unfold t; lra).
  unfold Exact.to_Z.
  destruct (Rle_dec 0 t) as [Hpos|Hneg].
  - destruct (Int_part_range t 16383) as [L U]; [exact Hpos|simpl; lra|].
    eexists. split.
    + replace ((-32768 <=? Int_part t)%Z && (Int_part t <=? 32767)%Z)
        with true; [reflexivity|].
      symmetry. apply andb_true_iff. split; apply Z.leb_le; lia.
    + lia.
  - destruct (Int_part_range (- t) 16383) as [L U]; [lra|simpl; lra|].
    eexists. split.
    + replace ((-32768 <=? - Int_part (- t))%Z
               && (- Int_part (- t) <=? 32767)%Z)
        with true; [reflexivity|].
      symmetry. apply andb_true_iff. split; apply Z.leb_le; lia.
    + lia.
Qed.

Lemma noise_loop_defined (RAND_MAX : Z) (rand : nat -> Z) (count i : nat) :
  (0 < RAND_MAX)%Z -> (forall j, (0 <= rand j <= RAND_MAX)%Z) ->
  exists pcm : list Z,
    noise_loop (F := R) RAND_MAX rand i count = map Some pcm /\
    length pcm = count /\
    Forall (fun s => (-16383 <= s <= 16383)%Z) pcm.
Proof.
  intros HM Hr. revert i; induction count as [|c IH]; intros i.
  - exists []. repeat split. constructor.
  - destruct (noise_sample_range RAND_MAX (rand i) HM (Hr i))
      as (z & Ez & Hz).
    destruct (IH (S i)) as (pcm & Ep & Lp & Fp).
    exists (z :: pcm). cbn [noise_loop map length]. rewrite Ez, Ep, Lp.
    repeat split. constructor; assumption.
Qed.

Lemma header_is_write_wav (pcm : list Z) :
  length pcm = Z.to_nat numSamples ->
  header ++ flat_map Wav.put16 pcm
  = Wav.write_wav pcm numSamples sampleRate.
Proof.
  intros Lp. unfold header, Wav.write_wav.
  rewrite <- Lp, firstn_all, <- !app_assoc. reflexivity.
Qed.

(** Whatever [rand()] returns between 0 and [RAND_MAX], each of the
    8640000 samples is defined and within half of full scale, and the file
    written is one that [read_wav] reads back as these samples at 48000 Hz. *)
Lemma white_noise_file (RAND_MAX : Z) (rand : nat -> Z) :
  (0 < RAND_MAX)%Z -> (forall j, (0 <= rand j <= RAND_MAX)%Z) ->
  exists pcm : list Z,
    main (F := R) true true RAND_MAX rand = Written header (map Some pcm) /\
    Z.of_nat (length pcm) = 8640000%Z /\
    Forall (fun s => (-16383 <= s <= 16383)%Z) pcm /\
    Wav.read_wav (Some (header ++ flat_map Wav.put16 pcm))
    = Some (pcm, 48000%Z).
Proof.
  intros HM Hr.
  destruct (noise_loop_defined RAND_MAX rand (Z.to_nat numSamples) 0 HM Hr)
    as (pcm & Ep & Lp & Fp).
  exists pcm.
  assert (Ln : Z.of_nat (length pcm) = 8640000%Z).
  { rewrite Lp. apply Z2Nat.id. discriminate. }
  split; [|split; [exact Ln|split; [exact Fp|]]].
  - unfold main. cbn [negb]. rewrite Ep. reflexivity.
  - rewrite header_is_write_wav by exact Lp.
    change numSamples with 8640000%Z. rewrite <- Ln.
    apply read_write_wav.
    + eapply Forall_impl; [|exact Fp]. intros s Hs. cbv beta in Hs.
      unfold int16_range. lia.
    + unfold int32_range, sampleRate. lia.
    + lia.
Qed.

End WhiteNoiseExact.

(** X27.  In exact arithmetic, whatever values between 0 and [RAND_MAX]
    the calls of [rand()] return, white_noise.c computes 8640000 samples,
    each of them defined and within 16383 of zero (half of full scale), and
    the file it writes is one that [read_wav] reads back as exactly these
    samples at 48000 Hz. *)
Theorem X27_white_noise_file :
  forall (RAND_MAX : Z) (rand : nat -> Z),
    (0 < RAND_MAX)%Z -> (forall j : nat, (0 <= rand j <= RAND_MAX)%Z) ->
    exists pcm : list Z,
      WhiteNoise.main (F := R) true true RAND_MAX rand
      = WhiteNoise.Written WhiteNoise.header (map Some pcm) /\
      Z.of_nat (length pcm) = 8640000%Z /\
      Forall (fun s : Z => (-16383 <= s <= 16383)%Z) pcm /\
      Wav.read_wav (Some (WhiteNoise.header ++ flat_map Wav.put16 pcm))
      = Some (pcm, 48000%Z).
Proof.
  exact white_noise_file.
Qed.

Lemma X27_white_noise_file_witness :
  exists pcm : list Z,
    WhiteNoise.main (F := R) true true 2147483647
      (fun i : nat => Z.of_nat (i mod 1000))
    = WhiteNoise.Written WhiteNoise.header (map Some pcm) /\
    Z.of_nat (length pcm) = 8640000%Z /\
    Forall (fun s : Z => (-16383 <= s <= 16383)%Z) pcm /\
    Wav.read_wav (Some (WhiteNoise.header ++ flat_map Wav.put16 pcm))
    = Some (pcm, 48000%Z).
Proof.
  apply (X27_white_noise_file 2147483647
           (fun i : nat => Z.of_nat (i mod 1000))).
  - lia.
  - intros j. pose proof (Nat.mod_upper_bound j 1000 ltac:(lia)). lia.
Defined.
